(** * Code review assistant: a shallow embedding of [review_logic.py]

    The development follows the Python module top-down:
    - the code points of a [str], with the classes [re] sorts them into
      ([\s], [\w], the equivalences of [re.IGNORECASE]), and the fragment of
      Python's [re] syntax the module uses, with a backtracking matcher that
      has [re]'s priorities (leftmost alternative first, greedy repetition
      longest first, lazy repetition shortest first) and [finditer]'s
      left-to-right, non-overlapping scan;
    - the syntax tree as [ast.parse] exposes it to the module ([ast.walk],
      [FunctionDef], [ClassDef], [For]);
    - the [CodeReviewAssistant] object: its attributes, the dictionaries it
      allocates, the file system it reads and the lines it prints, threaded
      through a state-and-exception monad;
    - the theorems about the detectors, the aggregator and the renderer. *)

From Stdlib Require Import Ascii String NArith Lia ZifyBool Sorted.
From stdpp Require Import gmap strings list pretty.

Open Scope string_scope.
Open Scope list_scope.

(** ** Characters

    A Python [str] is a sequence of Unicode code points.  A [string] of this
    development holds the UTF-8 encoding of a [str], as the literals of a
    source file do; [chars] decodes it into the code points that [re]
    reads.  Positions ([m.start()], slices, line counts) count code
    points. *)

Abbreviation char := N.

Definition text := list char.

(** The code point of an ASCII character. *)
Definition cp (a : ascii) : char := N_of_ascii a.
Arguments cp a%_char.

Definition chr_newline : char := 10%N.
Definition chr_dquote : char := 34%N.
Definition chr_squote : char := 39%N.

Definition in_range (lo hi c : char) : bool := (lo <=? c)%N && (c <=? hi)%N.

Definition is_upper (c : char) : bool := in_range (cp "A") (cp "Z") c.
Definition is_lower (c : char) : bool := in_range (cp "a") (cp "z") c.
Definition is_digit (c : char) : bool := in_range (cp "0") (cp "9") c.

(** [re.IGNORECASE] compares the lower case of a character of the text with
    the pattern's, and knows a few more code points as equivalent.  For the
    ASCII letters this comes to: a letter stands for itself in both cases,
    U+0130 and U+0131 (dotted capital and dotless small i) also stand for i,
    U+017F (long s) for s, and U+212A (the Kelvin sign) for k.  [fold c] is
    the lower-case ASCII letter that [c] stands for, and [c] itself when it
    stands for none; it is exact for the ASCII characters the patterns of the
    module are written in. *)
Definition fold (c : char) : char :=
  if is_upper c then (c + 32)%N
  else if N.eqb c 0x130 || N.eqb c 0x131 then cp "i"
  else if N.eqb c 0x17f then cp "s"
  else if N.eqb c 0x212a then cp "k"
  else c.

Definition upper (c : char) : char :=
  if is_lower c then (c - 32)%N else c.

(** [\s] on a [str]: the code points for which [str.isspace] holds. *)
Definition is_space (c : char) : bool :=
  in_range 0x9 0xd c || in_range 0x1c 0x20 c || N.eqb c 0x85 || N.eqb c 0xa0
  || N.eqb c 0x1680 || in_range 0x2000 0x200a c || in_range 0x2028 0x2029 c
  || N.eqb c 0x202f || N.eqb c 0x205f || N.eqb c 0x3000.

(** The code points for which [str.isalnum] holds, as ranges, in the
    Unicode database of CPython 3.11 (version 14.0.0). *)
Definition alnum_ranges : list (N * N) :=
  [(48, 57); (65, 90); (97, 122); (170, 170); (178, 179); (181, 181);
   (185, 186); (188, 190); (192, 214); (216, 246); (248, 705); (710, 721);
   (736, 740); (748, 748); (750, 750); (880, 884); (886, 887); (890, 893);
   (895, 895); (902, 902); (904, 906); (908, 908); (910, 929); (931, 1013);
   (1015, 1153); (1162, 1327); (1329, 1366); (1369, 1369); (1376, 1416);
   (1488, 1514); (1519, 1522); (1568, 1610); (1632, 1641); (1646, 1647);
   (1649, 1747); (1749, 1749); (1765, 1766); (1774, 1788); (1791, 1791);
   (1808, 1808); (1810, 1839); (1869, 1957); (1969, 1969); (1984, 2026);
   (2036, 2037); (2042, 2042); (2048, 2069); (2074, 2074); (2084, 2084);
   (2088, 2088); (2112, 2136); (2144, 2154); (2160, 2183); (2185, 2190);
   (2208, 2249); (2308, 2361); (2365, 2365); (2384, 2384); (2392, 2401);
   (2406, 2415); (2417, 2432); (2437, 2444); (2447, 2448); (2451, 2472);
   (2474, 2480); (2482, 2482); (2486, 2489); (2493, 2493); (2510, 2510);
   (2524, 2525); (2527, 2529); (2534, 2545); (2548, 2553); (2556, 2556);
   (2565, 2570); (2575, 2576); (2579, 2600); (2602, 2608); (2610, 2611);
   (2613, 2614); (2616, 2617); (2649, 2652); (2654, 2654); (2662, 2671);
   (2674, 2676); (2693, 2701); (2703, 2705); (2707, 2728); (2730, 2736);
   (2738, 2739); (2741, 2745); (2749, 2749); (2768, 2768); (2784, 2785);
   (2790, 2799); (2809, 2809); (2821, 2828); (2831, 2832); (2835, 2856);
   (2858, 2864); (2866, 2867); (2869, 2873); (2877, 2877); (2908, 2909);
   (2911, 2913); (2918, 2927); (2929, 2935); (2947, 2947); (2949, 2954);
   (2958, 2960); (2962, 2965); (2969, 2970); (2972, 2972); (2974, 2975);
   (2979, 2980); (2984, 2986); (2990, 3001); (3024, 3024); (3046, 3058);
   (3077, 3084); (3086, 3088); (3090, 3112); (3114, 3129); (3133, 3133);
   (3160, 3162); (3165, 3165); (3168, 3169); (3174, 3183); (3192, 3198);
   (3200, 3200); (3205, 3212); (3214, 3216); (3218, 3240); (3242, 3251);
   (3253, 3257); (3261, 3261); (3293, 3294); (3296, 3297); (3302, 3311);
   (3313, 3314); (3332, 3340); (3342, 3344); (3346, 3386); (3389, 3389);
   (3406, 3406); (3412, 3414); (3416, 3425); (3430, 3448); (3450, 3455);
   (3461, 3478); (3482, 3505); (3507, 3515); (3517, 3517); (3520, 3526);
   (3558, 3567); (3585, 3632); (3634, 3635); (3648, 3654); (3664, 3673);
   (3713, 3714); (3716, 3716); (3718, 3722); (3724, 3747); (3749, 3749);
   (3751, 3760); (3762, 3763); (3773, 3773); (3776, 3780); (3782, 3782);
   (3792, 3801); (3804, 3807); (3840, 3840); (3872, 3891); (3904, 3911);
   (3913, 3948); (3976, 3980); (4096, 4138); (4159, 4169); (4176, 4181);
   (4186, 4189); (4193, 4193); (4197, 4198); (4206, 4208); (4213, 4225);
   (4238, 4238); (4240, 4249); (4256, 4293); (4295, 4295); (4301, 4301);
   (4304, 4346); (4348, 4680); (4682, 4685); (4688, 4694); (4696, 4696);
   (4698, 4701); (4704, 4744); (4746, 4749); (4752, 4784); (4786, 4789);
   (4792, 4798); (4800, 4800); (4802, 4805); (4808, 4822); (4824, 4880);
   (4882, 4885); (4888, 4954); (4969, 4988); (4992, 5007); (5024, 5109);
   (5112, 5117); (5121, 5740); (5743, 5759); (5761, 5786); (5792, 5866);
   (5870, 5880); (5888, 5905); (5919, 5937); (5952, 5969); (5984, 5996);
   (5998, 6000); (6016, 6067); (6103, 6103); (6108, 6108); (6112, 6121);
   (6128, 6137); (6160, 6169); (6176, 6264); (6272, 6276); (6279, 6312);
   (6314, 6314); (6320, 6389); (6400, 6430); (6470, 6509); (6512, 6516);
   (6528, 6571); (6576, 6601); (6608, 6618); (6656, 6678); (6688, 6740);
   (6784, 6793); (6800, 6809); (6823, 6823); (6917, 6963); (6981, 6988);
   (6992, 7001); (7043, 7072); (7086, 7141); (7168, 7203); (7232, 7241);
   (7245, 7293); (7296, 7304); (7312, 7354); (7357, 7359); (7401, 7404);
   (7406, 7411); (7413, 7414); (7418, 7418); (7424, 7615); (7680, 7957);
   (7960, 7965); (7968, 8005); (8008, 8013); (8016, 8023); (8025, 8025);
   (8027, 8027); (8029, 8029); (8031, 8061); (8064, 8116); (8118, 8124);
   (8126, 8126); (8130, 8132); (8134, 8140); (8144, 8147); (8150, 8155);
   (8160, 8172); (8178, 8180); (8182, 8188); (8304, 8305); (8308, 8313);
   (8319, 8329); (8336, 8348); (8450, 8450); (8455, 8455); (8458, 8467);
   (8469, 8469); (8473, 8477); (8484, 8484); (8486, 8486); (8488, 8488);
   (8490, 8493); (8495, 8505); (8508, 8511); (8517, 8521); (8526, 8526);
   (8528, 8585); (9312, 9371); (9450, 9471); (10102, 10131); (11264, 11492);
   (11499, 11502); (11506, 11507); (11517, 11517); (11520, 11557);
   (11559, 11559); (11565, 11565); (11568, 11623); (11631, 11631);
   (11648, 11670); (11680, 11686); (11688, 11694); (11696, 11702);
   (11704, 11710); (11712, 11718); (11720, 11726); (11728, 11734);
   (11736, 11742); (11823, 11823); (12293, 12295); (12321, 12329);
   (12337, 12341); (12344, 12348); (12353, 12438); (12445, 12447);
   (12449, 12538); (12540, 12543); (12549, 12591); (12593, 12686);
   (12690, 12693); (12704, 12735); (12784, 12799); (12832, 12841);
   (12872, 12879); (12881, 12895); (12928, 12937); (12977, 12991);
   (13312, 19903); (19968, 42124); (42192, 42237); (42240, 42508);
   (42512, 42539); (42560, 42606); (42623, 42653); (42656, 42735);
   (42775, 42783); (42786, 42888); (42891, 42954); (42960, 42961);
   (42963, 42963); (42965, 42969); (42994, 43009); (43011, 43013);
   (43015, 43018); (43020, 43042); (43056, 43061); (43072, 43123);
   (43138, 43187); (43216, 43225); (43250, 43255); (43259, 43259);
   (43261, 43262); (43264, 43301); (43312, 43334); (43360, 43388);
   (43396, 43442); (43471, 43481); (43488, 43492); (43494, 43518);
   (43520, 43560); (43584, 43586); (43588, 43595); (43600, 43609);
   (43616, 43638); (43642, 43642); (43646, 43695); (43697, 43697);
   (43701, 43702); (43705, 43709); (43712, 43712); (43714, 43714);
   (43739, 43741); (43744, 43754); (43762, 43764); (43777, 43782);
   (43785, 43790); (43793, 43798); (43808, 43814); (43816, 43822);
   (43824, 43866); (43868, 43881); (43888, 44002); (44016, 44025);
   (44032, 55203); (55216, 55238); (55243, 55291); (63744, 64109);
   (64112, 64217); (64256, 64262); (64275, 64279); (64285, 64285);
   (64287, 64296); (64298, 64310); (64312, 64316); (64318, 64318);
   (64320, 64321); (64323, 64324); (64326, 64433); (64467, 64829);
   (64848, 64911); (64914, 64967); (65008, 65019); (65136, 65140);
   (65142, 65276); (65296, 65305); (65313, 65338); (65345, 65370);
   (65382, 65470); (65474, 65479); (65482, 65487); (65490, 65495);
   (65498, 65500); (65536, 65547); (65549, 65574); (65576, 65594);
   (65596, 65597); (65599, 65613); (65616, 65629); (65664, 65786);
   (65799, 65843); (65856, 65912); (65930, 65931); (66176, 66204);
   (66208, 66256); (66273, 66299); (66304, 66339); (66349, 66378);
   (66384, 66421); (66432, 66461); (66464, 66499); (66504, 66511);
   (66513, 66517); (66560, 66717); (66720, 66729); (66736, 66771);
   (66776, 66811); (66816, 66855); (66864, 66915); (66928, 66938);
   (66940, 66954); (66956, 66962); (66964, 66965); (66967, 66977);
   (66979, 66993); (66995, 67001); (67003, 67004); (67072, 67382);
   (67392, 67413); (67424, 67431); (67456, 67461); (67463, 67504);
   (67506, 67514); (67584, 67589); (67592, 67592); (67594, 67637);
   (67639, 67640); (67644, 67644); (67647, 67669); (67672, 67702);
   (67705, 67742); (67751, 67759); (67808, 67826); (67828, 67829);
   (67835, 67867); (67872, 67897); (67968, 68023); (68028, 68047);
   (68050, 68096); (68112, 68115); (68117, 68119); (68121, 68149);
   (68160, 68168); (68192, 68222); (68224, 68255); (68288, 68295);
   (68297, 68324); (68331, 68335); (68352, 68405); (68416, 68437);
   (68440, 68466); (68472, 68497); (68521, 68527); (68608, 68680);
   (68736, 68786); (68800, 68850); (68858, 68899); (68912, 68921);
   (69216, 69246); (69248, 69289); (69296, 69297); (69376, 69415);
   (69424, 69445); (69457, 69460); (69488, 69505); (69552, 69579);
   (69600, 69622); (69635, 69687); (69714, 69743); (69745, 69746);
   (69749, 69749); (69763, 69807); (69840, 69864); (69872, 69881);
   (69891, 69926); (69942, 69951); (69956, 69956); (69959, 69959);
   (69968, 70002); (70006, 70006); (70019, 70066); (70081, 70084);
   (70096, 70106); (70108, 70108); (70113, 70132); (70144, 70161);
   (70163, 70187); (70272, 70278); (70280, 70280); (70282, 70285);
   (70287, 70301); (70303, 70312); (70320, 70366); (70384, 70393);
   (70405, 70412); (70415, 70416); (70419, 70440); (70442, 70448);
   (70450, 70451); (70453, 70457); (70461, 70461); (70480, 70480);
   (70493, 70497); (70656, 70708); (70727, 70730); (70736, 70745);
   (70751, 70753); (70784, 70831); (70852, 70853); (70855, 70855);
   (70864, 70873); (71040, 71086); (71128, 71131); (71168, 71215);
   (71236, 71236); (71248, 71257); (71296, 71338); (71352, 71352);
   (71360, 71369); (71424, 71450); (71472, 71483); (71488, 71494);
   (71680, 71723); (71840, 71922); (71935, 71942); (71945, 71945);
   (71948, 71955); (71957, 71958); (71960, 71983); (71999, 71999);
   (72001, 72001); (72016, 72025); (72096, 72103); (72106, 72144);
   (72161, 72161); (72163, 72163); (72192, 72192); (72203, 72242);
   (72250, 72250); (72272, 72272); (72284, 72329); (72349, 72349);
   (72368, 72440); (72704, 72712); (72714, 72750); (72768, 72768);
   (72784, 72812); (72818, 72847); (72960, 72966); (72968, 72969);
   (72971, 73008); (73030, 73030); (73040, 73049); (73056, 73061);
   (73063, 73064); (73066, 73097); (73112, 73112); (73120, 73129);
   (73440, 73458); (73648, 73648); (73664, 73684); (73728, 74649);
   (74752, 74862); (74880, 75075); (77712, 77808); (77824, 78894);
   (82944, 83526); (92160, 92728); (92736, 92766); (92768, 92777);
   (92784, 92862); (92864, 92873); (92880, 92909); (92928, 92975);
   (92992, 92995); (93008, 93017); (93019, 93025); (93027, 93047);
   (93053, 93071); (93760, 93846); (93952, 94026); (94032, 94032);
   (94099, 94111); (94176, 94177); (94179, 94179); (94208, 100343);
   (100352, 101589); (101632, 101640); (110576, 110579); (110581, 110587);
   (110589, 110590); (110592, 110882); (110928, 110930); (110948, 110951);
   (110960, 111355); (113664, 113770); (113776, 113788); (113792, 113800);
   (113808, 113817); (119520, 119539); (119648, 119672); (119808, 119892);
   (119894, 119964); (119966, 119967); (119970, 119970); (119973, 119974);
   (119977, 119980); (119982, 119993); (119995, 119995); (119997, 120003);
   (120005, 120069); (120071, 120074); (120077, 120084); (120086, 120092);
   (120094, 120121); (120123, 120126); (120128, 120132); (120134, 120134);
   (120138, 120144); (120146, 120485); (120488, 120512); (120514, 120538);
   (120540, 120570); (120572, 120596); (120598, 120628); (120630, 120654);
   (120656, 120686); (120688, 120712); (120714, 120744); (120746, 120770);
   (120772, 120779); (120782, 120831); (122624, 122654); (123136, 123180);
   (123191, 123197); (123200, 123209); (123214, 123214); (123536, 123565);
   (123584, 123627); (123632, 123641); (124896, 124902); (124904, 124907);
   (124909, 124910); (124912, 124926); (124928, 125124); (125127, 125135);
   (125184, 125251); (125259, 125259); (125264, 125273); (126065, 126123);
   (126125, 126127); (126129, 126132); (126209, 126253); (126255, 126269);
   (126464, 126467); (126469, 126495); (126497, 126498); (126500, 126500);
   (126503, 126503); (126505, 126514); (126516, 126519); (126521, 126521);
   (126523, 126523); (126530, 126530); (126535, 126535); (126537, 126537);
   (126539, 126539); (126541, 126543); (126545, 126546); (126548, 126548);
   (126551, 126551); (126553, 126553); (126555, 126555); (126557, 126557);
   (126559, 126559); (126561, 126562); (126564, 126564); (126567, 126570);
   (126572, 126578); (126580, 126583); (126585, 126588); (126590, 126590);
   (126592, 126601); (126603, 126619); (126625, 126627); (126629, 126633);
   (126635, 126651); (127232, 127244); (130032, 130041); (131072, 173791);
   (173824, 177976); (177984, 178205); (178208, 183969); (183984, 191456);
   (194560, 195101); (196608, 201546)]%N.

Definition in_ranges (rs : list (N * N)) (c : char) : bool :=
  existsb (fun r => in_range (fst r) (snd r) c) rs.

Definition is_alnum (c : char) : bool := in_ranges alnum_ranges c.

(** [\w] on a [str]: alphanumeric code points and the underscore. *)
Definition is_word (c : char) : bool := is_alnum c || N.eqb c (cp "_").

(** UTF-8: the code point of a well-formed sequence of two, three or four
    bytes.  A byte of 128 or more that starts no well-formed sequence stands
    for the code point U+DC00 + byte, as under Python's [surrogateescape]; no
    text read from a file holds one. *)
Definition is_cont (b : N) : bool := in_range 0x80 0xbf b.

Definition lone_byte (b : N) : char := if (b <? 0x80)%N then b else (0xdc00 + b)%N.

Definition seq2 (b0 b1 : N) : option char :=
  if in_range 0xc2 0xdf b0 && is_cont b1
  then Some ((b0 - 0xc0) * 64 + (b1 - 0x80))%N else None.

Definition seq3 (b0 b1 b2 : N) : option char :=
  if in_range 0xe0 0xef b0 && is_cont b1 && is_cont b2
  then let c := ((b0 - 0xe0) * 4096 + (b1 - 0x80) * 64 + (b2 - 0x80))%N in
       if (0x800 <=? c)%N && negb (in_range 0xd800 0xdfff c) then Some c else None
  else None.

Definition seq4 (b0 b1 b2 b3 : N) : option char :=
  if in_range 0xf0 0xf4 b0 && is_cont b1 && is_cont b2 && is_cont b3
  then let c := ((b0 - 0xf0) * 262144 + (b1 - 0x80) * 4096
                 + (b2 - 0x80) * 64 + (b3 - 0x80))%N in
       if in_range 0x10000 0x10ffff c then Some c else None
  else None.

Fixpoint utf8_decode (bs : list N) : text :=
  match bs with
  | [] => []
  | b0 :: t0 =>
      match t0 with
      | b1 :: t1 =>
          match seq2 b0 b1 with
          | Some c => c :: utf8_decode t1
          | None =>
              match t1 with
              | b2 :: t2 =>
                  match seq3 b0 b1 b2 with
                  | Some c => c :: utf8_decode t2
                  | None =>
                      match t2 with
                      | b3 :: t3 =>
                          match seq4 b0 b1 b2 b3 with
                          | Some c => c :: utf8_decode t3
                          | None => lone_byte b0 :: utf8_decode t0
                          end
                      | [] => lone_byte b0 :: utf8_decode t0
                      end
                  end
              | [] => lone_byte b0 :: utf8_decode t0
              end
          end
      | [] => [lone_byte b0]
      end
  end.

(** Equality of texts. *)
Fixpoint text_eqb (u v : text) : bool :=
  match u, v with
  | [], [] => true
  | c :: u', d :: v' => N.eqb c d && text_eqb u' v'
  | _, _ => false
  end.

(** The code points of a [str]. *)
Definition chars (s : string) : text :=
  utf8_decode (map cp (list_ascii_of_string s)).

(** ** Regular expressions *)

Record flags := mkFlags { ignorecase : bool; multiline : bool }.

Definition no_flags : flags := mkFlags false false.
Definition IGNORECASE : flags := mkFlags true false.
Definition MULTILINE : flags := mkFlags false true.

(** Members of a bracketed set. *)
Inductive set_item :=
| SChar (c : char)             (* a *)
| SRange (lo hi : char)        (* a-z *)
| SSpace.                      (* \s *)

(** Patterns that match exactly one character. *)
Inductive atom :=
| ALit (c : char)                             (* a literal character *)
| AAny                                        (* . *)
| ASet (negated : bool) (items : list set_item).   (* [...] and [^...] *)

Inductive regex :=
| REmpty
| RChar (a : atom)
| RBol                                  (* ^ *)
| REol                                  (* $ *)
| RWordB                                (* \b *)
| RSeq (r1 r2 : regex)
| RAlt (r1 r2 : regex)                  (* r1|r2 *)
| RStar (greedy : bool) (a : atom)      (* a* and a*? *)
| RPlus (greedy : bool) (a : atom)      (* a+ and a+? *)
| RGroup (r : regex).                   (* (...) and (?:...) *)

Definition item_raw (it : set_item) (c : char) : bool :=
  match it with
  | SChar d => N.eqb c d
  | SRange lo hi => in_range lo hi c
  | SSpace => is_space c
  end.

Definition item_matches (fl : flags) (it : set_item) (c : char) : bool :=
  item_raw it c
  || (ignorecase fl && (item_raw it (fold c) || item_raw it (upper (fold c)))).

Definition atom_matches (fl : flags) (a : atom) (c : char) : bool :=
  match a with
  | ALit d => if ignorecase fl then N.eqb (fold c) (fold d) else N.eqb c d
  | AAny => negb (N.eqb c chr_newline)
  | ASet neg items => xorb neg (existsb (fun it => item_matches fl it c) items)
  end.

(** The matcher is written with continuations.  A continuation receives the
    character just consumed (if any), the text still to read and the number
    of characters consumed since the start of the attempt; it answers with
    the end of the first successful match in backtracking order. *)
Definition cont := option char -> text -> nat -> option nat.

Definition or_else (a : option nat) (b : option nat) : option nat :=
  match a with Some e => Some e | None => b end.

Fixpoint star_greedy (p : char -> bool) (k : cont)
    (prev : option char) (s : text) (pos : nat) : option nat :=
  match s with
  | c :: s' =>
      if p c then or_else (star_greedy p k (Some c) s' (S pos)) (k prev s pos)
      else k prev s pos
  | [] => k prev s pos
  end.

Fixpoint star_lazy (p : char -> bool) (k : cont)
    (prev : option char) (s : text) (pos : nat) : option nat :=
  match k prev s pos with
  | Some e => Some e
  | None =>
      match s with
      | c :: s' => if p c then star_lazy p k (Some c) s' (S pos) else None
      | [] => None
      end
  end.

Definition star (greedy : bool) := if greedy then star_greedy else star_lazy.

Definition prev_is_word (prev : option char) : bool :=
  match prev with Some c => is_word c | None => false end.

Definition next_is_word (s : text) : bool :=
  match s with c :: _ => is_word c | [] => false end.

(** [^]: start of the text, and with [MULTILINE] also just after a newline. *)
Definition at_bol (fl : flags) (prev : option char) : bool :=
  match prev with
  | None => true
  | Some c => multiline fl && N.eqb c chr_newline
  end.

(** [$]: end of the text or just before a final newline, and with
    [MULTILINE] before any newline. *)
Definition at_eol (fl : flags) (s : text) : bool :=
  match s with
  | [] => true
  | c :: s' =>
      N.eqb c chr_newline
      && (multiline fl || match s' with [] => true | _ => false end)
  end.

Fixpoint rmatch (fl : flags) (r : regex) (k : cont)
    (prev : option char) (s : text) (pos : nat) : option nat :=
  match r with
  | REmpty => k prev s pos
  | RChar a =>
      match s with
      | c :: s' => if atom_matches fl a c then k (Some c) s' (S pos) else None
      | [] => None
      end
  | RBol => if at_bol fl prev then k prev s pos else None
  | REol => if at_eol fl s then k prev s pos else None
  | RWordB =>
      if xorb (prev_is_word prev) (next_is_word s) then k prev s pos else None
  | RSeq r1 r2 => rmatch fl r1 (rmatch fl r2 k) prev s pos
  | RAlt r1 r2 => or_else (rmatch fl r1 k prev s pos) (rmatch fl r2 k prev s pos)
  | RStar g a => star g (atom_matches fl a) k prev s pos
  | RPlus g a =>
      match s with
      | c :: s' =>
          if atom_matches fl a c
          then star g (atom_matches fl a) k (Some c) s' (S pos)
          else None
      | [] => None
      end
  | RGroup r1 => rmatch fl r1 k prev s pos
  end.

Definition accept : cont := fun _ _ pos => Some pos.

(** One attempt at the current position: the length of the match. *)
Definition match_here (fl : flags) (r : regex) (prev : option char) (s : text)
    : option nat :=
  rmatch fl r accept prev s 0.

(** A match object: [m.start()] and [m.end()]. *)
Record match_obj := mkMatch { m_start : nat; m_end : nat }.

(** [finditer]: try every position from left to right; after a match the
    scan resumes at its end.  [skip] counts the positions still covered by
    the last match.  (After an empty match [re] retries the same position for
    a non-empty one; the patterns of this module never match the empty
    string, see [patterns_consume].) *)
Fixpoint scan (fl : flags) (r : regex) (prev : option char) (s : text)
    (pos skip : nat) : list match_obj :=
  match skip with
  | S n =>
      match s with
      | c :: s' => scan fl r (Some c) s' (S pos) n
      | [] => []
      end
  | O =>
      match match_here fl r prev s with
      | Some len =>
          mkMatch pos (pos + len)
          :: match s with
             | c :: s' => scan fl r (Some c) s' (S pos) (len - 1)
             | [] => []
             end
      | None =>
          match s with
          | c :: s' => scan fl r (Some c) s' (S pos) 0
          | [] => []
          end
      end
  end.

Definition finditer (fl : flags) (r : regex) (s : text) : list match_obj :=
  scan fl r None s 0 0.

(** [re.match(pattern, s)]: one attempt at the start; only success matters. *)
Definition re_match (fl : flags) (r : regex) (s : text) : bool :=
  match match_here fl r None s with Some _ => true | None => false end.

(** Building patterns. *)
Definition lit (s : string) : regex :=
  fold_right (fun c r => RSeq (RChar (ALit c)) r) REmpty (chars s).

Fixpoint seqs (rs : list regex) : regex :=
  match rs with
  | [] => REmpty
  | [r] => r
  | r :: rs' => RSeq r (seqs rs')
  end.

Fixpoint alts (rs : list regex) : regex :=
  match rs with
  | [] => REmpty
  | [r] => r
  | r :: rs' => RAlt r (alts rs')
  end.

Definition ws_star : regex := RStar true (ASet false [SSpace]).   (* \s* *)

(** ** The patterns of [review_logic.py] *)

(** [r'^\s*#\s*(def|class|if|for|while|return)\b'], compiled with
    [re.MULTILINE]. *)
Definition commented_code_pattern : regex :=
  seqs [RBol; ws_star; lit "#"; ws_star;
        RGroup (alts [lit "def"; lit "class"; lit "if"; lit "for";
                      lit "while"; lit "return"]);
        RWordB].

Definition credential_words : list string :=
  ["password"; "passwd"; "pwd"; "secret"; "key"; "token"; "auth"].

Definition quoted (q : char) : regex :=
  seqs [RChar (ALit q); RPlus true (ASet true [SChar q]); RChar (ALit q)].

(** The credentials pattern, compiled with [re.IGNORECASE]:
    a non-capturing group [password|passwd|pwd|secret|key|token|auth], a
    non-capturing group [\s*=\s*], and a capturing group [Q1|Q2] where Q1 is a
    single quote, [[^']+] and a single quote, and Q2 is the same with the
    double quote. *)
Definition password_pattern : regex :=
  seqs [RGroup (alts (map lit credential_words));
        RGroup (seqs [ws_star; lit "="; ws_star]);
        RGroup (RAlt (quoted chr_squote) (quoted chr_dquote))].

Definition sql_keywords : list string :=
  ["SELECT"; "INSERT"; "UPDATE"; "DELETE"; "DROP"].

(** The SQL pattern, compiled with [re.IGNORECASE]: the letter f, a set
    holding the double and the single quote, a non-capturing group [\s*], a
    non-capturing group [SELECT|INSERT|UPDATE|DELETE|DROP], and [.*?\{]. *)
Definition sql_pattern : regex :=
  seqs [lit "f"; RChar (ASet false [SChar chr_dquote; SChar chr_squote]);
        RGroup ws_star;
        RGroup (alts (map lit sql_keywords));
        RStar false AAny;
        lit "{"].

(** [r'^[a-z][a-z0-9_]*$'] *)
Definition snake_case_pattern : regex :=
  seqs [RBol; RChar (ASet false [SRange (cp "a") (cp "z")]);
        RStar true (ASet false [SRange (cp "a") (cp "z"); SRange (cp "0") (cp "9"); SChar (cp "_")]);
        REol].

(** [r'^[A-Z][a-zA-Z0-9]*$'] *)
Definition pascal_case_pattern : regex :=
  seqs [RBol; RChar (ASet false [SRange (cp "A") (cp "Z")]);
        RStar true (ASet false [SRange (cp "a") (cp "z"); SRange (cp "A") (cp "Z"); SRange (cp "0") (cp "9")]);
        REol].

(** [code[:start].count('\n') + 1] *)
Definition line_number (code : string) (start : nat) : nat :=
  count_occ N.eq_dec (take start (chars code)) chr_newline + 1.

(** ** Syntax trees

    What [ast.parse] gives the module: nodes with a class, and for the
    classes that have them a [name] and a [lineno]; [children] is
    [ast.iter_child_nodes]. *)

Inductive ast_class :=
| Module | FunctionDef | AsyncFunctionDef | ClassDef
| For | AsyncFor | While | OtherNode.

Unset Elimination Schemes.
Inductive node :=
| Node (cls : ast_class) (name : string) (lineno : nat) (children : list node).
Set Elimination Schemes.

Definition node_class (n : node) : ast_class := let 'Node c _ _ _ := n in c.
Definition node_name (n : node) : string := let 'Node _ x _ _ := n in x.
Definition node_lineno (n : node) : nat := let 'Node _ _ l _ := n in l.
Definition node_children (n : node) : list node := let 'Node _ _ _ cs := n in cs.

Definition ast_class_eqb (a b : ast_class) : bool :=
  match a, b with
  | Module, Module | FunctionDef, FunctionDef
  | AsyncFunctionDef, AsyncFunctionDef | ClassDef, ClassDef
  | For, For | AsyncFor, AsyncFor | While, While | OtherNode, OtherNode => true
  | _, _ => false
  end.

(** [isinstance(n, ast.C)] *)
Definition isinstance (n : node) (c : ast_class) : bool :=
  ast_class_eqb (node_class n) c.

Fixpoint node_size (n : node) : nat :=
  let 'Node _ _ _ cs := n in S (list_sum (map node_size cs)).

(** A node object is identified by its position: the child indices on the way
    down from the node the walk started at. *)
Definition path := list nat.

Definition child_entries (p : path) (n : node) : list (path * node) :=
  imap (fun i c => (p ++ [i], c)) (node_children n).

(** [ast.walk]: a queue of nodes, the first one is yielded and its children
    join the end of the queue.  [fuel] bounds the number of nodes yielded. *)
Fixpoint walk_queue (fuel : nat) (todo : list (path * node)) : list (path * node) :=
  match fuel, todo with
  | S fuel', (p, n) :: rest =>
      (p, n) :: walk_queue fuel' (rest ++ child_entries p n)
  | _, _ => []
  end.

Definition walk (n : node) : list (path * node) :=
  walk_queue (node_size n) [([], n)].

(** [child is not node], for a [child] yielded by [ast.walk(node)]. *)
Definition is_not_root (p : path) : bool :=
  match p with [] => false | _ => true end.

(** The exception [ast.parse] raises: [str(e)] and [e.lineno]. *)
Record SyntaxError := mkSyntaxError { se_str : string; se_lineno : option nat }.

(** ** Findings and the assistant's state *)

(** An issue is a dictionary with the four keys below; [line] is an [int],
    or [None] when [SyntaxError.lineno] is. *)
Record issue := mkIssue {
  type : string;
  message : string;
  line : option nat;
  severity : string
}.

(** A result dictionary: category to list of issues. *)
Abbreviation results := (gmap string (list issue)).

Definition loc := nat.

Record state := mkState {
  heap : list results;       (* the dictionaries allocated so far *)
  template_dir : string;     (* self.template_dir *)
  issues_found : loc;        (* self.issues_found *)
  stdout : list string       (* what print has written *)
}.

Inductive exn :=
| ReadError          (* open or read failed, and not with FileNotFoundError *)
| KeyError (k : string)
| SystemError.       (* a reference to no object; unreachable from __init__ *)

Inductive outcome (A : Type) :=
| Ret (a : A)
| Raise (e : exn).
Arguments Ret {A} a.
Arguments Raise {A} e.

Definition M (A : Type) : Type := state -> outcome A * state.

Definition ret {A} (a : A) : M A := fun st => (Ret a, st).
Definition raise {A} (e : exn) : M A := fun st => (Raise e, st).
Definition bind {A B} (m : M A) (f : A -> M B) : M B := fun st =>
  match m st with
  | (Ret a, st') => f a st'
  | (Raise e, st') => (Raise e, st')
  end.

Notation "x <- m ;; k" := (bind m (fun x => k))
  (at level 100, m at next level, k at level 200, right associativity).
Notation "m ;;; k" := (bind m (fun _ => k))
  (at level 100, k at level 200, right associativity).

Fixpoint for_each {A} (xs : list A) (body : A -> M unit) : M unit :=
  match xs with
  | [] => ret tt
  | x :: xs' => body x ;;; for_each xs' body
  end.

Definition print (s : string) : M unit := fun st =>
  (Ret tt, mkState (heap st) (template_dir st) (issues_found st) (stdout st ++ [s])).

Definition set_heap (h : list results) (st : state) : state :=
  mkState h (template_dir st) (issues_found st) (stdout st).

(** [self.issues_found = d], for a newly built dictionary [d]. *)
Definition assign_issues_found (d : results) : M unit := fun st =>
  (Ret tt, mkState (heap st ++ [d]) (template_dir st) (length (heap st)) (stdout st)).

(** [self.issues_found] *)
Definition get_issues_found : M loc := fun st => (Ret (issues_found st), st).

(** Reading the dictionary a reference points to. *)
Definition deref (l : loc) : M results := fun st =>
  match heap st !! l with
  | Some d => (Ret d, st)
  | None => (Raise SystemError, st)
  end.

(** [self.issues_found[category].append(i)] *)
Definition append_issue (category : string) (i : issue) : M unit := fun st =>
  match heap st !! issues_found st with
  | None => (Raise SystemError, st)
  | Some d =>
      match d !! category with
      | None => (Raise (KeyError category), st)
      | Some l =>
          (Ret tt,
           set_heap (<[issues_found st := <[category := l ++ [i]]> d]> (heap st)) st)
      end
  end.

Definition empty_results : results :=
  <["general" := []]> (<["security" := []]> (<["performance" := []]> ∅)).

(** [CodeReviewAssistant(template_dir)] *)
Definition init (dir : string) : state :=
  mkState [empty_results] dir 0 [].

(** [open(path, 'r')] followed by [read()]. *)
Inductive file :=
| File (content : string)
| Missing          (* FileNotFoundError *)
| Unreadable.      (* any other failure of open or read *)

Definition nl : string := String "010"%char "".

(** [os.path.join(a, b)] with the POSIX separator. *)
Definition os_path_join (a b : string) : string :=
  match b with
  | String "/" _ => b
  | _ =>
      match rev (list_ascii_of_string a) with
      | [] => b
      | "/"%char :: _ => a +:+ b
      | _ => a +:+ "/" +:+ b
      end
  end.

Inductive parse_result :=
| Parsed (tree : node)
| ParseError (e : SyntaxError).

(** [f"{x}"] for an [int] or [None]. *)
Definition format_line (l : option nat) : string :=
  match l with
  | Some n => pretty n
  | None => "None"
  end.

(** ** The methods of [CodeReviewAssistant]

    The file system and [ast.parse] are the environment of the module: they
    are read, never written. *)

Section CodeReviewAssistant.

Variable fs : string -> file.
Variable ast_parse : string -> parse_result.

Definition load_template (template_type : string) : M string := fun st =>
  let template_path := os_path_join (template_dir st) (template_type +:+ ".md") in
  match fs template_path with
  | File content => ret content st
  | Missing =>
      (print ("Error: Template " +:+ template_path +:+ " not found") ;;;
       ret "") st
  | Unreadable => raise ReadError st
  end.

Definition commented_code_issue (line_number : nat) : issue :=
  {| type := "commented_code";
     message := "Commented out code should be removed";
     line := Some line_number;
     severity := "minor" |}.

Definition function_name_issue (n : node) : issue :=
  {| type := "naming_convention";
     message := "Function name '" +:+ node_name n
                +:+ "' doesn't follow snake_case convention";
     line := Some (node_lineno n);
     severity := "minor" |}.

Definition class_name_issue (n : node) : issue :=
  {| type := "naming_convention";
     message := "Class name '" +:+ node_name n
                +:+ "' doesn't follow PascalCase convention";
     line := Some (node_lineno n);
     severity := "minor" |}.

Definition syntax_error_issue (e : SyntaxError) : issue :=
  {| type := "syntax_error";
     message := "Syntax error: " +:+ se_str e;
     line := se_lineno e;
     severity := "critical" |}.

Definition _analyze_general_issues (code file_path : string) : M unit :=
  (* Check for commented out code *)
  let commented_code_matches :=
    finditer MULTILINE commented_code_pattern (chars code) in
  for_each commented_code_matches (fun m =>
    let line_number := line_number code (m_start m) in
    append_issue "general" (commented_code_issue line_number)) ;;;
  (* Check for inconsistent naming conventions *)
  match ast_parse code with
  | Parsed parsed =>
      for_each (walk parsed) (fun '(_, node) =>
        if isinstance node FunctionDef then
          if negb (re_match no_flags snake_case_pattern (chars (node_name node)))
          then append_issue "general" (function_name_issue node)
          else ret tt
        else if isinstance node ClassDef then
          if negb (re_match no_flags pascal_case_pattern (chars (node_name node)))
          then append_issue "general" (class_name_issue node)
          else ret tt
        else ret tt)
  | ParseError e =>
      append_issue "general" (syntax_error_issue e)
  end.

Definition credentials_issue (line_number : nat) : issue :=
  {| type := "hardcoded_credentials";
     message := "Hardcoded credentials detected";
     line := Some line_number;
     severity := "critical" |}.

Definition sql_injection_issue (line_number : nat) : issue :=
  {| type := "sql_injection";
     message := "Potential SQL injection vulnerability detected";
     line := Some line_number;
     severity := "critical" |}.

Definition _analyze_security_issues (code file_path : string) : M unit :=
  (* Check for hardcoded credentials *)
  let password_matches := finditer IGNORECASE password_pattern (chars code) in
  for_each password_matches (fun m =>
    let line_number := line_number code (m_start m) in
    append_issue "security" (credentials_issue line_number)) ;;;
  (* Check for SQL injection vulnerabilities *)
  let sql_matches := finditer IGNORECASE sql_pattern (chars code) in
  for_each sql_matches (fun m =>
    let line_number := line_number code (m_start m) in
    append_issue "security" (sql_injection_issue line_number)).

Definition nested_loops_issue (n : node) : issue :=
  {| type := "nested_loops";
     message := "Nested loops detected (potential O(n²) complexity)";
     line := Some (node_lineno n);
     severity := "moderate" |}.

(** The inner loop of the nested-loop check, over [ast.walk(node)]; it
    leaves at the first [For] other than [node] itself. *)
Fixpoint nested_for_scan (nd : node) (children : list (path * node)) : M unit :=
  match children with
  | [] => ret tt
  | (p, child) :: rest =>
      if isinstance child For && is_not_root p
      then append_issue "performance" (nested_loops_issue nd)   (* break *)
      else nested_for_scan nd rest
  end.

Definition _analyze_performance_issues (code file_path : string) : M unit :=
  match ast_parse code with
  | Parsed parsed =>
      for_each (walk parsed) (fun '(_, node) =>
        if isinstance node For
        then nested_for_scan node (walk node)
        else ret tt)
  | ParseError _ =>
      (* Already reported in general issues *)
      ret tt
  end.

Definition analyze_file (file_path : string) : M loc :=
  match fs file_path with
  | Missing =>
      print ("Error: File " +:+ file_path +:+ " not found") ;;;
      get_issues_found
  | Unreadable => raise ReadError
  | File code =>
      (* Reset issues *)
      assign_issues_found empty_results ;;;
      (* Run different analyzers *)
      _analyze_general_issues code file_path ;;;
      _analyze_security_issues code file_path ;;;
      _analyze_performance_issues code file_path ;;;
      get_issues_found
  end.

Definition issue_line (i : issue) : string :=
  "- **" +:+ type i +:+ "** (Line " +:+ format_line (line i) +:+ ", "
  +:+ severity i +:+ "): " +:+ message i +:+ nl.

Definition issues_header : string := nl +:+ nl +:+ "## Issues Found" +:+ nl +:+ nl.

Definition generate_review (issues : loc) (template_type : string) : M string :=
  template <- load_template template_type ;;
  if String.eqb template "" then ret "No template found"
  else
    (* Add issue details to the review *)
    let review := template +:+ issues_header in
    d <- deref issues ;;
    match d !! template_type with
    | Some (i :: rest) =>
        ret (fold_left (fun review issue => review +:+ issue_line issue)
                       (i :: rest) review)
    | _ => ret (review +:+ "No issues found for this category." +:+ nl)
    end.

End CodeReviewAssistant.

(** ** What one analysis computes

    The findings of each detector as lists, and the dictionary an analysis of
    [code] builds.  [analyze_file_readable] below shows that the methods
    compute exactly these. *)

Definition has_nested_for (n : node) : bool :=
  existsb (fun '(p, child) => isinstance child For && is_not_root p) (walk n).

Definition naming_issue (n : node) : option issue :=
  if isinstance n FunctionDef then
    if negb (re_match no_flags snake_case_pattern (chars (node_name n)))
    then Some (function_name_issue n) else None
  else if isinstance n ClassDef then
    if negb (re_match no_flags pascal_case_pattern (chars (node_name n)))
    then Some (class_name_issue n) else None
  else None.

Definition nested_issue (n : node) : option issue :=
  if isinstance n For && has_nested_for n then Some (nested_loops_issue n) else None.

Section Findings.

Variable ast_parse : string -> parse_result.

Definition commented_code_findings (code : string) : list issue :=
  map (fun m => commented_code_issue (line_number code (m_start m)))
      (finditer MULTILINE commented_code_pattern (chars code)).

Definition credentials_findings (code : string) : list issue :=
  map (fun m => credentials_issue (line_number code (m_start m)))
      (finditer IGNORECASE password_pattern (chars code)).

Definition sql_findings (code : string) : list issue :=
  map (fun m => sql_injection_issue (line_number code (m_start m)))
      (finditer IGNORECASE sql_pattern (chars code)).

Definition naming_findings (tree : node) : list issue :=
  omap (fun e => naming_issue (snd e)) (walk tree).

Definition nested_loop_findings (tree : node) : list issue :=
  omap (fun e => nested_issue (snd e)) (walk tree).

Definition general_findings (code : string) : list issue :=
  commented_code_findings code
  ++ match ast_parse code with
     | Parsed tree => naming_findings tree
     | ParseError e => [syntax_error_issue e]
     end.

Definition security_findings (code : string) : list issue :=
  credentials_findings code ++ sql_findings code.

Definition performance_findings (code : string) : list issue :=
  match ast_parse code with
  | Parsed tree => nested_loop_findings tree
  | ParseError _ => []
  end.

Definition analysis (code : string) : results :=
  <["general" := general_findings code]>
    (<["security" := security_findings code]>
       (<["performance" := performance_findings code]> ∅)).

End Findings.

(** ** The dictionary under [self.issues_found] *)

Definition points_to (st : state) (d : results) : Prop :=
  heap st !! issues_found st = Some d.

(** The state in which the dictionary under [self.issues_found] is [d]. *)
Definition with_dict (d : results) (st : state) : state :=
  set_heap (<[issues_found st := d]> (heap st)) st.

(** ** What a pattern matches

    [lang fl r prev u rest]: the text [u], preceded by the character [prev]
    and followed by [rest], is matched by [r]. *)

Definition last_char (prev : option char) (u : text) : option char :=
  match last u with Some c => Some c | None => prev end.

Fixpoint lang (fl : flags) (r : regex) (prev : option char) (u rest : text) : Prop :=
  match r with
  | REmpty => u = []
  | RChar a => exists c, u = [c] /\ atom_matches fl a c = true
  | RBol => u = [] /\ at_bol fl prev = true
  | REol => u = [] /\ at_eol fl rest = true
  | RWordB => u = [] /\ xorb (prev_is_word prev) (next_is_word rest) = true
  | RSeq r1 r2 =>
      exists u1 u2, u = u1 ++ u2
        /\ lang fl r1 prev u1 (u2 ++ rest)
        /\ lang fl r2 (last_char prev u1) u2 rest
  | RAlt r1 r2 => lang fl r1 prev u rest \/ lang fl r2 prev u rest
  | RStar _ a => Forall (fun c => atom_matches fl a c = true) u
  | RPlus _ a => u <> [] /\ Forall (fun c => atom_matches fl a c = true) u
  | RGroup r1 => lang fl r1 prev u rest
  end.

(** The character before position [i] of [s], when [prev] comes before
    [s]. *)
Definition char_before (prev : option char) (s : text) (i : nat) : option char :=
  last_char prev (take i s).

(** [m1] starts before [m2] and ends where [m2] starts, or earlier. *)
Definition match_before (m1 m2 : match_obj) : Prop :=
  m_start m1 < m_start m2 /\ m_end m1 <= m_start m2.

(** [s[a:b]] *)
Definition slice (s : text) (a b : nat) : text := take (b - a) (drop a s).

(** ** The shapes of the texts the credentials and SQL patterns match *)

(** The code points that stand for an ASCII letter under [IGNORECASE]. *)
Definition is_alpha (c : char) : bool := is_lower (fold c).

(** [u] is [w] up to the case of its letters, as [re.IGNORECASE] has it:
    character by character, [u] and [w] stand for the same letters. *)
Definition same_ignoring_case (u : text) (w : string) : Prop :=
  map fold u = map fold (chars w).

(** One of the words of a list, up to case. *)
Definition one_of_ignoring_case (ws : list string) (u : text) : Prop :=
  exists w, w ∈ ws /\ same_ignoring_case u w.

Definition is_quote (q : char) : Prop := q = chr_squote \/ q = chr_dquote.

Definition all_space (u : text) : Prop := Forall (fun c => is_space c = true) u.

(** A quoted literal: a quote, at least one character other than that
    quote, and the same quote again. *)
Definition quoted_literal (u : text) : Prop :=
  exists q body, u = q :: body ++ [q] /\ is_quote q /\ body <> [] /\ q ∉ body.

(** One of the credential words up to case, optional white space (any
    characters of the class [\s]), an equals sign, optional white space, and
    a non-empty quoted literal. *)
Definition credential_assignment (u : text) : Prop :=
  exists w ws1 ws2 lit_text,
    u = w ++ ws1 ++ cp "=" :: ws2 ++ lit_text
    /\ one_of_ignoring_case credential_words w
    /\ all_space ws1 /\ all_space ws2
    /\ quoted_literal lit_text.

(** The letter f in either case, a quote, optional white space, an SQL
    keyword up to case, any characters on the same line, and an opening
    brace. *)
Definition sql_interpolation (u : text) : Prop :=
  exists f q ws kw mid,
    u = f :: q :: ws ++ kw ++ mid ++ [cp "{"]
    /\ (f = cp "f" \/ f = cp "F")
    /\ is_quote q
    /\ all_space ws
    /\ one_of_ignoring_case sql_keywords kw
    /\ chr_newline ∉ mid.

(** The spaces, the keyword and the stretch up to the brace as before, and
    the brace is the first one after the keyword. *)
Definition sql_first_brace (u : text) : Prop :=
  exists f q ws kw mid,
    u = f :: q :: ws ++ kw ++ mid ++ [cp "{"]
    /\ (f = cp "f" \/ f = cp "F")
    /\ is_quote q
    /\ all_space ws
    /\ one_of_ignoring_case sql_keywords kw
    /\ (chr_newline ∉ mid)
    /\ (cp "{" ∉ mid).

(** ** A scan from left to right

    [leftmost_scan hit n from ms]: reading the positions [from], [from + 1],
    ..., [n], the matches [ms] are found, where [hit i e] says that an
    attempt at [i] succeeds and ends at [e].  The first position with a hit
    gives the first match; the scan resumes at its end; no position is left
    out and none is read twice. *)
Inductive leftmost_scan (hit : nat -> nat -> Prop) (n : nat)
    : nat -> list match_obj -> Prop :=
| scan_end from :
    (forall i e, from <= i <= n -> ~ hit i e) ->
    leftmost_scan hit n from []
| scan_hit from i e ms :
    from <= i <= n ->
    hit i e ->
    i < e ->
    (forall j e', from <= j < i -> ~ hit j e') ->
    leftmost_scan hit n e ms ->
    leftmost_scan hit n from (mkMatch i e :: ms).

(** No word of the list is the beginning of another one. *)
Definition prefix_free (ws : list text) : bool :=
  forallb (fun a =>
    forallb (fun b => text_eqb a b || negb (text_eqb a (take (length a) b))) ws) ws.

(** ** The nodes of a tree

    [subtree p n] lists, in depth-first order, every node of the tree under
    [n] with its position ([p] is the position of [n] itself);
    [descendants n] lists the nodes strictly below [n]. *)

Fixpoint subtree (p : path) (n : node) {struct n} : list (path * node) :=
  (p, n) :: match n with
            | Node _ _ _ cs =>
                (fix below (i : nat) (cs : list node) {struct cs} :=
                   match cs with
                   | [] => []
                   | c :: cs' => subtree (p ++ [i]) c ++ below (S i) cs'
                   end) 0 cs
            end.

Fixpoint descendants (n : node) : list node :=
  match n with
  | Node _ _ _ cs => concat (map (fun c => c :: descendants c) cs)
  end.

Definition forest (q : list (path * node)) : list (path * node) :=
  concat (map (fun e => subtree (fst e) (snd e)) q).

Definition total_size (q : list (path * node)) : nat :=
  list_sum (map (fun e => node_size (snd e)) q).

(** ** Sample inputs *)

Definition dq : string := String "034"%char "".

(** A file system that holds one file. *)
Definition fs_single (path content : string) : string -> file :=
  fun p => if String.eqb p path then File content else Missing.

(** A parser that answers with a given tree, and one that rejects every
    text. *)
Definition parse_as (tree : node) : string -> parse_result := fun _ => Parsed tree.
Definition parse_fails (e : SyntaxError) : string -> parse_result :=
  fun _ => ParseError e.

(** [password = DQ admin123 DQ], with DQ the double quote. *)
Definition admin_py : string := "password = " +:+ dq +:+ "admin123" +:+ dq.

(** [monkey = DQ banana DQ] *)
Definition monkey_py : string := "monkey = " +:+ dq +:+ "banana" +:+ dq.

(** [password = DQ DQ] *)
Definition empty_password_py : string := "password = " +:+ dq +:+ dq.

(** [q = f DQ SELECT 1 DQ ; opts = {}] *)
Definition closed_literal_py : string :=
  "q = f" +:+ dq +:+ "SELECT 1" +:+ dq +:+ "; opts = {}".

(** [def f(:] *)
Definition broken_py : string := "# def old():" +:+ nl +:+ "def f(:" +:+ nl.

Definition broken_error : SyntaxError :=
  mkSyntaxError "invalid syntax (<unknown>, line 2)" (Some 2).

Definition is_syntax_error (i : issue) : bool := String.eqb (type i) "syntax_error".

(** ** The renderer *)

(** The lines of a non-empty bucket, one after the other. *)
Definition issue_lines (bucket : list issue) : string :=
  fold_right (fun i s => issue_line i +:+ s) "" bucket.

(** What follows the header: the lines of the bucket, or the fixed line when
    the category is absent from the results or its bucket is empty. *)
Definition review_body (bucket : option (list issue)) : string :=
  match bucket with
  | Some (i :: rest) => issue_lines (i :: rest)
  | _ => "No issues found for this category." +:+ nl
  end.

(** The renderer as the specification words it: the fallback string exactly when the
    provider signals not-found, and otherwise the template, the header and
    one line per finding. *)
Definition spec_render (template : option string) (bucket : list issue) : string :=
  match template with
  | None => "No template found"
  | Some t => t +:+ issues_header +:+ issue_lines bucket
  end.

Definition empty_template_fs : string -> file :=
  fs_single "review_templates/security.md" "".

Definition one_finding_state : state :=
  mkState [<["security" := [credentials_issue 1]]> empty_results]
          "review_templates" 0 [].

Definition security_template_fs : string -> file :=
  fs_single "review_templates/security.md" "# Security review".

(** ** The nested-loop detector *)

Definition has_for_descendant (n : node) : bool :=
  existsb (fun c => isinstance c For) (descendants n).

(** A loop node, in the words of the specification: any of Python's loop
    statements. *)
Definition spec_is_loop (n : node) : bool :=
  isinstance n For || isinstance n AsyncFor || isinstance n While.

(** The detector as the specification words it: one finding for every loop node with
    a loop node among its descendants. *)
Definition spec_nested_loop_findings (tree : node) : list issue :=
  map (fun e => nested_loops_issue (snd e))
      (List.filter (fun e => spec_is_loop (snd e)
                             && existsb spec_is_loop (descendants (snd e)))
                   (walk tree)).

(** The text
      [for i in items:]
      [    while i:]
      [        i -= 1]
    and its tree: a [Module] with a [For] on line 1 whose children are the
    target and the iterable (two [Name]s with their contexts) and a [While]
    on line 2, which holds its test and an [AugAssign]. *)
Definition for_while_py : string :=
  "for i in items:" +:+ nl +:+ "    while i:" +:+ nl +:+ "        i -= 1" +:+ nl.

Definition for_while_tree : node :=
  Node Module "" 0
    [Node For "" 1
       [Node OtherNode "" 1 [Node OtherNode "" 0 []];
        Node OtherNode "" 1 [Node OtherNode "" 0 []];
        Node While "" 2
          [Node OtherNode "" 2 [Node OtherNode "" 0 []];
           Node OtherNode "" 3
             [Node OtherNode "" 3 [Node OtherNode "" 0 []];
              Node OtherNode "" 0 [];
              Node OtherNode "" 3 []]]]].

(** Two [for] loops, one inside the other, on lines 1 and 2. *)
Definition nested_for_py : string :=
  "for i in a:" +:+ nl +:+ "    for j in b:" +:+ nl +:+ "        pass" +:+ nl.

Definition nested_for_tree : node :=
  Node Module "" 0
    [Node For "" 1
       [Node OtherNode "" 1 [Node OtherNode "" 0 []];
        Node OtherNode "" 1 [Node OtherNode "" 0 []];
        Node For "" 2
          [Node OtherNode "" 2 [Node OtherNode "" 0 []];
           Node OtherNode "" 2 [Node OtherNode "" 0 []];
           Node OtherNode "" 3 []]]].

(** ** The credentials detector *)

(** The identifiers of a text: its maximal runs of word characters. *)
Fixpoint spec_identifiers_from (cur : text) (s : text) : list text :=
  match s with
  | [] => match cur with [] => [] | _ => [cur] end
  | c :: s' =>
      if is_word c then spec_identifiers_from (cur ++ [c]) s'
      else match cur with [] => [] | _ => [cur] end ++ spec_identifiers_from [] s'
  end.

Definition spec_identifiers (s : text) : list text := spec_identifiers_from [] s.

(** An identifier drawn from the credential words, up to case. *)
Definition spec_is_credential_word (id : text) : bool :=
  existsb (fun w => text_eqb (map fold id) (chars w)) credential_words.

(** ** The SQL-injection detector *)

(** In the words of the specification: inside a literal opened by the quote [q], an
    opening brace occurs before the literal closes at the next [q]. *)
Fixpoint spec_brace_before_close (q : char) (s : text) : bool :=
  match s with
  | [] => false
  | c :: s' =>
      if N.eqb c (cp "{") then true
      else if N.eqb c q then false
      else spec_brace_before_close q s'
  end.

(** ** Line numbers *)

(** The text-pattern detectors: the type of their findings and their
    pattern. *)
Definition text_detectors : list (string * (flags * regex)) :=
  [("commented_code", (MULTILINE, commented_code_pattern));
   ("hardcoded_credentials", (IGNORECASE, password_pattern));
   ("sql_injection", (IGNORECASE, sql_pattern))].

(** [x = 1], a blank line, and [password = DQ admin123 DQ] on line 3, and
    the tree of this text: two assignments, each with its target (a name
    with its context) and its value. *)
Definition third_line_py : string := "x = 1" +:+ nl +:+ nl +:+ admin_py.

Definition third_line_tree : node :=
  Node Module "" 0
    [Node OtherNode "" 1
       [Node OtherNode "" 1 [Node OtherNode "" 0 []];
        Node OtherNode "" 1 []];
     Node OtherNode "" 3
       [Node OtherNode "" 3 [Node OtherNode "" 0 []];
        Node OtherNode "" 3 []]].

(** ** The commented-code and naming patterns *)

Definition commented_keywords : list string :=
  ["def"; "class"; "if"; "for"; "while"; "return"].

(** At the start of a line: optional white space, a hash, optional white
    space and one of the six keywords as written, with no word character
    after it. *)
Definition commented_code_line (prev : option char) (u rest : text) : Prop :=
  at_bol MULTILINE prev = true
  /\ exists ws1 ws2 kw,
       u = ws1 ++ cp "#" :: ws2 ++ chars kw
       /\ all_space ws1 /\ all_space ws2
       /\ kw ∈ commented_keywords
       /\ next_is_word rest = false.

Definition is_snake_char (c : char) : bool :=
  is_lower c || is_digit c || N.eqb c (cp "_").

Definition is_pascal_char (c : char) : bool :=
  is_lower c || is_upper c || is_digit c.

(** A first character of one kind and then characters of another. *)
Definition head_then (first others : char -> bool) (s : text) : bool :=
  match s with
  | c :: body => first c && forallb others body
  | [] => false
  end.

(** A text with one final newline removed, if it has one. *)
Definition without_final_newline (s u : text) : Prop :=
  s = u \/ s = u ++ [chr_newline].

(** The three text detectors share one loop: every match becomes a finding
    with the line of its start. *)
Definition text_findings (mk : nat -> issue) (fl : flags) (r : regex)
    (code : string) : list issue :=
  map (fun m => mk (line_number code (m_start m))) (finditer fl r (chars code)).


(** The text
      [# def old():]
      [class my_class:]
      [    def BadName(self):]
      [        pass]
      [(blank)]
      [async def AlsoBad():]
      [    pass]
      [(blank)]
      [def good_name():]
      [    pass]
    and its tree: the class on line 2 holds the method on line 3; a
    function holds its [arguments] (which have no line) and its body. *)
Definition naming_py : string :=
  "# def old():" +:+ nl +:+ "class my_class:" +:+ nl
  +:+ "    def BadName(self):" +:+ nl +:+ "        pass" +:+ nl +:+ nl
  +:+ "async def AlsoBad():" +:+ nl +:+ "    pass" +:+ nl +:+ nl
  +:+ "def good_name():" +:+ nl +:+ "    pass" +:+ nl.

Definition naming_tree : node :=
  Node Module "" 0
    [Node ClassDef "my_class" 2
       [Node FunctionDef "BadName" 3
          [Node OtherNode "" 0 [Node OtherNode "" 3 []];
           Node OtherNode "" 4 []]];
     Node AsyncFunctionDef "AlsoBad" 6
       [Node OtherNode "" 0 [];
        Node OtherNode "" 7 []];
     Node FunctionDef "good_name" 9
       [Node OtherNode "" 0 [];
        Node OtherNode "" 10 []]].

(** ** The kinds of finding *)

(** The type and severity of the findings each bucket can hold. *)
Definition finding_kinds : list (string * (string * string)) :=
  [("general", ("commented_code", "minor"));
   ("general", ("naming_convention", "minor"));
   ("general", ("syntax_error", "critical"));
   ("security", ("hardcoded_credentials", "critical"));
   ("security", ("sql_injection", "critical"));
   ("performance", ("nested_loops", "moderate"))].

(** ** The command line *)

(** How a run of the script ends: it returns, [sys.exit] is called, or an
    exception reaches the top. *)
Inductive run_result :=
| Finished
| Exited (status : nat)
| Uncaught (e : exn).

(** The state of the process before any assistant exists. *)
Definition start : state := mkState [] "" 0 [].

(** [CodeReviewAssistant(template_dir)]: the constructor stores the directory
    and a new dictionary with the three empty buckets. *)
Definition construct (dir : string) : M unit := fun st =>
  (Ret tt, mkState (heap st ++ [empty_results]) dir (length (heap st)) (stdout st)).

(** [s.upper()] *)
Definition str_upper (s : string) : string :=
  string_of_list_ascii
    (map (fun a => ascii_of_N (upper (cp a))) (list_ascii_of_string s)).

(** ['=' * 50] *)
Definition rule50 : string := string_of_list_ascii (repeat "="%char 50).

(** The banner [main] prints before each review. *)
Definition banner (template_type : string) : string :=
  nl +:+ rule50 +:+ nl +:+ str_upper template_type +:+ " REVIEW" +:+ nl
  +:+ rule50 +:+ nl.

Definition usage : string := "Usage: python review_logic.py <file_to_review>".

Section Main.

Variable fs : string -> file.
Variable ast_parse : string -> parse_result.

(** The body of [main] after the test of [sys.argv]. *)
Definition review_file (file_path : string) : M unit :=
  construct "review_templates" ;;;
  issues <- analyze_file fs ast_parse file_path ;;
  (* Generate reviews *)
  for_each ["general"; "security"; "performance"] (fun template_type =>
    review <- generate_review fs issues template_type ;;
    print (banner template_type) ;;;
    print review).

(** [main()], with [sys.argv] as argument. *)
Definition main (argv : list string) (st : state) : run_result * state :=
  if Nat.ltb (length argv) 2 then
    (Exited 1, snd (print usage st))
  else
    (* sys.argv[1] exists here *)
    let file_path := default "" (argv !! 1) in
    match review_file file_path st with
    | (Ret _, st') => (Finished, st')
    | (Raise e, st') => (Uncaught e, st')
    end.

(** What one turn of the loop of [main] adds to the output for the results
    [d]: the complaint about a missing template, the banner, the review. *)
Definition template_path (dir template_type : string) : string :=
  os_path_join dir (template_type +:+ ".md").

Definition review_text (dir template_type : string) (d : results) : string :=
  match fs (template_path dir template_type) with
  | File template =>
      if String.eqb template "" then "No template found"
      else template +:+ issues_header +:+ review_body (d !! template_type)
  | _ => "No template found"
  end.

Definition template_complaint (dir template_type : string) : list string :=
  match fs (template_path dir template_type) with
  | Missing =>
      ["Error: Template " +:+ template_path dir template_type +:+ " not found"]
  | _ => []
  end.

Definition review_output (dir template_type : string) (d : results) : list string :=
  template_complaint dir template_type
  ++ [banner template_type; review_text dir template_type d].

End Main.

(** The state after some more lines were printed. *)
Definition add_stdout (printed : list string) (st : state) : state :=
  mkState (heap st) (template_dir st) (issues_found st) (stdout st ++ printed).

(** The template types that [main] goes through, in its order. *)
Definition review_types : list string := ["general"; "security"; "performance"].

(** A file system with the sample file [app.py] and the three templates. *)
Definition project_fs : string -> file := fun p =>
  if String.eqb p "app.py" then File third_line_py
  else if String.eqb p "review_templates/general.md" then File "# General"
  else if String.eqb p "review_templates/security.md" then File "# Security"
  else if String.eqb p "review_templates/performance.md" then File "# Performance"
  else Missing.

(** * Proofs *)

(** ** The state monad and the loops of the analyzers *)

Lemma with_dict_id st d : points_to st d -> with_dict d st = st.
Proof.
  unfold points_to, with_dict, set_heap. intros H.
  rewrite list_insert_id by exact H. now destruct st.
Qed.

Lemma with_dict_twice st d1 d2 : with_dict d2 (with_dict d1 st) = with_dict d2 st.
Proof.
  unfold with_dict, set_heap. cbn. now rewrite list_insert_insert_eq.
Qed.

Lemma points_to_with_dict st d0 d : points_to st d0 -> points_to (with_dict d st) d.
Proof.
  unfold points_to, with_dict, set_heap. cbn. intros H.
  apply list_lookup_insert_eq. eapply lookup_lt_Some, H.
Qed.

Lemma append_issue_spec st d l category i :
  points_to st d -> d !! category = Some l ->
  append_issue category i st
  = (Ret tt, with_dict (<[category := l ++ [i]]> d) st).
Proof.
  unfold points_to, append_issue, with_dict. intros -> ->. reflexivity.
Qed.

Lemma for_each_ext {A} (xs : list A) (f g : A -> M unit) :
  (forall x, f x = g x) -> for_each xs f = for_each xs g.
Proof.
  intros E. induction xs as [|x xs IH]; cbn; [reflexivity|].
  now rewrite E, IH.
Qed.

(** A loop whose body appends at most one issue to one bucket appends, in
    order, the issues its body selects. *)
Lemma for_each_append {A} (sel : A -> option issue) category (xs : list A) :
  forall st d l,
    points_to st d -> d !! category = Some l ->
    for_each xs (fun x => match sel x with
                          | Some i => append_issue category i
                          | None => ret tt
                          end) st
    = (Ret tt, with_dict (<[category := l ++ omap sel xs]> d) st).
Proof.
  induction xs as [|x xs IH]; intros st d l Hp Hl; cbn [for_each omap].
  - rewrite app_nil_r, insert_id by exact Hl.
    now rewrite with_dict_id.
  - unfold bind at 1. cbn [list_omap]. destruct (sel x) as [i|].
    + rewrite (append_issue_spec _ _ _ _ _ Hp Hl).
      rewrite (IH _ (<[category := l ++ [i]]> d) (l ++ [i])).
      * rewrite with_dict_twice, insert_insert_eq.
        now rewrite <- app_assoc.
      * eapply points_to_with_dict, Hp.
      * apply lookup_insert_eq.
    + unfold ret at 1. now apply IH.
Qed.

Lemma for_each_append_all {A} (f : A -> issue) category (xs : list A) st d l :
  points_to st d -> d !! category = Some l ->
  for_each xs (fun x => append_issue category (f x)) st
  = (Ret tt, with_dict (<[category := l ++ map f xs]> d) st).
Proof.
  intros Hp Hl.
  assert (E : omap (fun x => Some (f x)) xs = map f xs).
  { induction xs as [|x xs IH]; cbn; [reflexivity|]. now rewrite IH. }
  rewrite <- E.
  exact (for_each_append (fun x => Some (f x)) category xs st d l Hp Hl).
Qed.

Lemma nested_for_scan_spec nd (children : list (path * node)) :
  nested_for_scan nd children
  = if existsb (fun '(p, child) => isinstance child For && is_not_root p) children
    then append_issue "performance" (nested_loops_issue nd)
    else ret tt.
Proof.
  induction children as [|[p child] rest IH]; cbn; [reflexivity|].
  destruct (isinstance child For && is_not_root p); [reflexivity | exact IH].
Qed.

(** ** The analyzers *)

Section Analyzers.

Variable fs : string -> file.
Variable ast_parse : string -> parse_result.

Lemma analyze_general_spec code file_path st d l :
  points_to st d -> d !! "general" = Some l ->
  _analyze_general_issues ast_parse code file_path st
  = (Ret tt, with_dict (<["general" := l ++ general_findings ast_parse code]> d) st).
Proof.
  intros Hp Hl. unfold _analyze_general_issues, general_findings, bind.
  rewrite (for_each_append_all _ _ _ _ _ _ Hp Hl).
  fold (commented_code_findings code).
  set (d1 := <["general" := l ++ commented_code_findings code]> d).
  assert (Hp1 : points_to (with_dict d1 st) d1) by (eapply points_to_with_dict, Hp).
  assert (Hl1 : d1 !! "general" = Some (l ++ commented_code_findings code))
    by apply lookup_insert_eq.
  destruct (ast_parse code) as [tree|e].
  - rewrite (for_each_ext _ _ (fun e => match naming_issue (snd e) with
                                        | Some i => append_issue "general" i
                                        | None => ret tt
                                        end)).
    + rewrite (for_each_append _ _ _ _ _ _ Hp1 Hl1).
      unfold d1. rewrite with_dict_twice, insert_insert_eq.
      now rewrite <- app_assoc.
    + intros [p n]. unfold naming_issue. cbn [snd].
      destruct (isinstance n FunctionDef).
      * now destruct (negb _).
      * destruct (isinstance n ClassDef); [now destruct (negb _) | reflexivity].
  - rewrite (append_issue_spec _ _ _ _ _ Hp1 Hl1).
    unfold d1. rewrite with_dict_twice, insert_insert_eq.
    now rewrite <- app_assoc.
Qed.

Lemma analyze_security_spec code file_path st d l :
  points_to st d -> d !! "security" = Some l ->
  _analyze_security_issues code file_path st
  = (Ret tt, with_dict (<["security" := l ++ security_findings code]> d) st).
Proof.
  intros Hp Hl. unfold _analyze_security_issues, security_findings, bind.
  rewrite (for_each_append_all _ _ _ _ _ _ Hp Hl).
  fold (credentials_findings code).
  set (d1 := <["security" := l ++ credentials_findings code]> d).
  assert (Hp1 : points_to (with_dict d1 st) d1) by (eapply points_to_with_dict, Hp).
  assert (Hl1 : d1 !! "security" = Some (l ++ credentials_findings code))
    by apply lookup_insert_eq.
  rewrite (for_each_append_all _ _ _ _ _ _ Hp1 Hl1).
  fold (sql_findings code).
  unfold d1. rewrite with_dict_twice, insert_insert_eq.
  now rewrite <- app_assoc.
Qed.

Lemma analyze_performance_spec code file_path st d l :
  points_to st d -> d !! "performance" = Some l ->
  _analyze_performance_issues ast_parse code file_path st
  = (Ret tt,
     with_dict (<["performance" := l ++ performance_findings ast_parse code]> d) st).
Proof.
  intros Hp Hl. unfold _analyze_performance_issues, performance_findings.
  destruct (ast_parse code) as [tree|e].
  - rewrite (for_each_ext _ _ (fun e => match nested_issue (snd e) with
                                        | Some i => append_issue "performance" i
                                        | None => ret tt
                                        end)).
    + exact (for_each_append _ _ _ _ _ _ Hp Hl).
    + intros [p n]. unfold nested_issue, has_nested_for. cbn [snd].
      rewrite nested_for_scan_spec.
      destruct (isinstance n For); [|reflexivity].
      now destruct (existsb _ _).
  - unfold ret. rewrite app_nil_r, insert_id by exact Hl.
    now rewrite with_dict_id.
Qed.

(** A readable file: a new dictionary is allocated, filled with the
    findings of the three analyzers and returned; nothing else changes. *)
Lemma analyze_file_readable file_path code st :
  fs file_path = File code ->
  analyze_file fs ast_parse file_path st
  = (Ret (length (heap st)),
     mkState (heap st ++ [analysis ast_parse code]) (template_dir st)
             (length (heap st)) (stdout st)).
Proof.
  intros Hf. unfold analyze_file. rewrite Hf.
  unfold bind at 1. unfold assign_issues_found.
  set (st1 := mkState (heap st ++ [empty_results]) (template_dir st)
                      (length (heap st)) (stdout st)).
  assert (Hp1 : points_to st1 empty_results).
  { unfold points_to, st1. cbn. apply list_lookup_middle. reflexivity. }
  unfold bind at 1.
  rewrite (analyze_general_spec _ _ _ _ [] Hp1) by reflexivity.
  set (d2 := <["general" := _]> empty_results).
  assert (Hp2 : points_to (with_dict d2 st1) d2) by (eapply points_to_with_dict, Hp1).
  unfold bind at 1.
  rewrite (analyze_security_spec _ _ _ _ [] Hp2) by reflexivity.
  rewrite with_dict_twice.
  set (d3 := <["security" := _]> d2).
  assert (Hp3 : points_to (with_dict d3 st1) d3) by (eapply points_to_with_dict, Hp1).
  unfold bind at 1.
  rewrite (analyze_performance_spec _ _ _ _ [] Hp3) by reflexivity.
  rewrite with_dict_twice.
  unfold get_issues_found, with_dict, set_heap, st1. cbn.
  f_equal. f_equal.
  rewrite insert_app_r_alt by lia.
  rewrite Nat.sub_diag.
  (* the two dictionaries have the same three keys: they are convertible *)
  reflexivity.
Qed.

(** A missing file: the error is printed and whatever dictionary
    [self.issues_found] referred to before the call is returned. *)
Lemma analyze_file_missing file_path st :
  fs file_path = Missing ->
  analyze_file fs ast_parse file_path st
  = (Ret (issues_found st),
     mkState (heap st) (template_dir st) (issues_found st)
             (stdout st ++ ["Error: File " +:+ file_path +:+ " not found"])).
Proof.
  intros Hf. unfold analyze_file. now rewrite Hf.
Qed.

End Analyzers.

(** ** The matcher *)

Lemma last_char_nil prev : last_char prev [] = prev.
Proof. reflexivity. Qed.

Lemma last_char_cons prev c u : last_char prev (c :: u) = last_char (Some c) u.
Proof.
  unfold last_char. destruct u as [|d u]; [reflexivity|].
  cbn [last]. destruct (last (d :: u)) eqn:E; [reflexivity|].
  now apply last_None in E.
Qed.

Lemma last_char_app prev u v :
  last_char prev (u ++ v) = last_char (last_char prev u) v.
Proof.
  revert prev. induction u as [|c u IH]; intros prev; [reflexivity|].
  cbn [app]. now rewrite !last_char_cons, IH.
Qed.

(** *** The matcher finds only matches *)

Lemma star_greedy_sound p k : forall s prev pos e,
  star_greedy p k prev s pos = Some e ->
  exists u rest, s = u ++ rest /\ Forall (fun c => p c = true) u
    /\ k (last_char prev u) rest (pos + length u) = Some e.
Proof.
  induction s as [|c s IH]; intros prev pos e H; cbn in H.
  - exists [], []. cbn. rewrite Nat.add_0_r. auto.
  - assert (Hk : k prev (c :: s) pos = Some e ->
                 exists u rest, c :: s = u ++ rest /\ Forall (fun c => p c = true) u
                   /\ k (last_char prev u) rest (pos + length u) = Some e).
    { intros Hk. exists [], (c :: s). cbn. rewrite Nat.add_0_r. auto. }
    destruct (p c) eqn:Hc; [|auto].
    destruct (star_greedy p k (Some c) s (S pos)) as [e'|] eqn:Hs; cbn in H; [|auto].
    injection H as ->.
    destruct (IH _ _ _ Hs) as (u & rest & -> & Hu & Hk').
    exists (c :: u), rest. rewrite last_char_cons. cbn.
    rewrite <- Nat.add_succ_comm. auto.
Qed.

Lemma star_lazy_sound p k : forall s prev pos e,
  star_lazy p k prev s pos = Some e ->
  exists u rest, s = u ++ rest /\ Forall (fun c => p c = true) u
    /\ k (last_char prev u) rest (pos + length u) = Some e.
Proof.
  induction s as [|c s IH]; intros prev pos e H; cbn in H.
  - destruct (k prev [] pos) eqn:Hk; [|discriminate].
    exists [], []. cbn. rewrite Nat.add_0_r. injection H as ->. auto.
  - destruct (k prev (c :: s) pos) eqn:Hk.
    + exists [], (c :: s). cbn. rewrite Nat.add_0_r. injection H as ->. auto.
    + destruct (p c) eqn:Hc; [|discriminate].
      destruct (IH _ _ _ H) as (u & rest & -> & Hu & Hk').
      exists (c :: u), rest. rewrite last_char_cons. cbn.
      rewrite <- Nat.add_succ_comm. auto.
Qed.

Lemma star_sound g p k s prev pos e :
  star g p k prev s pos = Some e ->
  exists u rest, s = u ++ rest /\ Forall (fun c => p c = true) u
    /\ k (last_char prev u) rest (pos + length u) = Some e.
Proof. destruct g; [apply star_greedy_sound | apply star_lazy_sound]. Qed.

Lemma or_else_Some a b e : or_else a b = Some e -> a = Some e \/ b = Some e.
Proof. destruct a; cbn; auto. Qed.

Lemma rmatch_sound fl r : forall k prev s pos e,
  rmatch fl r k prev s pos = Some e ->
  exists u rest, s = u ++ rest /\ lang fl r prev u rest
    /\ k (last_char prev u) rest (pos + length u) = Some e.
Proof.
  induction r as [|a| | | |r1 IH1 r2 IH2|r1 IH1 r2 IH2|g a|g a|r1 IH1];
    intros k prev s pos e H; cbn [rmatch] in H.
  - exists [], s. cbn. rewrite Nat.add_0_r. auto.
  - destruct s as [|c s]; [discriminate|].
    destruct (atom_matches fl a c) eqn:Hc; [|discriminate].
    exists [c], s. cbn. rewrite Nat.add_1_r. eauto.
  - destruct (at_bol fl prev) eqn:Hb; [|discriminate].
    exists [], s. cbn. rewrite Nat.add_0_r. auto.
  - destruct (at_eol fl s) eqn:Hb; [|discriminate].
    exists [], s. cbn. rewrite Nat.add_0_r. auto.
  - destruct (xorb _ _) eqn:Hb; [|discriminate].
    exists [], s. cbn. rewrite Nat.add_0_r. auto.
  - destruct (IH1 _ _ _ _ _ H) as (u1 & rest1 & -> & L1 & H2).
    destruct (IH2 _ _ _ _ _ H2) as (u2 & rest & -> & L2 & Hk).
    exists (u1 ++ u2), rest. rewrite <- app_assoc, last_char_app, length_app.
    rewrite Nat.add_assoc. cbn. eauto 8.
  - destruct (or_else_Some _ _ _ H) as [H1|H1].
    + destruct (IH1 _ _ _ _ _ H1) as (u & rest & -> & L & Hk).
      exists u, rest. cbn. auto.
    + destruct (IH2 _ _ _ _ _ H1) as (u & rest & -> & L & Hk).
      exists u, rest. cbn. auto.
  - destruct (star_sound _ _ _ _ _ _ _ H) as (u & rest & -> & Hu & Hk).
    exists u, rest. cbn. auto.
  - destruct s as [|c s]; [discriminate|].
    destruct (atom_matches fl a c) eqn:Hc; [|discriminate].
    destruct (star_sound _ _ _ _ _ _ _ H) as (u & rest & -> & Hu & Hk).
    exists (c :: u), rest. rewrite last_char_cons. cbn.
    rewrite <- Nat.add_succ_comm. repeat split; auto; discriminate.
  - destruct (IH1 _ _ _ _ _ H) as (u & rest & -> & L & Hk).
    exists u, rest. cbn. auto.
Qed.

(** *** The matcher misses no match

    If some split of the text is matched by [r] and accepted by the
    continuation, the matcher succeeds (possibly with another split that
    comes earlier in its search order). *)

Lemma star_greedy_complete p k : forall u rest prev pos,
  Forall (fun c => p c = true) u ->
  is_Some (k (last_char prev u) rest (pos + length u)) ->
  is_Some (star_greedy p k prev (u ++ rest) pos).
Proof.
  induction u as [|c u IH]; intros rest prev pos Hu Hk.
  - cbn in Hk. rewrite Nat.add_0_r in Hk. cbn [app].
    destruct rest as [|d rest]; cbn; [exact Hk|].
    destruct (p d); [|exact Hk].
    destruct (star_greedy p k (Some d) rest (S pos)); cbn; [eauto | exact Hk].
  - inversion Hu as [|? ? Hc Hu']; subst. cbn. rewrite Hc.
    rewrite last_char_cons in Hk. cbn in Hk. rewrite <- Nat.add_succ_comm in Hk.
    destruct (IH _ _ _ Hu' Hk) as [e He]. rewrite He. cbn. eauto.
Qed.

Lemma star_lazy_complete p k : forall u rest prev pos,
  Forall (fun c => p c = true) u ->
  is_Some (k (last_char prev u) rest (pos + length u)) ->
  is_Some (star_lazy p k prev (u ++ rest) pos).
Proof.
  induction u as [|c u IH]; intros rest prev pos Hu Hk.
  - cbn in Hk. rewrite Nat.add_0_r in Hk. destruct Hk as [e He]. cbn [app].
    destruct rest; cbn; rewrite He; eauto.
  - inversion Hu as [|? ? Hc Hu']; subst. cbn.
    destruct (k prev (c :: u ++ rest) pos); [eauto|]. rewrite Hc.
    rewrite last_char_cons in Hk. cbn in Hk. rewrite <- Nat.add_succ_comm in Hk.
    exact (IH _ _ _ Hu' Hk).
Qed.

Lemma star_complete g p k u rest prev pos :
  Forall (fun c => p c = true) u ->
  is_Some (k (last_char prev u) rest (pos + length u)) ->
  is_Some (star g p k prev (u ++ rest) pos).
Proof. destruct g; [apply star_greedy_complete | apply star_lazy_complete]. Qed.

Lemma rmatch_complete fl r : forall k prev u rest pos,
  lang fl r prev u rest ->
  is_Some (k (last_char prev u) rest (pos + length u)) ->
  is_Some (rmatch fl r k prev (u ++ rest) pos).
Proof.
  induction r as [|a| | | |r1 IH1 r2 IH2|r1 IH1 r2 IH2|g a|g a|r1 IH1];
    intros k prev u rest pos L Hk; cbn [rmatch]; cbn [lang] in L.
  - subst u. cbn in Hk. now rewrite Nat.add_0_r in Hk.
  - destruct L as (c & -> & Hc). cbn. rewrite Hc.
    cbn in Hk. now rewrite Nat.add_1_r in Hk.
  - destruct L as [-> Hb]. cbn. rewrite Hb. cbn in Hk. now rewrite Nat.add_0_r in Hk.
  - destruct L as [-> Hb]. cbn. rewrite Hb. cbn in Hk. now rewrite Nat.add_0_r in Hk.
  - destruct L as [-> Hb]. cbn. rewrite Hb. cbn in Hk. now rewrite Nat.add_0_r in Hk.
  - destruct L as (u1 & u2 & -> & L1 & L2). rewrite <- app_assoc.
    apply IH1; [exact L1|]. apply IH2; [exact L2|].
    now rewrite last_char_app, length_app, Nat.add_assoc in Hk.
  - destruct L as [L|L].
    + destruct (IH1 _ _ _ _ _ L Hk) as [e He]. rewrite He. cbn. eauto.
    + destruct (rmatch fl r1 k prev (u ++ rest) pos); cbn; [eauto|].
      exact (IH2 _ _ _ _ _ L Hk).
  - now apply star_complete.
  - destruct L as [Hne Hu]. destruct u as [|c u]; [congruence|].
    inversion Hu as [|? ? Hc Hu']; subst. cbn. rewrite Hc.
    apply star_complete; [exact Hu'|].
    rewrite last_char_cons in Hk. cbn in Hk. now rewrite <- Nat.add_succ_comm in Hk.
  - now apply IH1.
Qed.

(** One attempt succeeds exactly when the pattern matches a prefix. *)
Lemma match_here_sound fl r prev s n :
  match_here fl r prev s = Some n ->
  exists u rest, s = u ++ rest /\ length u = n /\ lang fl r prev u rest.
Proof.
  intros H. destruct (rmatch_sound _ _ _ _ _ _ _ H) as (u & rest & -> & L & Hk).
  exists u, rest. unfold accept in Hk. cbn in Hk.
  repeat split; [congruence | exact L].
Qed.

Lemma match_here_complete fl r prev u rest :
  lang fl r prev u rest -> is_Some (match_here fl r prev (u ++ rest)).
Proof.
  intros L. apply rmatch_complete; [exact L|]. unfold accept. eauto.
Qed.

(** Every match object reported is a successful attempt at its start, and
    starts outside the previous match. *)
(** *** [finditer] *)

Lemma scan_sound fl r : forall s prev pos skip m,
  m ∈ scan fl r prev s pos skip ->
  exists i len, skip <= i <= length s
    /\ m = mkMatch (pos + i) (pos + i + len)
    /\ match_here fl r (char_before prev s i) (drop i s) = Some len.
Proof.
  induction s as [|c s IH]; intros prev pos skip m Hm.
  - destruct skip as [|n]; cbn in Hm; [|now apply elem_of_nil in Hm].
    destruct (match_here fl r prev []) as [len|] eqn:E;
      [|now apply elem_of_nil in Hm].
    apply list_elem_of_singleton in Hm as ->.
    exists 0, len. rewrite Nat.add_0_r. cbn. auto.
  - assert (Hrec : forall n, m ∈ scan fl r (Some c) s (S pos) n ->
        exists i len, n <= i <= length s
          /\ m = mkMatch (pos + S i) (pos + S i + len)
          /\ match_here fl r (char_before prev (c :: s) (S i)) (drop (S i) (c :: s))
             = Some len).
    { intros n Hn. destruct (IH _ _ _ _ Hn) as (i & len & Hi & -> & Hh).
      exists i, len. unfold char_before in *. cbn [take drop].
      rewrite last_char_cons, <- !Nat.add_succ_comm. auto. }
    destruct skip as [|n]; cbn [scan] in Hm.
    + destruct (match_here fl r prev (c :: s)) as [len|] eqn:E.
      * apply elem_of_cons in Hm as [->|Hm].
        -- exists 0, len. rewrite Nat.add_0_r. cbn. split; [lia|auto].
        -- destruct (Hrec _ Hm) as (i & l & Hi & -> & Hh).
           exists (S i), l. cbn [length]. split; [lia|auto].
      * destruct (Hrec _ Hm) as (i & l & Hi & -> & Hh).
        exists (S i), l. cbn [length]. split; [lia|auto].
    + destruct (Hrec _ Hm) as (i & l & Hi & -> & Hh).
      exists (S i), l. cbn [length]. split; [lia|auto].
Qed.

(** Every position where an attempt succeeds is the start of a reported
    match, unless it lies inside one reported earlier. *)
Lemma scan_complete fl r : forall s prev pos skip i len,
  skip <= i <= length s ->
  match_here fl r (char_before prev s i) (drop i s) = Some len ->
  exists m, m ∈ scan fl r prev s pos skip
    /\ (m_start m = pos + i \/ m_start m < pos + i < m_end m).
Proof.
  induction s as [|c s IH]; intros prev pos skip i len Hi Hh.
  - cbn in Hi. assert (i = 0) as -> by lia. assert (skip = 0) as -> by lia.
    cbn in Hh. cbn. rewrite Hh. eexists. split; [apply list_elem_of_singleton; reflexivity|].
    cbn. left. lia.
  - assert (Hrec : forall n j, i = S j -> n <= j ->
        exists m, m ∈ scan fl r (Some c) s (S pos) n
          /\ (m_start m = pos + i \/ m_start m < pos + i < m_end m)).
    { intros n j -> Hn. unfold char_before in Hh. cbn [take drop] in Hh.
      rewrite last_char_cons in Hh.
      destruct (IH (Some c) (S pos) n j len) as (m & Hm & Hs);
        [cbn in Hi; lia | exact Hh |].
      exists m. rewrite <- Nat.add_succ_comm. auto. }
    destruct skip as [|n]; cbn [scan].
    + destruct (match_here fl r prev (c :: s)) as [l0|] eqn:E.
      * destruct i as [|j].
        -- eexists. split; [apply list_elem_of_here|]. cbn. left. lia.
        -- destruct (le_lt_dec (l0 - 1) j) as [Hj|Hj].
           ++ destruct (Hrec _ j eq_refl Hj) as (m & Hm & Hs).
              exists m. split; [now apply list_elem_of_further | exact Hs].
           ++ eexists. split; [apply list_elem_of_here|]. cbn. right. lia.
      * destruct i as [|j].
        -- unfold char_before in Hh. cbn in Hh. congruence.
        -- apply (Hrec 0 j eq_refl). lia.
    + destruct i as [|j]; [lia|].
      apply (Hrec n j eq_refl). lia.
Qed.

(** Matches are reported from left to right and do not overlap. *)
Lemma scan_ordered fl r : forall s prev pos skip,
  StronglySorted match_before (scan fl r prev s pos skip).
Proof.
  assert (Hlow : forall s prev pos skip m,
             m ∈ scan fl r prev s pos skip -> pos + skip <= m_start m).
  { intros s prev pos skip m Hm.
    destruct (scan_sound _ _ _ _ _ _ _ Hm) as (i & len & Hi & -> & _). cbn. lia. }
  induction s as [|c s IH]; intros prev pos skip.
  - destruct skip; cbn; [|constructor].
    destruct (match_here fl r prev []); cbn; repeat constructor.
  - destruct skip as [|n]; cbn [scan]; [|apply IH].
    destruct (match_here fl r prev (c :: s)) as [len|]; [|apply IH].
    constructor; [apply IH|].
    apply Forall_forall. intros m Hm.
    apply Hlow in Hm. unfold match_before. cbn. lia.
Qed.

Lemma finditer_ordered fl r s : StronglySorted match_before (finditer fl r s).
Proof. apply scan_ordered. Qed.

Lemma finditer_sound fl r s m :
  m ∈ finditer fl r s ->
  m_start m <= length s /\
  match_here fl r (char_before None s (m_start m)) (drop (m_start m) s)
  = Some (m_end m - m_start m).
Proof.
  intros Hm. destruct (scan_sound _ _ _ _ _ _ _ Hm) as (i & len & Hi & -> & Hh).
  cbn. split; [lia|]. rewrite Hh. f_equal. lia.
Qed.

Lemma finditer_complete fl r s i len :
  i <= length s ->
  match_here fl r (char_before None s i) (drop i s) = Some len ->
  exists m, m ∈ finditer fl r s
    /\ (m_start m = i \/ m_start m < i < m_end m).
Proof.
  intros Hi Hh.
  destruct (scan_complete fl r s None 0 0 i len) as (m & Hm & Hs);
    [lia | exact Hh |].
  exists m. auto.
Qed.

(** *** The scan as a whole *)

Lemma leftmost_scan_ext (hit1 hit2 : nat -> nat -> Prop) n :
  (forall i e, i <= n -> hit1 i e <-> hit2 i e) ->
  forall lo ms, leftmost_scan hit1 n lo ms -> leftmost_scan hit2 n lo ms.
Proof.
  intros Hext lo ms H.
  induction H as [lo Hno | lo i e ms Hi Hh Hlt Hno _ IH].
  - apply scan_end. intros i e Hi Hh. apply (Hno i e Hi). apply Hext; [lia | exact Hh].
  - apply scan_hit; try assumption.
    + apply Hext; [lia | exact Hh].
    + intros j e' Hj Hh'. apply (Hno j e' Hj). apply Hext; [lia | exact Hh'].
Qed.

(** When an attempt has at most one end, the scan has one result. *)
Lemma leftmost_scan_unique (hit : nat -> nat -> Prop) n :
  (forall i e1 e2, hit i e1 -> hit i e2 -> e1 = e2) ->
  forall lo ms1 ms2,
    leftmost_scan hit n lo ms1 -> leftmost_scan hit n lo ms2 -> ms1 = ms2.
Proof.
  intros Hfun lo ms1 ms2 H1. revert ms2.
  induction H1 as [lo Hno | lo i e ms Hi Hh Hlt Hno _ IH]; intros ms2 H2.
  - destruct H2 as [lo _ | lo i e ms Hi Hh _ _ _]; [reflexivity|].
    destruct (Hno i e Hi Hh).
  - destruct H2 as [lo Hno2 | lo i2 e2 ms2 Hi2 Hh2 _ Hno2 H2].
    + destruct (Hno2 i e Hi Hh).
    + assert (i = i2) as <-.
      { destruct (Nat.lt_trichotomy i i2) as [Hlt'|[E|Hlt']]; [|exact E|].
        - destruct (Hno2 i e); [lia | exact Hh].
        - destruct (Hno i2 e2); [lia | exact Hh2]. }
      assert (e = e2) as <- by (eapply Hfun; eassumption).
      f_equal. now apply IH.
Qed.

Lemma leftmost_scan_step (hit : nat -> nat -> Prop) n lo ms :
  (forall e, ~ hit lo e) ->
  leftmost_scan hit n (S lo) ms -> leftmost_scan hit n lo ms.
Proof.
  intros Hlo H. inversion H as [lo' Hno | lo' i e ms' Hi Hh Hlt Hno Hms]; subst.
  - apply scan_end. intros i e Hi Hh.
    destruct (Nat.eq_dec i lo) as [->|Hne]; [now apply (Hlo e)|].
    apply (Hno i e); [lia | exact Hh].
  - apply scan_hit; try assumption; [lia|].
    intros j e' Hj Hh'.
    destruct (Nat.eq_dec j lo) as [->|Hne]; [now apply (Hlo e')|].
    apply (Hno j e'); [lia | exact Hh'].
Qed.

(** [scan], started in the middle of a text: [pre] has been read, [s] is
    still to read, and the first [skip] positions of [s] lie inside the last
    match. *)
Lemma scan_leftmost fl r :
  (forall prev t len, match_here fl r prev t = Some len -> 0 < len) ->
  forall s pre skip,
    skip <= length s ->
    leftmost_scan
      (fun i e => i <= e
                  /\ match_here fl r (char_before None (pre ++ s) i) (drop i (pre ++ s))
                     = Some (e - i))
      (length (pre ++ s)) (length pre + skip)
      (scan fl r (last_char None pre) s (length pre) skip).
Proof.
  intros Hpos. induction s as [|c s IH]; intros pre skip Hskip.
  - cbn in Hskip. assert (skip = 0) as -> by lia. cbn [scan].
    rewrite app_nil_r, Nat.add_0_r.
    destruct (match_here fl r (last_char None pre) []) as [len|] eqn:E.
    { apply Hpos in E as Hl. apply match_here_sound in E as (u & rest & Eu & Hlen & _).
      destruct u; [cbn in Hlen; lia | discriminate Eu]. }
    apply scan_end. intros i e Hi [_ Hh].
    assert (i = length pre) as -> by lia.
    unfold char_before in Hh. rewrite firstn_all, drop_all in Hh. congruence.
  - assert (Hpre : pre ++ c :: s = (pre ++ [c]) ++ s) by now rewrite <- app_assoc.
    assert (Hlast : last_char None (pre ++ [c]) = Some c)
      by (now rewrite last_char_app).
    assert (Hlen1 : length (pre ++ [c]) = S (length pre))
      by (rewrite length_app; cbn; lia).
    assert (Hhere : char_before None (pre ++ c :: s) (length pre) = last_char None pre
                    /\ drop (length pre) (pre ++ c :: s) = c :: s).
    { unfold char_before. now rewrite take_app_length, drop_app_length. }
    destruct Hhere as [Hcb Hdrop].
    destruct skip as [|k]; cbn [scan].
    + destruct (match_here fl r (last_char None pre) (c :: s)) as [len|] eqn:E.
      * pose proof (Hpos _ _ _ E) as Hl.
        assert (Hle : len <= length (c :: s)).
        { apply match_here_sound in E as (u & rest & Eu & Hlen & _).
          rewrite Eu, length_app. lia. }
        rewrite Nat.add_0_r. apply scan_hit.
        -- rewrite length_app. cbn. lia.
        -- split; [lia|]. rewrite Hcb, Hdrop, E. f_equal. lia.
        -- lia.
        -- intros j e' Hj. lia.
        -- specialize (IH (pre ++ [c]) (len - 1)).
           rewrite <- Hpre, Hlast, Hlen1 in IH.
           replace (S (length pre) + (len - 1)) with (length pre + len) in IH by lia.
           apply IH. cbn in Hle. lia.
      * rewrite Nat.add_0_r. apply leftmost_scan_step.
        -- intros e [_ Hh]. rewrite Hcb, Hdrop in Hh. congruence.
        -- specialize (IH (pre ++ [c]) 0).
           rewrite <- Hpre, Hlast, Hlen1, Nat.add_0_r in IH.
           apply IH. lia.
    + specialize (IH (pre ++ [c]) k).
      rewrite <- Hpre, Hlast, Hlen1 in IH.
      replace (length pre + S k) with (S (length pre) + k) by lia.
      apply IH. cbn in Hskip. lia.
Qed.

(** [finditer] is the scan from left to right of the successful
    attempts. *)
Lemma finditer_leftmost fl r s :
  (forall prev t len, match_here fl r prev t = Some len -> 0 < len) ->
  leftmost_scan
    (fun i e => i <= e
                /\ match_here fl r (char_before None s i) (drop i s) = Some (e - i))
    (length s) 0 (finditer fl r s).
Proof.
  intros Hpos. exact (scan_leftmost fl r Hpos s [] 0 (Nat.le_0_l _)).
Qed.

(** A description [P] of the texts a pattern matches that is sound and
    complete for one attempt, and that allows one end only, describes the
    attempts exactly. *)
Lemma attempt_iff fl r (P : option char -> text -> text -> Prop) :
  (forall prev t len,
      match_here fl r prev t = Some len ->
      len <= length t /\ P prev (take len t) (drop len t)) ->
  (forall prev u rest, P prev u rest -> is_Some (match_here fl r prev (u ++ rest))) ->
  (forall prev u1 r1 u2 r2,
      u1 ++ r1 = u2 ++ r2 -> P prev u1 r1 -> P prev u2 r2 -> u1 = u2) ->
  forall s i e,
    i <= length s ->
    (i <= e /\ match_here fl r (char_before None s i) (drop i s) = Some (e - i))
    <-> (i <= e <= length s
         /\ P (char_before None s i) (slice s i e) (drop e s)).
Proof.
  intros Hsound Hcomplete Hunique s i e Hi. unfold slice. split.
  - intros [Hie Hm]. apply Hsound in Hm as [Hlen HP].
    rewrite length_drop in Hlen. split; [lia|].
    rewrite drop_drop in HP. now replace (i + (e - i)) with e in HP by lia.
  - intros [Hie HP]. split; [lia|].
    assert (Hsplit : drop i s = take (e - i) (drop i s) ++ drop e s).
    { rewrite <- (take_drop (e - i) (drop i s)) at 1. rewrite drop_drop.
      now replace (i + (e - i)) with e by lia. }
    destruct (Hcomplete _ _ _ HP) as [len Hm]. rewrite <- Hsplit in Hm.
    rewrite Hm. f_equal.
    apply Hsound in Hm as Hm'. destruct Hm' as [Hlen HP'].
    assert (E : take len (drop i s) = take (e - i) (drop i s)).
    { apply (Hunique (char_before None s i) _ (drop len (drop i s)) _ (drop e s));
        [|exact HP' | exact HP].
      now rewrite take_drop, <- Hsplit. }
    apply (f_equal length) in E. rewrite !length_take, length_drop in E.
    rewrite length_drop in Hlen. lia.
Qed.

(** With such a description of the attempts, [finditer] is the one scan
    from left to right. *)
Lemma finditer_determined fl r (P : nat -> nat -> Prop) (s : text) :
  (forall prev t len, match_here fl r prev t = Some len -> 0 < len) ->
  (forall i e,
      i <= length s ->
      (i <= e /\ match_here fl r (char_before None s i) (drop i s) = Some (e - i))
      <-> P i e) ->
  leftmost_scan P (length s) 0 (finditer fl r s)
  /\ forall ms, leftmost_scan P (length s) 0 ms -> ms = finditer fl r s.
Proof.
  intros Hpos HP.
  pose proof (finditer_leftmost fl r s Hpos) as Hscan. split.
  - eapply leftmost_scan_ext; [|exact Hscan]. exact HP.
  - intros ms Hms. eapply leftmost_scan_unique; [| |exact Hscan].
    + intros i e1 e2 [H1 E1] [H2 E2]. rewrite E1 in E2. injection E2. lia.
    + eapply leftmost_scan_ext; [|exact Hms].
      intros i e Hi. symmetry. now apply HP.
Qed.

(** *** Characters under [IGNORECASE] *)

Ltac char_lia :=
  unfold atom_matches, item_matches, item_raw, is_alpha, is_snake_char,
    is_pascal_char, fold, upper, is_space, is_upper, is_lower, is_digit,
    in_range, chr_newline, chr_dquote, chr_squote in *;
  repeat match goal with
         | |- context [cp ?a] =>
             let v := eval vm_compute in (cp a) in change (cp a) with v
         | H : context [cp ?a] |- _ =>
             let v := eval vm_compute in (cp a) in change (cp a) with v in H
         end;
  cbn [existsb ignorecase multiline IGNORECASE MULTILINE no_flags] in *;
  repeat match goal with
         | |- context [if ?b then _ else _] => destruct b eqn:?
         | H : context [if ?b then _ else _] |- _ => destruct b eqn:?
         end;
  lia.

Lemma fold_cases c : fold c = c \/ is_lower (fold c) = true.
Proof. char_lia. Qed.

Lemma upper_cases c : upper c = c \/ is_upper (upper c) = true.
Proof. char_lia. Qed.

Lemma lower_not_space c : is_lower c = true -> is_space c = false.
Proof. intros H. char_lia. Qed.

Lemma upper_not_space c : is_upper c = true -> is_space c = false.
Proof. intros H. char_lia. Qed.

Lemma fold_space c : is_space (fold c) = true -> is_space c = true.
Proof.
  destruct (fold_cases c) as [-> | H]; [auto|].
  apply lower_not_space in H. congruence.
Qed.

Lemma upper_space c : is_space (upper c) = true -> is_space c = true.
Proof.
  destruct (upper_cases c) as [-> | H]; [auto|].
  apply upper_not_space in H. congruence.
Qed.

Lemma icase_space c : item_matches IGNORECASE SSpace c = is_space c.
Proof.
  unfold item_matches. cbn [item_raw ignorecase IGNORECASE andb].
  destruct (is_space c) eqn:E; [reflexivity|]. cbn [orb].
  destruct (is_space (fold c)) eqn:E1.
  { apply fold_space in E1. congruence. }
  destruct (is_space (upper (fold c))) eqn:E2; [|reflexivity].
  apply upper_space, fold_space in E2. congruence.
Qed.

Lemma icase_ws c : atom_matches IGNORECASE (ASet false [SSpace]) c = is_space c.
Proof.
  cbn [atom_matches existsb xorb]. rewrite icase_space.
  now destruct (is_space c).
Qed.

Lemma icase_equals c : atom_matches IGNORECASE (ALit (cp "=")) c = N.eqb c (cp "=").
Proof. char_lia. Qed.

Lemma icase_brace c : atom_matches IGNORECASE (ALit (cp "{")) c = N.eqb c (cp "{").
Proof. char_lia. Qed.

Lemma icase_squote c :
  atom_matches IGNORECASE (ALit chr_squote) c = N.eqb c chr_squote.
Proof. char_lia. Qed.

Lemma icase_dquote c :
  atom_matches IGNORECASE (ALit chr_dquote) c = N.eqb c chr_dquote.
Proof. char_lia. Qed.

Lemma icase_not_squote c :
  atom_matches IGNORECASE (ASet true [SChar chr_squote]) c
  = negb (N.eqb c chr_squote).
Proof. char_lia. Qed.

Lemma icase_not_dquote c :
  atom_matches IGNORECASE (ASet true [SChar chr_dquote]) c
  = negb (N.eqb c chr_dquote).
Proof. char_lia. Qed.

Lemma icase_f c :
  atom_matches IGNORECASE (ALit (cp "f")) c = N.eqb c (cp "f") || N.eqb c (cp "F").
Proof. char_lia. Qed.

Lemma icase_quotes c :
  atom_matches IGNORECASE (ASet false [SChar chr_dquote; SChar chr_squote]) c
  = N.eqb c chr_dquote || N.eqb c chr_squote.
Proof. char_lia. Qed.

Lemma alpha_not_space c : is_alpha c = true -> is_space c = false.
Proof. intros H. char_lia. Qed.

(** The code points that stand for a given lower-case letter. *)
Lemma fold_letter (c l : char) :
  is_lower l = true ->
  fold c = l
  <-> c = l \/ c = (l - 32)%N
      \/ (l = cp "i" /\ (c = 0x130%N \/ c = 0x131%N))
      \/ (l = cp "s" /\ c = 0x17f%N)
      \/ (l = cp "k" /\ c = 0x212a%N).
Proof. intros H. char_lia. Qed.

(** *** Literal words, alternatives and sequences *)

Lemma lang_lit_chars fl (w : text) : forall prev u rest,
  lang fl (fold_right (fun c r => RSeq (RChar (ALit c)) r) REmpty w) prev u rest
  <-> Forall2 (fun c d => atom_matches fl (ALit d) c = true) u w.
Proof.
  induction w as [|d w IH]; intros prev u rest; cbn [fold_right lang].
  - split; [intros ->; constructor | now inversion 1].
  - split.
    + intros (u1 & u2 & -> & (c & -> & Hc) & L). constructor; [exact Hc|].
      now apply IH in L.
    + intros H. apply Forall2_cons_inv_r in H as (c & u' & Hc & Hu' & ->).
      exists [c], u'. split; [reflexivity|]. split; [eauto|]. now apply IH.
Qed.

Lemma lang_lit_icase w prev u rest :
  lang IGNORECASE (lit w) prev u rest <-> same_ignoring_case u w.
Proof.
  unfold lit, same_ignoring_case. rewrite lang_lit_chars.
  generalize (chars w) as l. clear.
  induction u as [|c u IH]; intros [|d l]; cbn [map].
  - split; [reflexivity | constructor].
  - split; [inversion 1 | discriminate].
  - split; [inversion 1 | discriminate].
  - split.
    + intros H. apply Forall2_cons_inv_r in H as (c' & u' & Hc & Hu & [= <- <-]).
      cbn [atom_matches ignorecase IGNORECASE] in Hc. apply N.eqb_eq in Hc.
      f_equal; [exact Hc | now apply IH].
    + intros [= Hc Hu].
      constructor; [|now apply IH].
      cbn [atom_matches ignorecase IGNORECASE]. now apply N.eqb_eq.
Qed.

Lemma lang_alts fl r rs prev u rest :
  lang fl (alts (r :: rs)) prev u rest <-> exists r', r' ∈ r :: rs /\ lang fl r' prev u rest.
Proof.
  revert r. induction rs as [|r2 rs IH]; intros r.
  - cbn [alts]. split.
    + intros L. exists r. split; [apply list_elem_of_here | exact L].
    + intros (r' & Hr & L). apply list_elem_of_singleton in Hr as ->. exact L.
  - change (alts (r :: r2 :: rs)) with (RAlt r (alts (r2 :: rs))). cbn [lang].
    rewrite IH. split.
    + intros [L|(r' & Hr & L)].
      * exists r. split; [apply list_elem_of_here | exact L].
      * exists r'. split; [now apply list_elem_of_further | exact L].
    + intros (r' & Hr & L). apply elem_of_cons in Hr as [->|Hr]; eauto.
Qed.

Lemma lang_words w ws prev u rest :
  lang IGNORECASE (alts (map lit (w :: ws))) prev u rest
  <-> one_of_ignoring_case (w :: ws) u.
Proof.
  cbn [map]. rewrite lang_alts. unfold one_of_ignoring_case. split.
  - intros (r & Hr & L).
    change (lit w :: map lit ws) with (lit <$> (w :: ws)) in Hr.
    apply list_elem_of_fmap in Hr as (w' & -> & Hw).
    exists w'. split; [exact Hw | now apply lang_lit_icase in L].
  - intros (w' & Hw & E). exists (lit w'). split.
    + change (lit w :: map lit ws) with (lit <$> (w :: ws)).
      now apply list_elem_of_fmap_2.
    + now apply lang_lit_icase.
Qed.

Lemma lang_ws_star g prev u rest :
  lang IGNORECASE (RStar g (ASet false [SSpace])) prev u rest
  <-> Forall (fun c => is_space c = true) u.
Proof.
  cbn [lang].
  split; intros H; (eapply Forall_impl; [exact H|]); intros c; cbn beta;
    now rewrite icase_ws.
Qed.

(** *** The shapes of the credentials and SQL matches *)

Lemma not_elem_Forall_neqb (q : char) (body : text) :
  q ∉ body <-> Forall (fun c => negb (N.eqb c q) = true) body.
Proof.
  rewrite Forall_forall. split.
  - intros H c Hc. apply negb_true_iff, N.eqb_neq. intros ->. auto.
  - intros H Hq. specialize (H q Hq). now rewrite N.eqb_refl in H.
Qed.

Lemma lang_quoted_gen q prev u rest :
  (forall c, atom_matches IGNORECASE (ALit q) c = N.eqb c q) ->
  (forall c, atom_matches IGNORECASE (ASet true [SChar q]) c = negb (N.eqb c q)) ->
  lang IGNORECASE (quoted q) prev u rest
  <-> exists body, u = q :: body ++ [q] /\ body <> [] /\ q ∉ body.
Proof.
  intros Hq Hn. unfold quoted. cbn [seqs lang]. split.
  - intros (u1 & u2 & -> & (c & -> & Hc) & u3 & u4 & -> & [Hne Hb] & (d & -> & Hd)).
    rewrite Hq in Hc, Hd. apply N.eqb_eq in Hc as ->, Hd as ->.
    exists u3. repeat split; [exact Hne|].
    apply not_elem_Forall_neqb. eapply Forall_impl; [exact Hb|].
    intros c. cbn beta. now rewrite Hn.
  - intros (body & -> & Hne & Hb).
    exists [q], (body ++ [q]). split; [reflexivity|]. split.
    + exists q. split; [reflexivity|]. rewrite Hq. apply N.eqb_refl.
    + exists body, [q]. split; [reflexivity|]. split; [split; [exact Hne|]|].
      * apply not_elem_Forall_neqb in Hb. eapply Forall_impl; [exact Hb|].
        intros c. cbn beta. now rewrite Hn.
      * exists q. split; [reflexivity|]. rewrite Hq. apply N.eqb_refl.
Qed.

Lemma lang_quoted_either prev u rest :
  lang IGNORECASE (RAlt (quoted chr_squote) (quoted chr_dquote)) prev u rest
  <-> quoted_literal u.
Proof.
  cbn [lang].
  rewrite (lang_quoted_gen chr_squote _ _ _ icase_squote icase_not_squote).
  rewrite (lang_quoted_gen chr_dquote _ _ _ icase_dquote icase_not_dquote).
  unfold quoted_literal, is_quote. split.
  - intros [(body & -> & H)|(body & -> & H)]; eexists _, body; intuition eauto.
  - intros (q & body & -> & [->| ->] & H); [left|right]; exists body; intuition.
Qed.

Lemma lang_equals prev u rest :
  lang IGNORECASE (lit "=") prev u rest <-> u = [cp "="].
Proof.
  change (lit "=") with (RSeq (RChar (ALit (cp "="))) REmpty). cbn [lang]. split.
  - intros (u1 & u2 & -> & (c & -> & Hc) & ->).
    rewrite icase_equals in Hc. now apply N.eqb_eq in Hc as ->.
  - intros ->. exists [cp "="], []. repeat split. exists (cp "="). now split.
Qed.

Lemma lang_password prev u rest :
  lang IGNORECASE password_pattern prev u rest <-> credential_assignment u.
Proof.
  unfold password_pattern, credential_assignment. cbn [seqs lang]. split.
  - intros (w & u2 & -> & Lw & u3 & lt & -> & (ws1 & u4 & -> & L1 & e & ws2 & -> & Le & L2) & Ll).
    apply lang_words in Lw. apply lang_ws_star in L1, L2.
    apply lang_equals in Le as ->. apply lang_quoted_either in Ll.
    exists w, ws1, ws2, lt. rewrite <- !app_assoc. cbn. auto 10.
  - intros (w & ws1 & ws2 & lt & -> & Hw & H1 & H2 & Hl).
    exists w, (ws1 ++ cp "=" :: ws2 ++ lt). split; [reflexivity|]. split.
    { now apply lang_words. }
    exists (ws1 ++ cp "=" :: ws2), lt. split; [now rewrite <- app_assoc|]. split.
    + exists ws1, (cp "=" :: ws2). split; [reflexivity|]. split.
      { now apply lang_ws_star. }
      exists [cp "="], ws2. split; [reflexivity|]. split.
      { now apply lang_equals. }
      now apply lang_ws_star.
    + now apply lang_quoted_either.
Qed.

Lemma lang_sql prev u rest :
  lang IGNORECASE sql_pattern prev u rest <-> sql_interpolation u.
Proof.
  unfold sql_pattern, sql_interpolation.
  change (lit "f") with (RSeq (RChar (ALit (cp "f"))) REmpty).
  change (lit "{") with (RSeq (RChar (ALit (cp "{"))) REmpty).
  cbn [seqs lang]. split.
  - intros (u1 & u2 & -> & (uf & e1 & -> & (f & -> & Hf) & ->)
            & u3 & u4 & -> & (q & -> & Hq)
            & ws & u5 & -> & Lws & kw & u6 & -> & Lkw
            & mid & u7 & -> & Lmid & ub & e2 & -> & (b & -> & Hb) & ->).
    rewrite icase_f in Hf. rewrite icase_quotes in Hq. rewrite icase_brace in Hb.
    apply N.eqb_eq in Hb as ->. apply lang_ws_star in Lws.
    apply lang_words in Lkw.
    exists f, q, ws, kw, mid. cbn. repeat split; auto.
    + apply orb_true_iff in Hf as [H|H]; apply N.eqb_eq in H; auto.
    + apply orb_true_iff in Hq as [H|H]; apply N.eqb_eq in H;
        unfold is_quote; auto.
    + now apply not_elem_Forall_neqb.
  - intros (f & q & ws & kw & mid & -> & Hf & Hq & Hws & Hkw & Hmid).
    exists [f], (q :: ws ++ kw ++ mid ++ [cp "{"]). split; [reflexivity|]. split.
    { exists [f], []. repeat split. exists f. split; [reflexivity|].
      rewrite icase_f. destruct Hf as [-> | ->]; reflexivity. }
    exists [q], (ws ++ kw ++ mid ++ [cp "{"]). split; [reflexivity|]. split.
    { exists q. split; [reflexivity|]. rewrite icase_quotes.
      destruct Hq as [-> | ->]; reflexivity. }
    exists ws, (kw ++ mid ++ [cp "{"]). split; [reflexivity|]. split.
    { now apply lang_ws_star. }
    exists kw, (mid ++ [cp "{"]). split; [reflexivity|]. split.
    { now apply lang_words. }
    exists mid, [cp "{"]. split; [reflexivity|]. split.
    { now apply not_elem_Forall_neqb. }
    exists [cp "{"], []. repeat split. exists (cp "{"). now split.
Qed.

(** The patterns of the module consume at least one character, so that
    [scan] never has to retry a position after an empty match. *)
Lemma patterns_consume ty fl r prev s n :
  (ty, (fl, r)) ∈ text_detectors ->
  match_here fl r prev s = Some n -> 0 < n.
Proof.
  unfold text_detectors. intros Hd Hm.
  apply match_here_sound in Hm as (u & rest & _ & <- & L).
  repeat (apply elem_of_cons in Hd as [Hd|Hd]); [| | |now apply elem_of_nil in Hd];
    injection Hd as -> -> ->.
  - unfold commented_code_pattern in L. cbn [seqs lang] in L.
    destruct L as (u1 & u2 & -> & _ & u3 & u4 & -> & _ & u5 & u6 & -> & Lh & _).
    change (lit "#") with (RSeq (RChar (ALit (cp "#"))) REmpty) in Lh.
    cbn [lang] in Lh.
    destruct Lh as (a & b & -> & (c & -> & _) & _).
    rewrite !length_app. cbn. lia.
  - apply lang_password in L as (w & ws1 & ws2 & lt & -> & _).
    rewrite !length_app. cbn. lia.
  - apply lang_sql in L as (f & q & ws & kw & mid & -> & _). cbn. lia.
Qed.

(** ** Walking a tree *)

Lemma node_ind (P : node -> Prop) :
  (forall c x l cs, Forall P cs -> P (Node c x l cs)) -> forall n, P n.
Proof.
  intros H. fix IH 1. intros [c x l cs]. apply H.
  induction cs as [|c' cs IHcs]; constructor; [apply IH | exact IHcs].
Qed.

Lemma subtree_unfold p n :
  subtree p n = (p, n) :: forest (child_entries p n).
Proof.
  destruct n as [c x l cs]. cbn [subtree]. f_equal.
  unfold forest, child_entries. cbn [node_children].
  change (map ?f ?l) with (f <$> l). rewrite fmap_imap. unfold compose. cbn [fst snd].
  change (fun i c => subtree (p ++ [i]) c) with (fun j c => subtree (p ++ [0 + j]) c).
  generalize 0 as i. induction cs as [|c' cs IH]; intros i; [reflexivity|].
  cbn [imap concat]. rewrite Nat.add_0_r. f_equal.
  rewrite IH. f_equal. apply imap_ext. intros j y _. cbn.
  now rewrite Nat.add_succ_r.
Qed.

Lemma total_size_children p n : S (total_size (child_entries p n)) = node_size n.
Proof.
  destruct n as [c x l cs]. unfold total_size, child_entries. cbn [node_children node_size].
  f_equal. f_equal. change (map ?f ?l) with (f <$> l). rewrite fmap_imap.
  unfold compose. cbn [snd]. apply imap_const.
Qed.

Lemma node_size_pos n : 0 < node_size n.
Proof. destruct n. cbn. lia. Qed.

Lemma forest_app q1 q2 : forest (q1 ++ q2) = forest q1 ++ forest q2.
Proof. unfold forest. now rewrite map_app, concat_app. Qed.

Lemma total_size_app q1 q2 : total_size (q1 ++ q2) = total_size q1 + total_size q2.
Proof. unfold total_size. now rewrite map_app, list_sum_app. Qed.

(** With enough fuel the queue is emptied, and the walk yields every node of
    every tree in the queue exactly once. *)
Lemma walk_queue_forest : forall fuel q,
  total_size q <= fuel -> walk_queue fuel q ≡ₚ forest q.
Proof.
  induction fuel as [|fuel IH]; intros q Hq.
  - destruct q as [|[p n] q]; [reflexivity|].
    change (total_size ((p, n) :: q)) with (node_size n + total_size q) in Hq.
    pose proof (node_size_pos n). lia.
  - destruct q as [|[p n] q]; [reflexivity|]. cbn [walk_queue].
    change (forest ((p, n) :: q)) with (subtree p n ++ forest q).
    rewrite subtree_unfold. cbn [app]. constructor.
    rewrite IH.
    + rewrite forest_app. apply Permutation_app_comm.
    + rewrite total_size_app.
      change (total_size ((p, n) :: q)) with (node_size n + total_size q) in Hq.
      pose proof (total_size_children p n) as E. lia.
Qed.

Lemma walk_subtree n : walk n ≡ₚ subtree [] n.
Proof.
  unfold walk. rewrite walk_queue_forest.
  - unfold forest. cbn. now rewrite app_nil_r.
  - unfold total_size. cbn. lia.
Qed.

Lemma forest_cons e q : forest (e :: q) = subtree (fst e) (snd e) ++ forest q.
Proof. reflexivity. Qed.

Lemma subtree_depth : forall n p e, e ∈ subtree p n -> length p <= length (fst e).
Proof.
  induction n as [c x l cs IH] using node_ind. intros p e He.
  rewrite subtree_unfold in He. apply elem_of_cons in He as [->|He]; [cbn; lia|].
  unfold child_entries in He. cbn [node_children] in He.
  assert (G : forall (g : nat -> path),
             (forall i, length p < length (g i)) ->
             e ∈ forest (imap (fun i c => (g i, c)) cs) -> length p < length (fst e)).
  { clear He. induction IH as [|c' cs' Hc' _ IHcs]; intros g Hg He.
    - now apply elem_of_nil in He.
    - rewrite imap_cons, forest_cons in He. cbn [fst snd] in He.
      apply elem_of_app in He as [He|He].
      + apply Hc' in He. specialize (Hg 0). lia.
      + apply (IHcs (g ∘ S)); [intros i; apply Hg | exact He]. }
  apply Nat.lt_le_incl, (G (fun i => p ++ [i])); [|exact He].
  intros i. rewrite length_app. cbn. lia.
Qed.

Lemma subtree_nodes : forall n p, map snd (subtree p n) = n :: descendants n.
Proof.
  induction n as [c x l cs IH] using node_ind. intros p.
  rewrite subtree_unfold. cbn [map snd descendants]. f_equal.
  unfold child_entries. cbn [node_children].
  assert (G : forall (g : nat -> path),
             map snd (forest (imap (fun i c => (g i, c)) cs))
             = concat (map (fun c => c :: descendants c) cs)).
  { induction IH as [|c' cs' Hc' _ IHcs]; intros g; [reflexivity|].
    rewrite imap_cons, forest_cons, map_app. cbn [fst snd map concat].
    rewrite Hc'. f_equal. apply (IHcs (g ∘ S)). }
  apply (G (fun i => p ++ [i])).
Qed.

Lemma forest_children_prefix (cs : list node) :
  (forall c p e, c ∈ cs -> e ∈ subtree p c -> exists k, fst e = p ++ k) ->
  forall (g : nat -> path) e,
    e ∈ forest (imap (fun i c => (g i, c)) cs) -> exists i k, fst e = g i ++ k.
Proof.
  induction cs as [|c cs IH]; intros Hcs g e He.
  - now apply elem_of_nil in He.
  - rewrite imap_cons, forest_cons in He. cbn [fst snd] in He.
    apply elem_of_app in He as [He|He].
    + apply (Hcs c) in He as [k Hk]; [eauto | apply list_elem_of_here].
    + destruct (IH (fun c' p e' Hc' => Hcs c' p e' (list_elem_of_further _ _ _ Hc'))
                  (g ∘ S) e He) as (i & k & Hk).
      exists (S i), k. exact Hk.
Qed.

(** Every position listed under a node extends the position of that node. *)
Lemma subtree_prefix : forall n p e, e ∈ subtree p n -> exists k, fst e = p ++ k.
Proof.
  induction n as [c x l cs IH] using node_ind. intros p e He.
  rewrite subtree_unfold in He. apply elem_of_cons in He as [->|He].
  - exists []. cbn. now rewrite app_nil_r.
  - unfold child_entries in He. cbn [node_children] in He.
    apply (forest_children_prefix cs) in He as (i & k & Hk).
    + exists (i :: k). now rewrite Hk, <- app_assoc.
    + intros c' p' e' Hc'. rewrite Forall_forall in IH. now apply IH.
Qed.

(** No position is listed twice. *)
Lemma subtree_NoDup : forall n p, NoDup (map fst (subtree p n)).
Proof.
  induction n as [c x l cs IH] using node_ind. intros p.
  rewrite subtree_unfold. cbn [map fst]. unfold child_entries. cbn [node_children].
  assert (Hpre : forall (g : nat -> path) e,
             e ∈ forest (imap (fun i c => (g i, c)) cs) -> exists i k, fst e = g i ++ k).
  { apply forest_children_prefix. intros c' p' e' _. apply subtree_prefix. }
  apply NoDup_cons. split.
  - intros Hp. apply (list_elem_of_fmap fst) in Hp as (e & E & He).
    apply Hpre in He as (i & k & Hk). unfold path in *. rewrite <- E in Hk.
    apply (f_equal length) in Hk. rewrite !length_app in Hk. cbn in Hk. lia.
  - assert (G : forall (g : nat -> path),
               (forall i j k k', g i ++ k = g j ++ k' -> i = j) ->
               NoDup (map fst (forest (imap (fun i c => (g i, c)) cs)))).
    { clear Hpre. induction IH as [|c' cs' Hc' Hcs' IHcs]; intros g Hg; [constructor|].
      rewrite imap_cons, forest_cons, map_app. cbn [fst snd].
      apply NoDup_app. split; [apply Hc'|]. split; [|apply (IHcs (g ∘ S))].
      - intros y Hy1 Hy2.
        apply (list_elem_of_fmap fst) in Hy1 as (e1 & -> & He1).
        apply (list_elem_of_fmap fst) in Hy2 as (e2 & E & He2).
        apply subtree_prefix in He1 as [k1 Hk1].
        apply (forest_children_prefix cs') in He2 as (j & k2 & Hk2).
        + unfold path in *. rewrite Hk1, Hk2 in E. apply Hg in E. discriminate E.
        + intros c0 p0 e0 _. apply subtree_prefix.
      - intros i j k k' E. apply Hg in E. now injection E. }
    apply (G (fun i => p ++ [i])).
    intros i j k k' E. rewrite <- !app_assoc in E.
    apply app_inv_head in E. now injection E.
Qed.

Lemma walk_NoDup n : NoDup (map fst (walk n)).
Proof.
  assert (E : map fst (walk n) ≡ₚ map fst (subtree [] n))
    by (apply fmap_Permutation, walk_subtree).
  rewrite E. apply subtree_NoDup.
Qed.

Lemma existsb_Permutation {A} (f : A -> bool) (l1 l2 : list A) :
  l1 ≡ₚ l2 -> existsb f l1 = existsb f l2.
Proof.
  induction 1 as [|x l1 l2 _ IH|x y l|l1 l2 l3 _ IH1 _ IH2]; cbn.
  - reflexivity.
  - now rewrite IH.
  - now destruct (f x), (f y).
  - now rewrite IH1.
Qed.

(** The inner loop finds a [For] other than the node itself exactly when one
    of the node's descendants is a [For]. *)
Lemma has_nested_for_descendants n :
  has_nested_for n = existsb (fun c => isinstance c For) (descendants n).
Proof.
  unfold has_nested_for. rewrite (existsb_Permutation _ _ _ (walk_subtree n)).
  pose proof (subtree_nodes n []) as Hn.
  rewrite subtree_unfold in Hn |- *. cbn [map] in Hn. injection Hn as Hn.
  cbn [existsb is_not_root]. rewrite andb_false_r, orb_false_l, <- Hn.
  assert (Hd : forall e, e ∈ forest (child_entries [] n) -> is_not_root (fst e) = true).
  { intros e He.
    assert (H : e ∈ subtree [] n) by (rewrite subtree_unfold; now apply list_elem_of_further).
    unfold child_entries in He. destruct n as [c x l cs]. cbn [node_children] in He.
    clear H Hn.
    assert (G : forall (g : nat -> path), (forall i, 0 < length (g i)) ->
               e ∈ forest (imap (fun i c => (g i, c)) cs) -> 0 < length (fst e)).
    { clear He. induction cs as [|c' cs' IHcs]; intros g Hg He.
      - now apply elem_of_nil in He.
      - rewrite imap_cons, forest_cons in He. cbn [fst snd] in He.
        apply elem_of_app in He as [He|He].
        + apply subtree_depth in He. exact (Nat.lt_le_trans _ _ _ (Hg 0) He).
        + apply (IHcs (g ∘ S)); [intros i; apply Hg | exact He]. }
    specialize (G (fun i => [] ++ [i]) (fun i => Nat.lt_0_1) He).
    destruct (fst e); [cbn in G; lia | reflexivity]. }
  revert Hd. generalize (forest (child_entries [] n)) as q.
  induction q as [|[p c] q IHq]; intros Hd; [reflexivity|].
  cbn [existsb map snd]. rewrite IHq.
  - pose proof (Hd (p, c) (list_elem_of_here _ _)) as Hp. cbn [fst] in Hp.
    now rewrite Hp, andb_true_r.
  - intros e He. apply Hd. now apply list_elem_of_further.
Qed.

(** A loop that selects with a test lists the elements that pass it. *)
Lemma omap_if {A B} (t : A -> bool) (f : A -> B) (l : list A) :
  omap (fun x => if t x then Some (f x) else None) l = map f (List.filter t l).
Proof.
  induction l as [|x l IH]; [reflexivity|]. cbn.
  destruct (t x); cbn; now rewrite <- IH.
Qed.

(** When the texts a pattern matches are those of a given shape, the matches
    [finditer] reports have that shape, and every occurrence of the shape
    starts a reported match or lies across an earlier one. *)
(** ** Matches of a pattern in a text *)

Lemma finditer_shape fl r (shape : text -> Prop) :
  (forall prev u rest, lang fl r prev u rest <-> shape u) ->
  forall s,
    (forall m, m ∈ finditer fl r s -> shape (slice s (m_start m) (m_end m)))
    /\ (forall pre u rest, s = pre ++ u ++ rest -> shape u ->
          exists m, m ∈ finditer fl r s
            /\ (m_start m = length pre \/ m_start m < length pre < m_end m)).
Proof.
  intros Hshape s. split.
  - intros m Hm. apply finditer_sound in Hm as [_ Hm].
    apply match_here_sound in Hm as (u & rest & E & Hlen & L).
    unfold slice. rewrite E, <- Hlen, take_app_length. now apply Hshape in L.
  - intros pre u rest -> Hu.
    destruct (match_here_complete fl r (char_before None (pre ++ u ++ rest) (length pre))
                u rest) as [len Hlen]; [now apply Hshape|].
    apply (finditer_complete fl r _ (length pre) len).
    + rewrite length_app. lia.
    + now rewrite drop_app_length.
Qed.

(** *** An empty literal is no credential *)

Lemma span_unique (P : char -> bool) : forall l1 l2 a1 a2 r1 r2,
  Forall (fun c => P c = true) l1 -> Forall (fun c => P c = true) l2 ->
  P a1 = false -> P a2 = false ->
  l1 ++ a1 :: r1 = l2 ++ a2 :: r2 ->
  l1 = l2 /\ a1 = a2 /\ r1 = r2.
Proof.
  induction l1 as [|c l1 IH]; intros [|d l2] a1 a2 r1 r2 H1 H2 Ha1 Ha2 E; cbn in E.
  - injection E as -> ->. auto.
  - injection E as -> ->. apply Forall_cons in H2 as [H2 _]. congruence.
  - injection E as -> <-. apply Forall_cons in H1 as [H1 _]. congruence.
  - injection E as -> E. apply Forall_cons in H1 as [_ H1], H2 as [_ H2].
    destruct (IH _ _ _ _ _ H1 H2 Ha1 Ha2 E) as (-> & -> & ->). auto.
Qed.

Lemma credential_word_alpha w :
  one_of_ignoring_case credential_words w -> Forall (fun c => is_alpha c = true) w.
Proof.
  intros (kw & Hkw & E). unfold same_ignoring_case in E.
  assert (Hk : Forall (fun c => is_lower c = true) (map fold (chars kw))).
  { unfold credential_words in Hkw.
    repeat (apply elem_of_cons in Hkw as [->|Hkw];
            [vm_compute; repeat constructor|]).
    now apply elem_of_nil in Hkw. }
  rewrite <- E in Hk. clear E Hkw.
  induction w as [|c w IH]; [constructor|].
  cbn [map] in Hk. apply Forall_cons in Hk as [Hc Hk].
  constructor; [exact Hc | auto].
Qed.

Lemma quote_not_space q : is_quote q -> is_space q = false.
Proof. now intros [-> | ->]. Qed.

Lemma head_after_spaces ws (a : char) r :
  all_space ws -> is_alpha a = false ->
  exists b r', ws ++ a :: r = b :: r' /\ is_alpha b = false.
Proof.
  intros Hws Ha. destruct ws as [|c ws]; [eauto|].
  exists c, (ws ++ a :: r). split; [reflexivity|].
  apply Forall_cons in Hws as [Hc _].
  destruct (is_alpha c) eqn:E; [|reflexivity].
  apply alpha_not_space in E. congruence.
Qed.

Lemma assignment_assoc (w ws1 ws2 : text) (q : char) (body rest : text) :
  (w ++ ws1 ++ cp "=" :: ws2 ++ q :: body ++ [q]) ++ rest
  = w ++ ws1 ++ cp "=" :: ws2 ++ q :: body ++ q :: rest.
Proof.
  rewrite <- (app_assoc w). f_equal. rewrite <- (app_assoc ws1). f_equal.
  cbn [app]. f_equal. rewrite <- (app_assoc ws2). f_equal.
  cbn [app]. f_equal. now rewrite <- (app_assoc body).
Qed.

Lemma empty_literal_no_match prev w ws1 ws2 q rest :
  one_of_ignoring_case credential_words w ->
  all_space ws1 -> all_space ws2 -> is_quote q ->
  match_here IGNORECASE password_pattern prev
    (w ++ ws1 ++ cp "=" :: ws2 ++ q :: q :: rest) = None.
Proof.
  intros Hw H1 H2 Hq.
  destruct (match_here _ _ _ _) as [n|] eqn:Hm; [exfalso | reflexivity].
  apply match_here_sound in Hm as (u & rest' & E & _ & L).
  apply lang_password in L
    as (w' & ws1' & ws2' & lt & -> & Hw' & H1' & H2' & q' & body & -> & Hq' & Hne & Hb).
  rewrite (assignment_assoc w' ws1' ws2' q' body rest') in E.
  destruct (head_after_spaces ws1 (cp "=") (ws2 ++ q :: q :: rest) H1 eq_refl)
    as (b & r & Eb & Hb1).
  destruct (head_after_spaces ws1' (cp "=") (ws2' ++ q' :: body ++ q' :: rest') H1' eq_refl)
    as (b' & r' & Eb' & Hb1').
  rewrite Eb, Eb' in E.
  apply (span_unique is_alpha) in E as (_ & -> & ->);
    [|now apply credential_word_alpha.. | assumption | assumption].
  rewrite <- Eb' in Eb.
  apply (span_unique is_space) in Eb as (_ & _ & E); [|assumption..| reflexivity | reflexivity].
  apply (span_unique is_space) in E as (_ & -> & E);
    [|assumption..| now apply quote_not_space | now apply quote_not_space].
  destruct body as [|c body]; [congruence|].
  injection E as <- _. apply Hb, list_elem_of_here.
Qed.

(** *** One match per position

    At a given position each of the three patterns matches at most one
    text, so that [finditer] is determined by the description of the
    matches. *)

Lemma text_eqb_eq (u v : text) : text_eqb u v = true <-> u = v.
Proof.
  revert v. induction u as [|c u IH]; intros [|d v]; cbn; try (split; congruence).
  rewrite andb_true_iff, N.eqb_eq, IH. split; [intros [-> ->]; reflexivity|].
  intros [= -> ->]. auto.
Qed.

Lemma prefix_free_spec (ws : list text) a b :
  prefix_free ws = true -> a ∈ ws -> b ∈ ws ->
  a = take (length a) b -> a = b.
Proof.
  unfold prefix_free. rewrite forallb_forall. intros H Ha Hb E.
  apply list_elem_of_In in Ha, Hb. specialize (H a Ha).
  rewrite forallb_forall in H. specialize (H b Hb).
  apply orb_true_iff in H as [H|H]; [now apply text_eqb_eq|].
  apply negb_true_iff in H. apply text_eqb_eq in E. congruence.
Qed.

(** A text has at most one beginning that is one of the words, when no
    word is the beginning of another. *)
Lemma words_unique (ws : list string) (u1 u2 r1 r2 : text) :
  prefix_free (map (fun w => map fold (chars w)) ws) = true ->
  one_of_ignoring_case ws u1 -> one_of_ignoring_case ws u2 ->
  u1 ++ r1 = u2 ++ r2 -> u1 = u2.
Proof.
  intros Hpf (w1 & Hw1 & E1) (w2 & Hw2 & E2) E. unfold same_ignoring_case in E1, E2.
  assert (Hin : forall w, w ∈ ws ->
                  map fold (chars w) ∈ map (fun w => map fold (chars w)) ws).
  { intros w Hw. apply (list_elem_of_fmap_2 (fun w => map fold (chars w))), Hw. }
  assert (Hsame : length u1 = length u2 -> u1 = u2).
  { intros Hl. apply (f_equal (take (length u1))) in E.
    rewrite take_app_length in E. rewrite Hl, take_app_length in E. exact E. }
  assert (Hle : forall x y rx ry wx wy,
             wx ∈ ws -> wy ∈ ws ->
             map fold x = map fold (chars wx) -> map fold y = map fold (chars wy) ->
             x ++ rx = y ++ ry -> length x <= length y -> length x = length y).
  { intros x y rx ry wx wy Hwx Hwy Ex Ey Exy Hl.
    assert (Hx : x = take (length x) y).
    { apply (f_equal (take (length x))) in Exy.
      rewrite take_app_length in Exy. now rewrite take_app_le in Exy. }
    assert (Hf : map fold (chars wx)
                 = take (length (map fold (chars wx))) (map fold (chars wy))).
    { rewrite <- Ex, <- Ey, length_map.
      change (map fold x = take (length x) (fold <$> y)).
      rewrite <- fmap_take. now rewrite <- Hx. }
    apply (prefix_free_spec _ _ _ Hpf (Hin _ Hwx) (Hin _ Hwy)) in Hf.
    rewrite <- Ex, <- Ey in Hf. apply (f_equal length) in Hf.
    now rewrite !length_map in Hf. }
  destruct (Nat.le_ge_cases (length u1) (length u2)) as [Hl|Hl].
  - apply Hsame. exact (Hle _ _ _ _ _ _ Hw1 Hw2 E1 E2 E Hl).
  - apply Hsame. symmetry. exact (Hle _ _ _ _ _ _ Hw2 Hw1 E2 E1 (eq_sym E) Hl).
Qed.

Lemma credential_words_prefix_free :
  prefix_free (map (fun w => map fold (chars w)) credential_words) = true.
Proof. vm_compute. reflexivity. Qed.

Lemma sql_keywords_prefix_free :
  prefix_free (map (fun w => map fold (chars w)) sql_keywords) = true.
Proof. vm_compute. reflexivity. Qed.

Lemma equals_not_space : is_space (cp "=") = false.
Proof. reflexivity. Qed.

Lemma credential_assignment_unique (u1 u2 r1 r2 : text) :
  u1 ++ r1 = u2 ++ r2 ->
  credential_assignment u1 -> credential_assignment u2 -> u1 = u2.
Proof.
  intros E (w & ws1 & ws2 & lt & -> & Hw & H1 & H2 & q & body & -> & Hq & _ & Hb)
           (w' & ws1' & ws2' & lt' & -> & Hw' & H1' & H2' & q' & body' & -> & Hq' & _ & Hb').
  rewrite !assignment_assoc in E.
  assert (w = w') as <-
    by exact (words_unique _ _ _ _ _ credential_words_prefix_free Hw Hw' E).
  apply app_inv_head in E.
  apply (span_unique is_space) in E as (<- & _ & E);
    [|assumption..| exact equals_not_space | exact equals_not_space].
  apply (span_unique is_space) in E as (<- & <- & E);
    [|assumption..| now apply quote_not_space | now apply quote_not_space].
  apply (span_unique (fun c => negb (N.eqb c q))) in E as (<- & _ & _);
    [reflexivity | now apply not_elem_Forall_neqb | now apply not_elem_Forall_neqb
    | now rewrite N.eqb_refl | now rewrite N.eqb_refl].
Qed.

Lemma rmatch_seq_sound fl r1 r2 k prev s pos e :
  rmatch fl (RSeq r1 r2) k prev s pos = Some e ->
  exists u rest, s = u ++ rest /\ lang fl r1 prev u rest
    /\ rmatch fl r2 k (last_char prev u) rest (pos + length u) = Some e.
Proof. intros H. exact (rmatch_sound fl r1 _ _ _ _ _ H). Qed.

(** A lazy repetition stops at the first place where the rest of the
    pattern matches. *)
Lemma star_lazy_first p k : forall s prev pos e,
  star_lazy p k prev s pos = Some e ->
  exists u rest, s = u ++ rest /\ Forall (fun c => p c = true) u
    /\ k (last_char prev u) rest (pos + length u) = Some e
    /\ forall u1 c u2, u = u1 ++ c :: u2 ->
         k (last_char prev u1) (c :: u2 ++ rest) (pos + length u1) = None.
Proof.
  induction s as [|c s IH]; intros prev pos e H; cbn in H.
  - destruct (k prev [] pos) eqn:Hk; [|discriminate].
    exists [], []. cbn. rewrite Nat.add_0_r. injection H as ->.
    repeat split; auto. intros [|? ?] ? ? Hu; discriminate Hu.
  - destruct (k prev (c :: s) pos) eqn:Hk.
    + exists [], (c :: s). cbn. rewrite Nat.add_0_r. injection H as ->.
      repeat split; auto. intros [|? ?] ? ? Hu; discriminate Hu.
    + destruct (p c) eqn:Hc; [|discriminate].
      destruct (IH _ _ _ H) as (u & rest & -> & Hu & Hk' & Hmin).
      exists (c :: u), rest. rewrite last_char_cons. cbn [length app].
      rewrite <- Nat.add_succ_comm. repeat split; auto.
      intros [|d u1] c' u2 Eu; cbn in Eu; injection Eu as -> ->.
      * cbn. now rewrite Nat.add_0_r.
      * rewrite last_char_cons. cbn [length]. rewrite <- Nat.add_succ_comm.
        now apply Hmin.
Qed.

Lemma lang_lit_f prev u rest :
  lang IGNORECASE (lit "f") prev u rest -> exists f, u = [f] /\ (f = cp "f" \/ f = cp "F").
Proof.
  change (lit "f") with (RSeq (RChar (ALit (cp "f"))) REmpty). cbn [lang].
  intros (u1 & u2 & -> & (f & -> & Hf) & ->). exists f. split; [reflexivity|].
  rewrite icase_f in Hf.
  apply orb_true_iff in Hf as [H|H]; apply N.eqb_eq in H; auto.
Qed.

Lemma lang_lit_brace prev u rest :
  lang IGNORECASE (lit "{") prev u rest -> u = [cp "{"].
Proof.
  change (lit "{") with (RSeq (RChar (ALit (cp "{"))) REmpty). cbn [lang].
  intros (u1 & u2 & -> & (b & -> & Hb) & ->).
  rewrite icase_brace in Hb. now apply N.eqb_eq in Hb as ->.
Qed.

(** One attempt of the SQL pattern: the match ends at the first brace after
    the keyword. *)
Lemma match_here_sql_first prev s n :
  match_here IGNORECASE sql_pattern prev s = Some n ->
  n <= length s /\ sql_first_brace (take n s).
Proof.
  unfold match_here, sql_pattern. cbn [seqs]. intros H.
  apply rmatch_seq_sound in H as (uf & s1 & -> & Lf & H).
  apply lang_lit_f in Lf as (f & -> & Hf).
  apply rmatch_seq_sound in H as (uq & s2 & -> & (q & -> & Hq) & H).
  rewrite icase_quotes in Hq.
  apply rmatch_seq_sound in H as (ws & s3 & -> & Lws & H).
  cbn [lang] in Lws. apply lang_ws_star in Lws.
  apply rmatch_seq_sound in H as (kw & s4 & -> & Lkw & H).
  cbn [lang] in Lkw. apply lang_words in Lkw.
  change (star_lazy (atom_matches IGNORECASE AAny)
            (rmatch IGNORECASE (lit "{") accept)
            (last_char (last_char (last_char (last_char prev [f]) [q]) ws) kw) s4
            (0 + length [f] + length [q] + length ws + length kw) = Some n) in H.
  apply star_lazy_first in H as (mid & s5 & -> & Hmid & H & Hmin).
  apply rmatch_sound in H as (ub & rest & -> & Lb & H).
  apply lang_lit_brace in Lb as ->.
  assert (Hn : n = length (f :: q :: ws ++ kw ++ mid ++ [cp "{"])).
  { unfold accept in H. injection H as <-.
    cbn [length]. rewrite !length_app. cbn [length]. lia. }
  clear H. subst n.
  assert (Hs : [f] ++ [q] ++ ws ++ kw ++ mid ++ [cp "{"] ++ rest
               = (f :: q :: ws ++ kw ++ mid ++ [cp "{"]) ++ rest).
  { cbn [app]. do 2 f_equal. now rewrite <- !app_assoc. }
  rewrite Hs. split; [rewrite length_app; lia|].
  rewrite take_app_length.
  exists f, q, ws, kw, mid. repeat split; auto.
  - apply orb_true_iff in Hq as [Hq|Hq]; apply N.eqb_eq in Hq; unfold is_quote; auto.
  - now apply not_elem_Forall_neqb.
  - intros Hin. apply list_elem_of_split in Hin as (u1 & u2 & ->).
    specialize (Hmin u1 (cp "{") u2 eq_refl).
    change (lit "{") with (RSeq (RChar (ALit (cp "{"))) REmpty) in Hmin.
    cbn [rmatch] in Hmin. rewrite icase_brace, N.eqb_refl in Hmin.
    discriminate Hmin.
Qed.

Lemma sql_first_brace_loose u : sql_first_brace u -> sql_interpolation u.
Proof.
  intros (f & q & ws & kw & mid & E & Hf & Hq & Hws & Hkw & Hnl & _).
  exists f, q, ws, kw, mid. auto 10.
Qed.

Lemma sql_keyword_alpha kw :
  one_of_ignoring_case sql_keywords kw ->
  exists a kw', kw = a :: kw' /\ is_alpha a = true.
Proof.
  intros (w & Hw & E). unfold same_ignoring_case in E.
  assert (Hk : exists b k, map fold (chars w) = b :: k /\ is_lower b = true).
  { unfold sql_keywords in Hw.
    repeat (apply elem_of_cons in Hw as [->|Hw];
            [vm_compute; eexists _, _; split; reflexivity|]).
    now apply elem_of_nil in Hw. }
  destruct Hk as (b & k & Ek & Hb). rewrite Ek in E.
  destruct kw as [|a kw']; [discriminate E|]. cbn [map] in E. injection E as <- _.
  eauto.
Qed.

Lemma sql_first_brace_unique (u1 u2 r1 r2 : text) :
  u1 ++ r1 = u2 ++ r2 -> sql_first_brace u1 -> sql_first_brace u2 -> u1 = u2.
Proof.
  intros E (f & q & ws & kw & mid & -> & _ & _ & Hws & Hkw & _ & Hb)
           (f' & q' & ws' & kw' & mid' & -> & _ & _ & Hws' & Hkw' & _ & Hb').
  cbn [app] in E. injection E as <- <- E.
  do 2 f_equal.
  rewrite <- !app_assoc in E.
  destruct (sql_keyword_alpha _ Hkw) as (a & k & Ea & Ha).
  destruct (sql_keyword_alpha _ Hkw') as (a' & k' & Ea' & Ha').
  assert (E0 := E). rewrite Ea, Ea' in E0. cbn [app] in E0.
  apply (span_unique is_space) in E0 as (<- & _ & _);
    [|assumption..| | ].
  2:{ destruct (is_space a) eqn:Hs; [|reflexivity].
      apply alpha_not_space in Ha. congruence. }
  2:{ destruct (is_space a') eqn:Hs; [|reflexivity].
      apply alpha_not_space in Ha'. congruence. }
  apply app_inv_head in E. f_equal.
  assert (kw = kw') as <-
    by exact (words_unique _ _ _ _ _ sql_keywords_prefix_free Hkw Hkw' E).
  apply app_inv_head in E. f_equal.
  cbn [app] in E.
  apply (span_unique (fun c => negb (N.eqb c (cp "{")))) in E as (<- & _ & _);
    [reflexivity | now apply not_elem_Forall_neqb | now apply not_elem_Forall_neqb
    | reflexivity | reflexivity].
Qed.

Lemma commented_code_line_unique prev (u1 u2 r1 r2 : text) :
  u1 ++ r1 = u2 ++ r2 ->
  commented_code_line prev u1 r1 -> commented_code_line prev u2 r2 -> u1 = u2.
Proof.
  intros E (_ & ws1 & ws2 & kw & -> & H1 & H2 & Hkw & _)
           (_ & ws1' & ws2' & kw' & -> & H1' & H2' & Hkw' & _).
  rewrite <- !app_assoc in E. cbn [app] in E.
  apply (span_unique is_space) in E as (<- & _ & E);
    [|assumption..| reflexivity | reflexivity].
  f_equal. f_equal. rewrite <- !app_assoc in E.
  unfold commented_keywords in Hkw, Hkw'.
  repeat (apply elem_of_cons in Hkw as [->|Hkw]);
    try (now apply elem_of_nil in Hkw);
    repeat (apply elem_of_cons in Hkw' as [->|Hkw']);
    try (now apply elem_of_nil in Hkw');
    vm_compute in E;
    apply (span_unique is_space) in E as (<- & Ea & Er);
    try assumption; try reflexivity;
    try discriminate Ea; try discriminate Er.
Qed.

(** *** The attempts of the three patterns *)

Lemma password_attempt (s : text) i e :
  i <= length s ->
  (i <= e /\ match_here IGNORECASE password_pattern (char_before None s i) (drop i s)
             = Some (e - i))
  <-> (i <= e <= length s /\ credential_assignment (slice s i e)).
Proof.
  apply (attempt_iff IGNORECASE password_pattern (fun _ u _ => credential_assignment u)).
  - intros prev t len Hm.
    apply match_here_sound in Hm as (u & rest & -> & <- & L).
    rewrite length_app, take_app_length. split; [lia|]. now apply lang_password in L.
  - intros prev u rest Hu. apply match_here_complete. now apply lang_password.
  - intros _ u1 r1 u2 r2. apply credential_assignment_unique.
Qed.

Lemma sql_attempt (s : text) i e :
  i <= length s ->
  (i <= e /\ match_here IGNORECASE sql_pattern (char_before None s i) (drop i s)
             = Some (e - i))
  <-> (i <= e <= length s /\ sql_first_brace (slice s i e)).
Proof.
  apply (attempt_iff IGNORECASE sql_pattern (fun _ u _ => sql_first_brace u)).
  - intros prev t len Hm. now apply match_here_sql_first in Hm.
  - intros prev u rest Hu. apply match_here_complete.
    now apply lang_sql, sql_first_brace_loose.
  - intros _ u1 r1 u2 r2. apply sql_first_brace_unique.
Qed.

(** ** The aggregator *)

Section Aggregator.

Variable fs : string -> file.
Variable ast_parse : string -> parse_result.

Lemma analysis_general code :
  analysis ast_parse code !! "general" = Some (general_findings ast_parse code).
Proof. reflexivity. Qed.

Lemma analysis_security code :
  analysis ast_parse code !! "security" = Some (security_findings code).
Proof. reflexivity. Qed.

Lemma analysis_performance code :
  analysis ast_parse code !! "performance"
  = Some (performance_findings ast_parse code).
Proof. reflexivity. Qed.

(** The result of analysing a readable file, seen through the reference
    the call returns. *)
Lemma analyze_file_result file_path code st :
  fs file_path = File code ->
  exists l,
    fst (analyze_file fs ast_parse file_path st) = Ret l
    /\ heap (snd (analyze_file fs ast_parse file_path st)) !! l
       = Some (analysis ast_parse code).
Proof.
  intros Hf. rewrite (analyze_file_readable _ _ _ _ _ Hf). cbn [fst snd heap].
  exists (length (heap st)). split; [reflexivity|].
  now apply list_lookup_middle.
Qed.

End Aggregator.

(** C1, which the code breaks: after a successful analysis of [app.py],
    analysing a path that does not exist returns the very dictionary of the
    first call, whose security bucket still holds the finding of
    [app.py]. *)
Theorem analyze_file_missing_returns_previous_findings :
  forall ast_parse : string -> parse_result,
    let fs := fs_single "app.py" admin_py in
    let first := analyze_file fs ast_parse "app.py" (init "review_templates") in
    let second := analyze_file fs ast_parse "gone.py" (snd first) in
    fs "gone.py" = Missing
    /\ fst second = fst first
    /\ exists l d,
         fst second = Ret l
         /\ heap (snd second) !! l = Some d
         /\ d !! "security" = Some [credentials_issue 1].
Proof.
  intros ast_parse fs first second.
  assert (Hm : fs "gone.py" = Missing) by reflexivity.
  assert (Hf : fs "app.py" = File admin_py) by reflexivity.
  split; [exact Hm|].
  unfold second. rewrite (analyze_file_missing _ _ _ _ Hm).
  unfold first. rewrite (analyze_file_readable _ _ _ _ _ Hf).
  cbn [fst snd heap issues_found init length]. split; [reflexivity|].
  exists 1, (analysis ast_parse admin_py). split; [reflexivity|].
  split; [reflexivity|].
  rewrite analysis_security. reflexivity.
Qed.

(** C8: the dictionary an analysis returns depends on the text of the file
    alone, not on the state the assistant is in; two runs on the same text,
    the second after the first or from any other state, return equal
    results. *)
Theorem analyze_file_deterministic
    (fs : string -> file) (ast_parse : string -> parse_result)
    (file_path code : string) (st1 st2 : state) :
  fs file_path = File code ->
  exists l1 l2 d,
    fst (analyze_file fs ast_parse file_path st1) = Ret l1
    /\ fst (analyze_file fs ast_parse file_path st2) = Ret l2
    /\ heap (snd (analyze_file fs ast_parse file_path st1)) !! l1 = Some d
    /\ heap (snd (analyze_file fs ast_parse file_path st2)) !! l2 = Some d
    /\ d = analysis ast_parse code.
Proof.
  intros Hf.
  destruct (analyze_file_result fs ast_parse file_path code st1 Hf) as (l1 & R1 & H1).
  destruct (analyze_file_result fs ast_parse file_path code st2 Hf) as (l2 & R2 & H2).
  exists l1, l2, (analysis ast_parse code). auto.
Qed.

Lemma analyze_file_deterministic_witness :
  fs_single "app.py" admin_py "app.py" = File admin_py
  /\ exists l1 l2 d,
       let fs := fs_single "app.py" admin_py in
       let parse := parse_fails broken_error in
       let st1 := init "review_templates" in
       let st2 := snd (analyze_file fs parse "app.py" st1) in
       fst (analyze_file fs parse "app.py" st1) = Ret l1
       /\ fst (analyze_file fs parse "app.py" st2) = Ret l2
       /\ heap (snd (analyze_file fs parse "app.py" st1)) !! l1 = Some d
       /\ heap (snd (analyze_file fs parse "app.py" st2)) !! l2 = Some d
       /\ d = analysis parse admin_py.
Proof.
  split; [reflexivity|].
  apply (analyze_file_deterministic (fs_single "app.py" admin_py)
           (parse_fails broken_error) "app.py" admin_py).
  reflexivity.
Defined.

Lemma no_syntax_error_in_map {A} (f : A -> issue) (l : list A) :
  (forall x, is_syntax_error (f x) = false) ->
  List.filter is_syntax_error (map f l) = [].
Proof.
  intros H. induction l as [|x l IH]; [reflexivity|].
  cbn. now rewrite H.
Qed.

(** C5: when the text does not parse, the general bucket holds the
    commented-code findings followed by one syntax-error finding, critical,
    with the parser's message and line; the security bucket holds the
    credentials and SQL findings of the raw text; no other finding is a
    syntax error. *)
Theorem parse_failure_reported_once
    (fs : string -> file) (ast_parse : string -> parse_result)
    (file_path code : string) (e : SyntaxError) (st : state) :
  fs file_path = File code ->
  ast_parse code = ParseError e ->
  exists l d,
    fst (analyze_file fs ast_parse file_path st) = Ret l
    /\ heap (snd (analyze_file fs ast_parse file_path st)) !! l = Some d
    /\ d !! "general" = Some (commented_code_findings code ++ [syntax_error_issue e])
    /\ d !! "security" = Some (credentials_findings code ++ sql_findings code)
    /\ d !! "performance" = Some []
    /\ List.filter is_syntax_error
         (commented_code_findings code ++ [syntax_error_issue e]
          ++ credentials_findings code ++ sql_findings code)
       = [syntax_error_issue e]
    /\ syntax_error_issue e
       = {| type := "syntax_error";
            message := "Syntax error: " +:+ se_str e;
            line := se_lineno e;
            severity := "critical" |}.
Proof.
  intros Hf He.
  destruct (analyze_file_result fs ast_parse file_path code st Hf) as (l & R & H).
  exists l, (analysis ast_parse code). split; [exact R|]. split; [exact H|].
  rewrite analysis_general, analysis_security, analysis_performance.
  unfold general_findings, performance_findings, security_findings. rewrite He.
  repeat split.
  rewrite !List.filter_app.
  unfold commented_code_findings, credentials_findings, sql_findings.
  rewrite !no_syntax_error_in_map by reflexivity. reflexivity.
Qed.

Lemma parse_failure_reported_once_witness :
  fs_single "broken.py" broken_py "broken.py" = File broken_py
  /\ parse_fails broken_error broken_py = ParseError broken_error
  /\ exists l d,
       let fs := fs_single "broken.py" broken_py in
       let parse := parse_fails broken_error in
       let st := init "review_templates" in
       fst (analyze_file fs parse "broken.py" st) = Ret l
       /\ heap (snd (analyze_file fs parse "broken.py" st)) !! l = Some d
       /\ d !! "general"
          = Some (commented_code_findings broken_py ++ [syntax_error_issue broken_error])
       /\ d !! "security"
          = Some (credentials_findings broken_py ++ sql_findings broken_py)
       /\ d !! "performance" = Some []
       /\ List.filter is_syntax_error
            (commented_code_findings broken_py ++ [syntax_error_issue broken_error]
             ++ credentials_findings broken_py ++ sql_findings broken_py)
          = [syntax_error_issue broken_error]
       /\ syntax_error_issue broken_error
          = {| type := "syntax_error";
               message := "Syntax error: " +:+ se_str broken_error;
               line := se_lineno broken_error;
               severity := "critical" |}.
Proof.
  split; [reflexivity|]. split; [reflexivity|].
  apply (parse_failure_reported_once (fs_single "broken.py" broken_py)
           (parse_fails broken_error) "broken.py" broken_py broken_error);
    reflexivity.
Defined.

(** ** The renderer *)

Lemma string_app_assoc (a b c : string) : (a +:+ b) +:+ c = a +:+ (b +:+ c).
Proof.
  induction a as [|x a IH]; [reflexivity|].
  change (String x ((a +:+ b) +:+ c) = String x (a +:+ (b +:+ c))).
  now rewrite IH.
Qed.

Lemma string_app_nil_r (a : string) : a +:+ "" = a.
Proof.
  induction a as [|x a IH]; [reflexivity|].
  change (String x (a +:+ "") = String x a). now rewrite IH.
Qed.

Lemma fold_left_issue_lines (bucket : list issue) : forall review,
  fold_left (fun review issue => review +:+ issue_line issue) bucket review
  = review +:+ issue_lines bucket.
Proof.
  induction bucket as [|i bucket IH]; intros review; cbn [fold_left issue_lines fold_right].
  - now rewrite string_app_nil_r.
  - rewrite IH. apply string_app_assoc.
Qed.

(** C9: a call of [generate_review] changes no dictionary and no attribute
    of the assistant; it can only print. *)
Theorem generate_review_preserves_results
    (fs : string -> file) (issues : loc) (template_type : string) (st : state) :
  heap (snd (generate_review fs issues template_type st)) = heap st
  /\ issues_found (snd (generate_review fs issues template_type st)) = issues_found st
  /\ template_dir (snd (generate_review fs issues template_type st)) = template_dir st.
Proof.
  unfold generate_review, bind, load_template.
  destruct (fs (os_path_join (template_dir st) (template_type +:+ ".md")))
    as [content| |]; cbn.
  - destruct (String.eqb content ""); cbn; [auto|].
    unfold deref. destruct (heap st !! issues) as [d|]; cbn; [|auto].
    destruct (d !! template_type) as [[|i rest]|]; cbn; auto.
  - auto.
  - auto.
Qed.

(** C6, as stated, does not hold: a template file that exists and is
    empty is answered with the fallback string, not with the template, the
    header and the lines of the findings. *)
Lemma empty_template_gets_fallback :
  empty_template_fs (os_path_join "review_templates" ("security" +:+ ".md")) = File ""
  /\ fst (generate_review empty_template_fs 0 "security" one_finding_state)
     = Ret "No template found"
  /\ fst (generate_review empty_template_fs 0 "security" one_finding_state)
     <> Ret (spec_render (Some "") [credentials_issue 1]).
Proof.
  split; [reflexivity|]. split; [reflexivity|]. discriminate.
Qed.

(** C6, amended: [generate_review] returns the fallback string when the
    template file is missing or empty, without raising; for a non-empty
    template it returns the template, the header, and then one line per
    finding of the category, or the fixed line when the category is absent
    or has no finding. *)
Theorem generate_review_spec
    (fs : string -> file) (issues : loc) (template_type : string)
    (st : state) (d : results) :
  heap st !! issues = Some d ->
  (fs (os_path_join (template_dir st) (template_type +:+ ".md")) = Missing ->
   fst (generate_review fs issues template_type st) = Ret "No template found")
  /\ (fs (os_path_join (template_dir st) (template_type +:+ ".md")) = File "" ->
      fst (generate_review fs issues template_type st) = Ret "No template found")
  /\ (forall template,
        fs (os_path_join (template_dir st) (template_type +:+ ".md")) = File template ->
        template <> "" ->
        fst (generate_review fs issues template_type st)
        = Ret (template +:+ issues_header +:+ review_body (d !! template_type))).
Proof.
  intros Hd. unfold generate_review, bind, load_template. repeat split.
  - intros ->. reflexivity.
  - intros ->. reflexivity.
  - intros template -> Hne. cbn.
    destruct (String.eqb_spec template "") as [->|_]; [congruence|].
    unfold deref. rewrite Hd.
    destruct (d !! template_type) as [[|i rest]|]; unfold ret; cbn [fst review_body].
    + now rewrite string_app_assoc.
    + rewrite fold_left_issue_lines. cbn [issue_lines fold_right].
      now rewrite !string_app_assoc.
    + now rewrite string_app_assoc.
Qed.

Lemma generate_review_spec_witness :
  heap one_finding_state !! 0 = Some (<["security" := [credentials_issue 1]]> empty_results)
  /\ fst (generate_review empty_template_fs 0 "security" one_finding_state)
     = Ret "No template found"
  /\ fst (generate_review (fun _ => Missing) 0 "security" one_finding_state)
     = Ret "No template found"
  /\ fst (generate_review security_template_fs 0 "security" one_finding_state)
     = Ret ("# Security review" +:+ issues_header
            +:+ review_body (Some [credentials_issue 1])).
Proof.
  split; [reflexivity|].
  pose proof (fun fs => generate_review_spec fs 0 "security" one_finding_state
                          (<["security" := [credentials_issue 1]]> empty_results)
                          eq_refl) as H.
  split; [|split].
  - destruct (H empty_template_fs) as (_ & H2 & _). apply H2. reflexivity.
  - destruct (H (fun _ => Missing)) as (H1 & _ & _). apply H1. reflexivity.
  - destruct (H security_template_fs) as (_ & _ & H3).
    apply (H3 "# Security review"); [reflexivity | discriminate].
Defined.

(** ** The nested-loop detector *)

(** C2, as stated, does not hold: a [for] loop whose body is a
    [while] loop is a loop node with a loop node below it, and the detector
    reports nothing. *)
Lemma while_inside_for_not_reported :
  _analyze_performance_issues (parse_as for_while_tree) for_while_py "loops.py"
    (init "review_templates")
  = (Ret tt, init "review_templates")
  /\ nested_loop_findings for_while_tree = []
  /\ spec_nested_loop_findings for_while_tree
     = [{| type := "nested_loops";
           message := "Nested loops detected (potential O(n²) complexity)";
           line := Some 1;
           severity := "moderate" |}].
Proof. repeat split. Qed.

(** C2, amended: for every [For] node of the parsed tree that has a [For]
    node among its descendants, the detector appends exactly one finding,
    moderate, of type nested_loops, at the line of that outer node, in the
    order of [ast.walk], and nothing for any other node; [ast.walk] yields
    every node of the tree exactly once.  Loops of other kinds ([while],
    [async for]) count neither as outer nor as inner loop. *)
Theorem nested_for_detector_spec
    (ast_parse : string -> parse_result) (code file_path : string)
    (tree : node) (st : state) (d : results) (l : list issue) :
  ast_parse code = Parsed tree ->
  points_to st d ->
  d !! "performance" = Some l ->
  _analyze_performance_issues ast_parse code file_path st
  = (Ret tt,
     with_dict
       (<["performance" :=
            l ++ map (fun e => nested_loops_issue (snd e))
                     (List.filter (fun e => isinstance (snd e) For
                                            && has_for_descendant (snd e))
                                  (walk tree))]> d) st)
  /\ walk tree ≡ₚ subtree [] tree
  /\ NoDup (map fst (walk tree))
  /\ (forall n, nested_loops_issue n
                = {| type := "nested_loops";
                     message := "Nested loops detected (potential O(n²) complexity)";
                     line := Some (node_lineno n);
                     severity := "moderate" |}).
Proof.
  intros Hparse Hp Hl.
  split; [|split; [apply walk_subtree | split; [apply walk_NoDup | reflexivity]]].
  rewrite (analyze_performance_spec _ _ _ _ _ _ Hp Hl).
  unfold performance_findings. rewrite Hparse.
  unfold nested_loop_findings, nested_issue.
  rewrite <- omap_if. do 4 f_equal.
  apply list_omap_ext. apply Forall2_same_length_lookup. split; [reflexivity|].
  intros i x y Hx Hy. rewrite Hx in Hy. injection Hy as <-.
  unfold has_for_descendant. now rewrite has_nested_for_descendants.
Qed.

Lemma nested_for_detector_spec_witness :
  parse_as nested_for_tree nested_for_py = Parsed nested_for_tree
  /\ points_to (init "review_templates") empty_results
  /\ empty_results !! "performance" = Some []
  /\ _analyze_performance_issues (parse_as nested_for_tree) nested_for_py "loops.py"
       (init "review_templates")
     = (Ret tt,
        with_dict
          (<["performance" :=
               [] ++ map (fun e => nested_loops_issue (snd e))
                         (List.filter (fun e => isinstance (snd e) For
                                                && has_for_descendant (snd e))
                                      (walk nested_for_tree))]> empty_results)
          (init "review_templates")).
Proof.
  split; [reflexivity|]. split; [reflexivity|]. split; [reflexivity|].
  apply (nested_for_detector_spec (parse_as nested_for_tree) nested_for_py "loops.py"
           nested_for_tree (init "review_templates") empty_results []);
    reflexivity.
Defined.

(** ** The credentials detector *)

(** C4, as stated, does not hold: the only identifiers of
    [monkey = DQ banana DQ] are monkey and banana, neither is a credential
    word, and the detector reports a finding on line 1. *)
Lemma monkey_is_flagged :
  credentials_findings monkey_py = [credentials_issue 1]
  /\ spec_identifiers (chars monkey_py) = [chars "monkey"; chars "banana"]
  /\ existsb spec_is_credential_word (spec_identifiers (chars monkey_py)) = false.
Proof. repeat split. Qed.

(** C4, amended: the detector appends one critical hardcoded_credentials
    finding per match of the scan from left to right; a match is one of the
    seven words up to case as [re.IGNORECASE] has it (as a piece of text, so
    also as the end of a longer identifier), optional white space as [\s]
    has it, an equals sign, optional white space, and a non-empty literal
    between two equal quotes.  The scan reports the first position at which
    such a text starts, resumes where it ends, and so on: the matches, and
    with them the findings, are determined by this description.  Up to case
    means: letter by letter the same, where beside its two cases the letter
    i is also written U+0130 or U+0131, s also U+017F, and k also U+212A.
    [password = DQ admin123 DQ] yields exactly one finding, on line 1. *)
Theorem credentials_detector_spec (code : string) :
  (forall file_path st d l,
      points_to st d -> d !! "security" = Some l ->
      _analyze_security_issues code file_path st
      = (Ret tt,
         with_dict (<["security" := l ++ credentials_findings code
                                       ++ sql_findings code]> d) st))
  /\ credentials_findings code
     = map (fun m => {| type := "hardcoded_credentials";
                        message := "Hardcoded credentials detected";
                        line := Some (line_number code (m_start m));
                        severity := "critical" |})
           (finditer IGNORECASE password_pattern (chars code))
  /\ StronglySorted match_before (finditer IGNORECASE password_pattern (chars code))
  /\ (forall m, m ∈ finditer IGNORECASE password_pattern (chars code) ->
        credential_assignment (slice (chars code) (m_start m) (m_end m)))
  /\ (forall pre u rest,
        chars code = pre ++ u ++ rest -> credential_assignment u ->
        exists m, m ∈ finditer IGNORECASE password_pattern (chars code)
          /\ (m_start m = length pre \/ m_start m < length pre < m_end m))
  /\ leftmost_scan
       (fun i e => i <= e <= length (chars code)
                   /\ credential_assignment (slice (chars code) i e))
       (length (chars code)) 0
       (finditer IGNORECASE password_pattern (chars code))
  /\ (forall ms,
        leftmost_scan
          (fun i e => i <= e <= length (chars code)
                      /\ credential_assignment (slice (chars code) i e))
          (length (chars code)) 0 ms ->
        ms = finditer IGNORECASE password_pattern (chars code))
  /\ (forall c l,
        is_lower l = true ->
        fold c = l
        <-> c = l \/ c = (l - 32)%N
            \/ (l = cp "i" /\ (c = 0x130%N \/ c = 0x131%N))
            \/ (l = cp "s" /\ c = 0x17f%N)
            \/ (l = cp "k" /\ c = 0x212a%N))
  /\ credentials_findings admin_py = [credentials_issue 1].
Proof.
  split; [|split; [reflexivity|split; [apply finditer_ordered|]]].
  - intros file_path st d l Hp Hl.
    now rewrite (analyze_security_spec _ _ _ _ _ Hp Hl).
  - destruct (finditer_shape IGNORECASE password_pattern credential_assignment
                lang_password (chars code)) as [H1 H2].
    split; [exact H1|]. split; [exact H2|].
    destruct (finditer_determined IGNORECASE password_pattern
                (fun i e => i <= e <= length (chars code)
                            /\ credential_assignment (slice (chars code) i e))
                (chars code)) as [H3 H4].
    + intros prev t len.
      apply (patterns_consume "hardcoded_credentials"). unfold text_detectors.
      apply list_elem_of_further, list_elem_of_here.
    + intros i e Hi. now apply password_attempt.
    + split; [exact H3|]. split; [exact H4|].
      split; [exact fold_letter | reflexivity].
Qed.

Lemma admin_py_is_assignment : credential_assignment (chars admin_py).
Proof.
  exists (chars "password"), (chars " "), (chars " "),
         (chr_dquote :: chars "admin123" ++ [chr_dquote]).
  split; [reflexivity|]. split.
  { exists "password". split; [|reflexivity]. apply list_elem_of_here. }
  split; [repeat constructor|]. split; [repeat constructor|].
  exists chr_dquote, (chars "admin123").
  split; [reflexivity|]. split; [now right|]. split; [discriminate|].
  apply not_elem_Forall_neqb. repeat constructor.
Defined.

Lemma credentials_detector_spec_witness :
  points_to (init "review_templates") empty_results
  /\ empty_results !! "security" = Some []
  /\ mkMatch 0 21 ∈ finditer IGNORECASE password_pattern (chars admin_py)
  /\ chars admin_py = [] ++ chars admin_py ++ []
  /\ credential_assignment (chars admin_py)
  /\ _analyze_security_issues admin_py "app.py" (init "review_templates")
     = (Ret tt,
        with_dict (<["security" := [] ++ credentials_findings admin_py
                                      ++ sql_findings admin_py]> empty_results)
                  (init "review_templates"))
  /\ credential_assignment (slice (chars admin_py) 0 21)
  /\ exists m, m ∈ finditer IGNORECASE password_pattern (chars admin_py)
       /\ (m_start m = 0 \/ m_start m < 0 < m_end m).
Proof.
  assert (Hin : mkMatch 0 21 ∈ finditer IGNORECASE password_pattern (chars admin_py))
    by (vm_compute; apply list_elem_of_here).
  destruct (credentials_detector_spec admin_py) as (H1 & _ & _ & H3 & H4 & _ & _ & _ & _).
  split; [reflexivity|]. split; [reflexivity|]. split; [exact Hin|].
  split; [reflexivity|]. split; [exact admin_py_is_assignment|].
  split; [apply H1; reflexivity|].
  split; [exact (H3 _ Hin)|].
  exact (H4 [] (chars admin_py) [] eq_refl admin_py_is_assignment).
Defined.

(** C10: a credential word followed by an assignment of an empty quoted
    literal starts no match, so no finding is reported for it; in particular
    [password = DQ DQ] yields no finding. *)
Theorem empty_literal_not_flagged
    (pre w ws1 ws2 : text) (q : char) (rest : text) :
  one_of_ignoring_case credential_words w ->
  all_space ws1 -> all_space ws2 -> is_quote q ->
  (forall prev,
      match_here IGNORECASE password_pattern prev
        (w ++ ws1 ++ cp "=" :: ws2 ++ q :: q :: rest) = None)
  /\ (forall m,
        m ∈ finditer IGNORECASE password_pattern
              (pre ++ w ++ ws1 ++ cp "=" :: ws2 ++ q :: q :: rest) ->
        m_start m <> length pre)
  /\ credentials_findings empty_password_py = [].
Proof.
  intros Hw H1 H2 Hq. split; [|split; [|reflexivity]].
  - intros prev. now apply empty_literal_no_match.
  - intros m Hm E. apply finditer_sound in Hm as [_ Hm].
    rewrite E, drop_app_length in Hm.
    now rewrite empty_literal_no_match in Hm.
Qed.

Lemma empty_literal_not_flagged_witness :
  one_of_ignoring_case credential_words (chars "password")
  /\ all_space (chars " ") /\ is_quote chr_dquote
  /\ (forall prev,
        match_here IGNORECASE password_pattern prev
          (chars "password" ++ chars " " ++ cp "=" :: chars " "
           ++ chr_dquote :: chr_dquote :: []) = None)
  /\ (forall m,
        m ∈ finditer IGNORECASE password_pattern
              (chars "x." ++ chars "password" ++ chars " " ++ cp "=" :: chars " "
               ++ chr_dquote :: chr_dquote :: []) ->
        m_start m <> 2).
Proof.
  assert (Hw : one_of_ignoring_case credential_words (chars "password")).
  { exists "password". split; [apply list_elem_of_here | reflexivity]. }
  assert (Hs : all_space (chars " ")) by (repeat constructor).
  assert (Hq : is_quote chr_dquote) by (now right).
  destruct (empty_literal_not_flagged (chars "x.") (chars "password") (chars " ")
              (chars " ") chr_dquote [] Hw Hs Hs Hq) as (H1 & H2 & _).
  split; [exact Hw|]. split; [exact Hs|]. split; [exact Hq|].
  split; [exact H1 | exact H2].
Defined.

(** ** The SQL-injection detector *)

(** C3, as stated, does not hold: in
    [q = f DQ SELECT 1 DQ ; opts = {}] the literal closes before the only
    opening brace, and the detector reports a finding on line 1. *)
Lemma brace_after_closed_literal_is_flagged :
  sql_findings closed_literal_py = [sql_injection_issue 1]
  /\ finditer IGNORECASE sql_pattern (chars closed_literal_py) = [mkMatch 4 25]
  /\ drop 4 (chars closed_literal_py)
     = cp "f" :: chr_dquote :: chars "SELECT" ++ chars " 1"
       ++ chr_dquote :: chars "; opts = {}"
  /\ spec_brace_before_close chr_dquote
       (chars " 1" ++ chr_dquote :: chars "; opts = {}") = false.
Proof. repeat split. Qed.

(** C3, amended: the detector appends one critical sql_injection finding
    per match of the scan from left to right; a match is the letter f in
    either case, a single or double quote, optional white space as [\s] has
    it, one of the five keywords up to case as [re.IGNORECASE] has it, any
    characters other than a newline and an opening brace, and the first
    opening brace that follows.  Every text of this shape, also with further
    braces before its last one, starts a match or lies across an earlier
    one; the scan reports the first position at which a match starts,
    resumes where it ends, and so on: the matches, and with them the
    findings, are determined by this description.  Whether the literal has
    closed before the brace is not examined. *)
Theorem sql_detector_spec (code : string) :
  (forall file_path st d l,
      points_to st d -> d !! "security" = Some l ->
      _analyze_security_issues code file_path st
      = (Ret tt,
         with_dict (<["security" := l ++ credentials_findings code
                                       ++ sql_findings code]> d) st))
  /\ sql_findings code
     = map (fun m => {| type := "sql_injection";
                        message := "Potential SQL injection vulnerability detected";
                        line := Some (line_number code (m_start m));
                        severity := "critical" |})
           (finditer IGNORECASE sql_pattern (chars code))
  /\ StronglySorted match_before (finditer IGNORECASE sql_pattern (chars code))
  /\ (forall m, m ∈ finditer IGNORECASE sql_pattern (chars code) ->
        sql_first_brace (slice (chars code) (m_start m) (m_end m)))
  /\ (forall pre u rest,
        chars code = pre ++ u ++ rest -> sql_interpolation u ->
        exists m, m ∈ finditer IGNORECASE sql_pattern (chars code)
          /\ (m_start m = length pre \/ m_start m < length pre < m_end m))
  /\ leftmost_scan
       (fun i e => i <= e <= length (chars code)
                   /\ sql_first_brace (slice (chars code) i e))
       (length (chars code)) 0
       (finditer IGNORECASE sql_pattern (chars code))
  /\ (forall ms,
        leftmost_scan
          (fun i e => i <= e <= length (chars code)
                      /\ sql_first_brace (slice (chars code) i e))
          (length (chars code)) 0 ms ->
        ms = finditer IGNORECASE sql_pattern (chars code)).
Proof.
  split; [|split; [reflexivity|split; [apply finditer_ordered|]]].
  - intros file_path st d l Hp Hl.
    now rewrite (analyze_security_spec _ _ _ _ _ Hp Hl).
  - destruct (finditer_shape IGNORECASE sql_pattern sql_interpolation
                lang_sql (chars code)) as [_ H2].
    split; [|split; [exact H2|]].
    + intros m Hm. apply finditer_sound in Hm as [_ Hm].
      apply match_here_sql_first in Hm as [_ Hm]. exact Hm.
    + apply (finditer_determined IGNORECASE sql_pattern).
      * intros prev t len.
        apply (patterns_consume "sql_injection"). unfold text_detectors.
        do 2 apply list_elem_of_further. apply list_elem_of_here.
      * intros i e Hi. now apply sql_attempt.
Qed.

Lemma closed_literal_is_interpolation :
  sql_interpolation (slice (chars closed_literal_py) 4 25).
Proof.
  exists (cp "f"), chr_dquote, [], (chars "SELECT"), (chars " 1" ++ chr_dquote :: chars "; opts = ").
  split; [reflexivity|]. split; [now left|]. split; [now right|].
  split; [constructor|]. split.
  { exists "SELECT". split; [apply list_elem_of_here | reflexivity]. }
  apply not_elem_Forall_neqb. repeat constructor.
Defined.

Lemma sql_detector_spec_witness :
  points_to (init "review_templates") empty_results
  /\ empty_results !! "security" = Some []
  /\ mkMatch 4 25 ∈ finditer IGNORECASE sql_pattern (chars closed_literal_py)
  /\ chars closed_literal_py
     = chars "q = " ++ slice (chars closed_literal_py) 4 25 ++ chars "}"
  /\ _analyze_security_issues closed_literal_py "app.py" (init "review_templates")
     = (Ret tt,
        with_dict (<["security" := [] ++ credentials_findings closed_literal_py
                                      ++ sql_findings closed_literal_py]> empty_results)
                  (init "review_templates"))
  /\ sql_interpolation (slice (chars closed_literal_py) 4 25)
  /\ sql_first_brace (slice (chars closed_literal_py) 4 25)
  /\ exists m, m ∈ finditer IGNORECASE sql_pattern (chars closed_literal_py)
       /\ (m_start m = 4 \/ m_start m < 4 < m_end m).
Proof.
  assert (Hin : mkMatch 4 25 ∈ finditer IGNORECASE sql_pattern (chars closed_literal_py))
    by (vm_compute; apply list_elem_of_here).
  assert (Hsplit : chars closed_literal_py
                   = chars "q = " ++ slice (chars closed_literal_py) 4 25 ++ chars "}")
    by (vm_compute; reflexivity).
  destruct (sql_detector_spec closed_literal_py) as (H1 & _ & _ & H3 & H4 & _ & _).
  split; [reflexivity|]. split; [reflexivity|]. split; [exact Hin|].
  split; [exact Hsplit|].
  split; [apply H1; reflexivity|].
  split; [exact closed_literal_is_interpolation|].
  split; [exact (H3 _ Hin)|].
  exact (H4 (chars "q = ") _ (chars "}") Hsplit closed_literal_is_interpolation).
Defined.

(** * Further properties of the module *)

(** ** The commented-code detector *)

Lemma plain_ws c : atom_matches MULTILINE (ASet false [SSpace]) c = is_space c.
Proof.
  cbn [atom_matches existsb xorb]. unfold item_matches.
  cbn [item_raw ignorecase MULTILINE andb]. now destruct (is_space c).
Qed.

Lemma lang_ws_star_plain g prev u rest :
  lang MULTILINE (RStar g (ASet false [SSpace])) prev u rest <-> all_space u.
Proof.
  cbn [lang]. unfold all_space.
  split; intros H; (eapply Forall_impl; [exact H|]); intros c; cbn beta;
    now rewrite plain_ws.
Qed.

(** Without [IGNORECASE] a literal word matches itself only. *)
Lemma lang_lit_exact fl w prev u rest :
  ignorecase fl = false ->
  lang fl (lit w) prev u rest <-> u = chars w.
Proof.
  intros Hfl. unfold lit. rewrite lang_lit_chars.
  generalize (chars w) as l. clear w.
  induction u as [|c u IH]; intros [|d l].
  - split; [reflexivity | constructor].
  - split; [inversion 1 | discriminate].
  - split; [inversion 1 | discriminate].
  - split.
    + intros H. apply Forall2_cons_inv_r in H as (c' & u' & Hc & Hu & [= <- <-]).
      cbn in Hc. rewrite Hfl in Hc. apply N.eqb_eq in Hc as ->.
      f_equal. now apply IH.
    + intros [= -> ->]. constructor; [|now apply IH].
      cbn. rewrite Hfl. apply N.eqb_refl.
Qed.

Lemma lang_commented_keywords prev u rest :
  lang MULTILINE
    (alts [lit "def"; lit "class"; lit "if"; lit "for"; lit "while"; lit "return"])
    prev u rest
  <-> exists kw, kw ∈ commented_keywords /\ u = chars kw.
Proof.
  rewrite lang_alts. split.
  - intros (r & Hr & L).
    change [lit "def"; lit "class"; lit "if"; lit "for"; lit "while"; lit "return"]
      with (lit <$> commented_keywords) in Hr.
    apply list_elem_of_fmap in Hr as (kw & -> & Hkw).
    exists kw. split; [exact Hkw|]. now apply lang_lit_exact in L.
  - intros (kw & Hkw & ->). exists (lit kw). split.
    + change [lit "def"; lit "class"; lit "if"; lit "for"; lit "while"; lit "return"]
        with (lit <$> commented_keywords).
      now apply list_elem_of_fmap_2.
    + now apply lang_lit_exact.
Qed.

Lemma keyword_ends_in_word kw prev :
  kw ∈ commented_keywords -> prev_is_word (last_char prev (chars kw)) = true.
Proof.
  unfold commented_keywords. intros H.
  repeat (apply elem_of_cons in H as [->|H]; [reflexivity|]).
  now apply elem_of_nil in H.
Qed.

Lemma lang_commented prev u rest :
  lang MULTILINE commented_code_pattern prev u rest <-> commented_code_line prev u rest.
Proof.
  unfold commented_code_pattern, commented_code_line. cbn [seqs lang]. split.
  - intros (u0 & t0 & -> & [-> Hbol] & ws1 & t1 & -> & L1 & h & t2 & -> & Lh
            & ws2 & t3 & -> & L2 & k & b & -> & Lk & -> & Hb).
    apply lang_ws_star_plain in L1, L2.
    apply lang_lit_exact in Lh as ->; [|reflexivity].
    apply lang_commented_keywords in Lk as (kw & Hkw & ->).
    split; [exact Hbol|]. exists ws1, ws2, kw. rewrite app_nil_r. cbn [app chars].
    repeat split; try assumption.
    rewrite (keyword_ends_in_word kw _ Hkw) in Hb. cbn in Hb.
    now apply negb_true_iff in Hb.
  - intros (Hbol & ws1 & ws2 & kw & -> & H1 & H2 & Hkw & Hn).
    exists [], (ws1 ++ cp "#" :: ws2 ++ chars kw). split; [reflexivity|].
    split; [now split|].
    exists ws1, (cp "#" :: ws2 ++ chars kw). split; [reflexivity|].
    split; [now apply lang_ws_star_plain|].
    exists [cp "#"], (ws2 ++ chars kw). split; [reflexivity|].
    split; [now apply lang_lit_exact|].
    exists ws2, (chars kw). split; [reflexivity|].
    split; [now apply lang_ws_star_plain|].
    exists (chars kw), []. split; [now rewrite app_nil_r|].
    split; [apply lang_commented_keywords; eauto|].
    split; [reflexivity|].
    rewrite (keyword_ends_in_word kw _ Hkw), Hn. reflexivity.
Qed.

Lemma commented_attempt (s : text) i e :
  i <= length s ->
  (i <= e /\ match_here MULTILINE commented_code_pattern (char_before None s i) (drop i s)
             = Some (e - i))
  <-> (i <= e <= length s
       /\ commented_code_line (char_before None s i) (slice s i e) (drop e s)).
Proof.
  apply (attempt_iff MULTILINE commented_code_pattern commented_code_line).
  - intros prev t len Hm.
    apply match_here_sound in Hm as (u & rest & -> & <- & L).
    rewrite length_app, take_app_length, drop_app_length. split; [lia|].
    now apply lang_commented in L.
  - intros prev u rest Hu. apply match_here_complete. now apply lang_commented.
  - intros prev u1 r1 u2 r2. apply commented_code_line_unique.
Qed.

(** What [finditer] reports, in terms of what the pattern matches. *)
Lemma finditer_lang fl r s m :
  m ∈ finditer fl r s ->
  m_start m <= length s
  /\ exists u rest,
       drop (m_start m) s = u ++ rest
       /\ slice s (m_start m) (m_end m) = u
       /\ drop (m_end m) s = rest
       /\ m_end m = m_start m + length u
       /\ lang fl r (char_before None s (m_start m)) u rest.
Proof.
  intros Hm. destruct (scan_sound _ _ _ _ _ _ _ Hm) as (i & len & Hi & -> & Hh).
  cbn [m_start m_end]. rewrite !Nat.add_0_l. split; [lia|].
  apply match_here_sound in Hh as (u & rest & E & Hlen & L).
  exists u, rest. split; [exact E|]. unfold slice.
  replace (i + len - i) with (length u) by lia.
  rewrite E, take_app_length. split; [reflexivity|]. split; [|split; [lia | exact L]].
  rewrite <- Hlen, <- drop_drop, E. now rewrite drop_app_length.
Qed.

Lemma char_before_bol s i :
  i <= length s ->
  at_bol MULTILINE (char_before None s i) = true ->
  i = 0 \/ s !! (i - 1) = Some chr_newline.
Proof.
  intros Hi Hbol. destruct i as [|i]; [now left|]. right.
  unfold char_before, last_char in Hbol.
  rewrite last_lookup, length_take, Nat.min_l in Hbol by exact Hi.
  rewrite lookup_take_lt in Hbol by lia. cbn [pred] in Hbol.
  replace (S i - 1) with i by lia.
  destruct (s !! i) as [c|] eqn:E.
  - cbn in Hbol. now apply N.eqb_eq in Hbol as ->.
  - apply lookup_ge_None in E. lia.
Qed.

(** X1: every match of the commented-code pattern starts at the start of the
    text or just after a newline, consists of optional white space, a hash,
    optional white space and one of the six keywords in lower case, and is
    not followed by a word character; conversely every such piece of text
    starts a reported match or lies across an earlier one.  The scan reports
    the first position at which such a text starts, resumes where it ends,
    and so on: the matches are determined by this description. *)
Theorem commented_code_match_shape (code : string) :
  (forall m,
      m ∈ finditer MULTILINE commented_code_pattern (chars code) ->
      (m_start m = 0 \/ chars code !! (m_start m - 1) = Some chr_newline)
      /\ (exists ws1 ws2 kw,
             slice (chars code) (m_start m) (m_end m)
             = ws1 ++ cp "#" :: ws2 ++ chars kw
             /\ all_space ws1 /\ all_space ws2 /\ kw ∈ commented_keywords)
      /\ next_is_word (drop (m_end m) (chars code)) = false)
  /\ (forall pre u rest,
         chars code = pre ++ u ++ rest ->
         commented_code_line (last_char None pre) u rest ->
         exists m,
           m ∈ finditer MULTILINE commented_code_pattern (chars code)
           /\ (m_start m = length pre \/ m_start m < length pre < m_end m))
  /\ leftmost_scan
       (fun i e => i <= e <= length (chars code)
                   /\ commented_code_line (char_before None (chars code) i)
                        (slice (chars code) i e) (drop e (chars code)))
       (length (chars code)) 0
       (finditer MULTILINE commented_code_pattern (chars code))
  /\ (forall ms,
        leftmost_scan
          (fun i e => i <= e <= length (chars code)
                      /\ commented_code_line (char_before None (chars code) i)
                           (slice (chars code) i e) (drop e (chars code)))
          (length (chars code)) 0 ms ->
        ms = finditer MULTILINE commented_code_pattern (chars code)).
Proof.
  split; [|split].
  - intros m Hm.
    apply finditer_lang in Hm as (Hlen & u & rest & _ & Hs & Hr & _ & L).
    apply lang_commented in L as (Hbol & ws1 & ws2 & kw & -> & H1 & H2 & Hkw & Hn).
    split; [now apply char_before_bol|]. rewrite Hs, Hr. eauto 10.
  - intros pre u rest E L. apply lang_commented in L.
    rewrite E.
    destruct (match_here_complete _ _ _ _ _ L) as [len Hlen].
    apply (finditer_complete _ _ _ (length pre) len).
    + rewrite length_app. lia.
    + unfold char_before. now rewrite take_app_length, drop_app_length.
  - apply (finditer_determined MULTILINE commented_code_pattern).
    + intros prev t len.
      apply (patterns_consume "commented_code"). unfold text_detectors.
      apply list_elem_of_here.
    + intros i e Hi. now apply commented_attempt.
Qed.

Lemma commented_code_match_shape_witness :
  mkMatch 6 13 ∈ finditer MULTILINE commented_code_pattern
                   (chars ("x = 1" +:+ nl +:+ "  # def f():"))
  /\ chars ("x = 1" +:+ nl +:+ "  # def f():")
     = chars ("x = 1" +:+ nl) ++ chars "  # def" ++ chars " f():"
  /\ commented_code_line (last_char None (chars ("x = 1" +:+ nl)))
       (chars "  # def") (chars " f():")
  /\ (6 = 0 \/ chars ("x = 1" +:+ nl +:+ "  # def f():") !! (6 - 1) = Some chr_newline)
  /\ exists m,
       m ∈ finditer MULTILINE commented_code_pattern
             (chars ("x = 1" +:+ nl +:+ "  # def f():"))
       /\ (m_start m = 6 \/ m_start m < 6 < m_end m).
Proof.
  assert (Hin : mkMatch 6 13 ∈ finditer MULTILINE commented_code_pattern
                                 (chars ("x = 1" +:+ nl +:+ "  # def f():")))
    by (vm_compute; apply list_elem_of_here).
  assert (Hline : commented_code_line (last_char None (chars ("x = 1" +:+ nl)))
                    (chars "  # def") (chars " f():")).
  { split; [reflexivity|]. exists (chars "  "), (chars " "), "def".
    split; [reflexivity|]. split; [repeat constructor|]. split; [repeat constructor|].
    split; [apply list_elem_of_here | reflexivity]. }
  destruct (commented_code_match_shape ("x = 1" +:+ nl +:+ "  # def f():"))
    as (H1 & H2 & _).
  split; [exact Hin|]. split; [reflexivity|]. split; [exact Hline|].
  split; [exact (proj1 (H1 _ Hin))|].
  exact (H2 (chars ("x = 1" +:+ nl)) (chars "  # def") (chars " f():") eq_refl Hline).
Defined.

Lemma finditer_first fl r c s len :
  match_here fl r None (c :: s) = Some len ->
  exists tail, finditer fl r (c :: s) = mkMatch 0 len :: tail.
Proof.
  intros H. unfold finditer. cbn [scan]. rewrite H. eauto.
Qed.

Lemma count_newlines_app (u v : text) :
  count_occ N.eq_dec (u ++ v) chr_newline
  = count_occ N.eq_dec u chr_newline + count_occ N.eq_dec v chr_newline.
Proof. apply count_occ_app. Qed.

(** X2: when only white space precedes a commented-out keyword in the text,
    the first commented-code finding is reported on line 1, while the hash
    itself sits on line 1 + (number of newlines in that white space): after
    blank lines the reported line is not the line of the comment. *)
Theorem commented_code_after_blank_lines
    (code : string) (ws ws2 : text) (kw : string) (rest : text) :
  chars code = ws ++ cp "#" :: ws2 ++ chars kw ++ rest ->
  all_space ws -> all_space ws2 ->
  kw ∈ commented_keywords ->
  next_is_word rest = false ->
  (exists tail, commented_code_findings code = commented_code_issue 1 :: tail)
  /\ line_number code (length ws) = count_occ N.eq_dec ws chr_newline + 1.
Proof.
  intros E H1 H2 Hkw Hn. split.
  - assert (L : commented_code_line None (ws ++ cp "#" :: ws2 ++ chars kw) rest).
    { split; [reflexivity|]. exists ws, ws2, kw. auto. }
    apply lang_commented in L.
    destruct (match_here_complete _ _ _ _ _ L) as [len Hlen].
    unfold commented_code_findings.
    replace (chars code) with ((ws ++ cp "#" :: ws2 ++ chars kw) ++ rest)
      by (rewrite E, <- app_assoc; cbn; now rewrite <- app_assoc).
    destruct ((ws ++ cp "#" :: ws2 ++ chars kw) ++ rest) as [|c s] eqn:Es.
    { destruct ws; discriminate Es. }
    destruct (finditer_first _ _ _ _ _ Hlen) as [tail ->].
    exists (map (fun m => commented_code_issue (line_number code (m_start m))) tail).
    reflexivity.
  - unfold line_number. now rewrite E, take_app_length.
Qed.

Lemma commented_code_after_blank_lines_witness :
  (exists tail,
      commented_code_findings (nl +:+ nl +:+ "# def f():")
      = commented_code_issue 1 :: tail)
  /\ line_number (nl +:+ nl +:+ "# def f():") 2 = 3.
Proof.
  apply (commented_code_after_blank_lines (nl +:+ nl +:+ "# def f():")
           (chars (nl +:+ nl)) (chars " ") "def" (chars " f():")).
  - reflexivity.
  - repeat constructor.
  - repeat constructor.
  - apply list_elem_of_here.
  - reflexivity.
Defined.

(** ** What the text detectors need, and the lines they report *)

Lemma finditer_none fl r s :
  (forall m, m ∈ finditer fl r s -> False) -> finditer fl r s = [].
Proof.
  intros H. destruct (finditer fl r s) as [|m ms]; [reflexivity|].
  destruct (H m). apply list_elem_of_here.
Qed.

Lemma finditer_mark fl r s (c : char) :
  (forall prev u rest, lang fl r prev u rest -> c ∈ u) ->
  c ∉ s -> finditer fl r s = [].
Proof.
  intros Hmark Hc. apply finditer_none. intros m Hm.
  apply finditer_lang in Hm as (_ & u & rest & E & _ & _ & _ & L).
  apply Hmark in L. apply Hc.
  apply (subseteq_drop (m_start m)). rewrite E. apply elem_of_app. now left.
Qed.

Lemma quoted_literal_has_quote u :
  quoted_literal u -> chr_squote ∈ u \/ chr_dquote ∈ u.
Proof.
  intros (q & body & -> & [-> | ->] & _); [left | right]; apply list_elem_of_here.
Qed.

(** X3: a text without a hash has no commented-code finding, a text without
    an equals sign has no credentials finding, a text without an opening
    brace has no SQL finding, and a text without any quote character has no
    security finding at all. *)
Theorem detectors_need_their_marks (code : string) :
  (cp "#" ∉ chars code -> commented_code_findings code = [])
  /\ (cp "=" ∉ chars code -> credentials_findings code = [])
  /\ (cp "{" ∉ chars code -> sql_findings code = [])
  /\ (chr_squote ∉ chars code -> chr_dquote ∉ chars code ->
      security_findings code = []).
Proof.
  assert (Hhash : forall prev u rest,
             lang MULTILINE commented_code_pattern prev u rest -> cp "#" ∈ u).
  { intros prev u rest L.
    apply lang_commented in L as (_ & ws1 & ws2 & kw & -> & _).
    apply elem_of_app. right. apply list_elem_of_here. }
  assert (Heq : forall prev u rest,
             lang IGNORECASE password_pattern prev u rest -> cp "=" ∈ u).
  { intros prev u rest L.
    apply lang_password in L as (w & ws1 & ws2 & lt & -> & _).
    rewrite !elem_of_app. right. right. apply list_elem_of_here. }
  assert (Hbrace : forall prev u rest,
             lang IGNORECASE sql_pattern prev u rest -> cp "{" ∈ u).
  { intros prev u rest L.
    apply lang_sql in L as (f & q & ws & kw & mid & -> & _).
    do 2 apply list_elem_of_further. rewrite !elem_of_app. right. right. right.
    apply list_elem_of_here. }
  repeat split.
  - intros H. unfold commented_code_findings.
    now rewrite (finditer_mark _ _ _ _ Hhash H).
  - intros H. unfold credentials_findings.
    now rewrite (finditer_mark _ _ _ _ Heq H).
  - intros H. unfold sql_findings.
    now rewrite (finditer_mark _ _ _ _ Hbrace H).
  - intros Hs Hd. unfold security_findings, credentials_findings, sql_findings.
    rewrite (finditer_none IGNORECASE password_pattern).
    + rewrite (finditer_none IGNORECASE sql_pattern); [reflexivity|].
      intros m Hm.
      apply finditer_lang in Hm as (_ & u & rest & E & _ & _ & _ & L).
      apply lang_sql in L as (f & q & ws & kw & mid & -> & _ & Hq & _).
      assert (Hin : q ∈ chars code).
      { apply (subseteq_drop (m_start m)). rewrite E.
        apply elem_of_app. left. apply list_elem_of_further, list_elem_of_here. }
      destruct Hq as [-> | ->]; auto.
    + intros m Hm.
      apply finditer_lang in Hm as (_ & u & rest & E & _ & _ & _ & L).
      apply lang_password in L as (w & ws1 & ws2 & lt & -> & _ & _ & _ & Hl).
      assert (Hsub : forall c, c ∈ lt -> c ∈ chars code).
      { intros c Hc. apply (subseteq_drop (m_start m)). rewrite E.
        rewrite !elem_of_app. left. right. right.
        apply list_elem_of_further. apply elem_of_app. now right. }
      apply quoted_literal_has_quote in Hl as [Hl|Hl]; apply Hsub in Hl; auto.
Qed.

Ltac not_in_list :=
  let H := fresh in
  intros H;
  repeat (apply elem_of_cons in H as [H|H]; [discriminate H|]);
  now apply elem_of_nil in H.

Lemma detectors_need_their_marks_witness :
  (cp "#" ∉ chars admin_py) /\ (cp "{" ∉ chars admin_py)
  /\ (chr_squote ∉ chars "x = 1") /\ (chr_dquote ∉ chars "x = 1")
  /\ (cp "=" ∉ chars "# def f():")
  /\ commented_code_findings admin_py = []
  /\ credentials_findings "# def f():" = []
  /\ sql_findings admin_py = []
  /\ security_findings "x = 1" = [].
Proof.
  assert (H1 : cp "#" ∉ chars admin_py) by (vm_compute; not_in_list).
  assert (H2 : cp "{" ∉ chars admin_py) by (vm_compute; not_in_list).
  assert (H3 : chr_squote ∉ chars "x = 1") by (vm_compute; not_in_list).
  assert (H4 : chr_dquote ∉ chars "x = 1") by (vm_compute; not_in_list).
  assert (H5 : cp "=" ∉ chars "# def f():") by (vm_compute; not_in_list).
  split; [exact H1|]. split; [exact H2|]. split; [exact H3|].
  split; [exact H4|]. split; [exact H5|].
  split; [exact (proj1 (detectors_need_their_marks admin_py) H1)|].
  split; [exact (proj1 (proj2 (detectors_need_their_marks "# def f():")) H5)|].
  split; [exact (proj1 (proj2 (proj2 (detectors_need_their_marks admin_py))) H2)|].
  exact (proj2 (proj2 (proj2 (detectors_need_their_marks "x = 1"))) H3 H4).
Defined.

Lemma count_take_mono (s : text) (c : char) : forall i j,
  i <= j -> count_occ N.eq_dec (take i s) c <= count_occ N.eq_dec (take j s) c.
Proof.
  intros i j Hij. replace j with (i + (j - i)) by lia.
  rewrite <- take_take_drop, count_occ_app. lia.
Qed.

Lemma count_take_le (s : text) (c : char) i :
  count_occ N.eq_dec (take i s) c <= count_occ N.eq_dec s c.
Proof.
  rewrite <- (take_drop i s) at 2. rewrite count_occ_app. lia.
Qed.

Lemma line_number_mono code i j : i <= j -> line_number code i <= line_number code j.
Proof.
  intros Hij. unfold line_number.
  pose proof (count_take_mono (chars code) chr_newline i j Hij). lia.
Qed.

Lemma ordered_lines code (ms : list match_obj) :
  StronglySorted match_before ms ->
  StronglySorted le (map (fun m => line_number code (m_start m)) ms).
Proof.
  induction 1 as [|m ms Hs IH Hall]; cbn [map]; constructor; [exact IH|].
  apply Forall_forall. intros n Hn.
  apply (list_elem_of_fmap (fun m => line_number code (m_start m))) in Hn
    as (m' & -> & Hm').
  rewrite Forall_forall in Hall. destruct (Hall m' Hm') as [Hlt _].
  apply line_number_mono. lia.
Qed.

Lemma text_findings_lines mk fl r code :
  (forall n, line (mk n) = Some n) ->
  map line (text_findings mk fl r code)
  = map Some (map (fun m => line_number code (m_start m))
                  (finditer fl r (chars code))).
Proof.
  intros Hmk. unfold text_findings. rewrite !map_map.
  apply map_ext. intros m. apply Hmk.
Qed.

(** X4: within each text detector the findings come in source order: their
    line numbers never decrease along the bucket. *)
Theorem text_findings_in_line_order (code : string) :
  (exists ls, map line (commented_code_findings code) = map Some ls
              /\ StronglySorted le ls)
  /\ (exists ls, map line (credentials_findings code) = map Some ls
                 /\ StronglySorted le ls)
  /\ (exists ls, map line (sql_findings code) = map Some ls
                 /\ StronglySorted le ls).
Proof.
  assert (H : forall mk fl r,
             (forall n, line (mk n) = Some n) ->
             exists ls, map line (text_findings mk fl r code) = map Some ls
                        /\ StronglySorted le ls).
  { intros mk fl r Hmk. eexists. split; [now apply text_findings_lines|].
    apply ordered_lines, finditer_ordered. }
  split; [|split].
  - apply (H commented_code_issue MULTILINE commented_code_pattern). reflexivity.
  - apply (H credentials_issue IGNORECASE password_pattern). reflexivity.
  - apply (H sql_injection_issue IGNORECASE sql_pattern). reflexivity.
Qed.

(** X5: the line of every finding of a text detector lies between 1 and the
    number of lines of the text, that is 1 + (number of its newline
    characters). *)
Theorem text_findings_line_bounds (code : string) (i : issue) :
  i ∈ commented_code_findings code ++ credentials_findings code ++ sql_findings code ->
  exists n, line i = Some n
            /\ 1 <= n <= count_occ N.eq_dec (chars code) chr_newline + 1.
Proof.
  assert (H : forall mk fl r,
             (forall n, line (mk n) = Some n) ->
             i ∈ text_findings mk fl r code ->
             exists n, line i = Some n
                       /\ 1 <= n <= count_occ N.eq_dec (chars code) chr_newline + 1).
  { intros mk fl r Hmk Hi. unfold text_findings in Hi.
    apply (list_elem_of_fmap (fun m => mk (line_number code (m_start m)))) in Hi
      as (m & -> & _).
    exists (line_number code (m_start m)). split; [apply Hmk|].
    unfold line_number.
    pose proof (count_take_le (chars code) chr_newline (m_start m)). lia. }
  rewrite !elem_of_app. intros [Hi|[Hi|Hi]].
  - now apply (H commented_code_issue MULTILINE commented_code_pattern).
  - now apply (H credentials_issue IGNORECASE password_pattern).
  - now apply (H sql_injection_issue IGNORECASE sql_pattern).
Qed.

Lemma text_findings_line_bounds_witness :
  credentials_issue 3
    ∈ commented_code_findings third_line_py ++ credentials_findings third_line_py
      ++ sql_findings third_line_py
  /\ exists n, line (credentials_issue 3) = Some n
               /\ 1 <= n <= count_occ N.eq_dec (chars third_line_py) chr_newline + 1.
Proof.
  assert (Hin : credentials_issue 3
                  ∈ commented_code_findings third_line_py
                    ++ credentials_findings third_line_py
                    ++ sql_findings third_line_py)
    by (vm_compute; apply list_elem_of_here).
  split; [exact Hin|].
  exact (text_findings_line_bounds third_line_py (credentials_issue 3) Hin).
Defined.

(** X19: the findings of the text detectors follow the matches one by one:
    the finding made for a match carries the line 1 + (number of newline
    characters of the text before the start of that match), so that a match
    at the start of the text is on line 1.  The credentials findings come
    first in the security bucket, then the SQL findings; the commented-code
    findings come first in the general bucket, before what the tree or the
    parser's error gives. *)
Theorem text_findings_count_newlines
    (ast_parse : string -> parse_result) (code file_path : string)
    (st : state) (d : results) (lg ls : list issue) :
  points_to st d ->
  d !! "general" = Some lg ->
  d !! "security" = Some ls ->
  _analyze_security_issues code file_path st
  = (Ret tt,
     with_dict
       (<["security" :=
            ls ++ map (fun m =>
                    {| type := "hardcoded_credentials";
                       message := "Hardcoded credentials detected";
                       line := Some (count_occ N.eq_dec (take (m_start m) (chars code))
                                       chr_newline + 1);
                       severity := "critical" |})
                  (finditer IGNORECASE password_pattern (chars code))
               ++ map (fun m =>
                    {| type := "sql_injection";
                       message := "Potential SQL injection vulnerability detected";
                       line := Some (count_occ N.eq_dec (take (m_start m) (chars code))
                                       chr_newline + 1);
                       severity := "critical" |})
                  (finditer IGNORECASE sql_pattern (chars code))]> d) st)
  /\ (forall tree,
        ast_parse code = Parsed tree ->
        _analyze_general_issues ast_parse code file_path st
        = (Ret tt,
           with_dict
             (<["general" :=
                  lg ++ map (fun m =>
                          {| type := "commented_code";
                             message := "Commented out code should be removed";
                             line := Some (count_occ N.eq_dec
                                             (take (m_start m) (chars code))
                                             chr_newline + 1);
                             severity := "minor" |})
                        (finditer MULTILINE commented_code_pattern (chars code))
                     ++ naming_findings tree]> d) st))
  /\ (forall e,
        ast_parse code = ParseError e ->
        _analyze_general_issues ast_parse code file_path st
        = (Ret tt,
           with_dict
             (<["general" :=
                  lg ++ map (fun m =>
                          {| type := "commented_code";
                             message := "Commented out code should be removed";
                             line := Some (count_occ N.eq_dec
                                             (take (m_start m) (chars code))
                                             chr_newline + 1);
                             severity := "minor" |})
                        (finditer MULTILINE commented_code_pattern (chars code))
                     ++ [syntax_error_issue e]]> d) st))
  /\ (forall m,
        m_start m = 0 ->
        count_occ N.eq_dec (take (m_start m) (chars code)) chr_newline + 1 = 1).
Proof.
  intros Hp Hg Hs. split; [|split; [|split]].
  - now rewrite (analyze_security_spec _ _ _ _ _ Hp Hs).
  - intros tree Hparse. rewrite (analyze_general_spec _ _ _ _ _ _ Hp Hg).
    unfold general_findings. now rewrite Hparse.
  - intros e Hparse. rewrite (analyze_general_spec _ _ _ _ _ _ Hp Hg).
    unfold general_findings. now rewrite Hparse.
  - intros m ->. reflexivity.
Qed.

Lemma text_findings_count_newlines_witness :
  points_to (init "review_templates") empty_results
  /\ empty_results !! "general" = Some []
  /\ empty_results !! "security" = Some []
  /\ finditer IGNORECASE password_pattern (chars third_line_py) = [mkMatch 7 28]
  /\ count_occ N.eq_dec (take 7 (chars third_line_py)) chr_newline + 1 = 3
  /\ _analyze_security_issues third_line_py "app.py" (init "review_templates")
     = (Ret tt,
        with_dict
          (<["security" :=
               [{| type := "hardcoded_credentials";
                   message := "Hardcoded credentials detected";
                   line := Some 3;
                   severity := "critical" |}]]> empty_results)
          (init "review_templates")).
Proof.
  split; [reflexivity|]. split; [reflexivity|]. split; [reflexivity|].
  split; [vm_compute; reflexivity|]. split; [vm_compute; reflexivity|].
  assert (Hfind :
    [] ++ map (fun m =>
             {| type := "hardcoded_credentials";
                message := "Hardcoded credentials detected";
                line := Some (count_occ N.eq_dec (take (m_start m) (chars third_line_py))
                                chr_newline + 1);
                severity := "critical" |})
           (finditer IGNORECASE password_pattern (chars third_line_py))
        ++ map (fun m =>
             {| type := "sql_injection";
                message := "Potential SQL injection vulnerability detected";
                line := Some (count_occ N.eq_dec (take (m_start m) (chars third_line_py))
                                chr_newline + 1);
                severity := "critical" |})
           (finditer IGNORECASE sql_pattern (chars third_line_py))
    = [{| type := "hardcoded_credentials";
          message := "Hardcoded credentials detected";
          line := Some 3;
          severity := "critical" |}])
    by (vm_compute; reflexivity).
  rewrite <- Hfind.
  exact (proj1 (text_findings_count_newlines (parse_as third_line_tree) third_line_py
                  "app.py" (init "review_templates") empty_results [] []
                  eq_refl eq_refl eq_refl)).
Defined.

(** ** What the credentials detector passes over *)

(** A match that starts at a credential word followed by white space and an
    equals sign continues with white space and a quoted literal. *)
Lemma assignment_parse prev w ws1 (tail : text) n :
  one_of_ignoring_case credential_words w ->
  all_space ws1 ->
  match_here IGNORECASE password_pattern prev (w ++ ws1 ++ cp "=" :: tail) = Some n ->
  exists ws2 lt rest, all_space ws2 /\ quoted_literal lt /\ tail = ws2 ++ lt ++ rest.
Proof.
  intros Hw H1 Hm.
  apply match_here_sound in Hm as (u & rest' & E & _ & L).
  apply lang_password in L as (w' & ws1' & ws2' & lt & -> & Hw' & H1' & H2' & Hl).
  exists ws2', lt, rest'. split; [exact H2'|]. split; [exact Hl|].
  repeat rewrite <- app_assoc in E. cbn [app] in E.
  rewrite <- (app_assoc ws2' lt rest') in E.
  destruct (head_after_spaces ws1 (cp "=") tail H1 eq_refl) as (b & r & Eb & Hb1).
  destruct (head_after_spaces ws1' (cp "=") (ws2' ++ lt ++ rest') H1' eq_refl)
    as (b' & r' & Eb' & Hb1').
  rewrite Eb, Eb' in E.
  apply (span_unique is_alpha) in E as (_ & -> & ->);
    [|now apply credential_word_alpha.. | assumption | assumption].
  rewrite <- Eb' in Eb.
  now apply (span_unique is_space) in Eb as (_ & _ & E);
    [|assumption..| reflexivity | reflexivity].
Qed.

Lemma no_match_no_finding fl r pre (s : text) :
  (forall prev, match_here fl r prev s = None) ->
  forall m, m ∈ finditer fl r (pre ++ s) -> m_start m <> length pre.
Proof.
  intros Hnone m Hm E. apply finditer_sound in Hm as [_ Hm].
  rewrite E, drop_app_length in Hm. now rewrite Hnone in Hm.
Qed.

(** X6: a comparison is not an assignment: at a credential word followed by
    a doubled equals sign no match starts, so no finding is reported for
    it. *)
Theorem comparison_not_flagged (pre w ws1 rest : text) :
  one_of_ignoring_case credential_words w ->
  all_space ws1 ->
  (forall prev,
      match_here IGNORECASE password_pattern prev
        (w ++ ws1 ++ cp "=" :: cp "=" :: rest) = None)
  /\ (forall m,
         m ∈ finditer IGNORECASE password_pattern
               (pre ++ w ++ ws1 ++ cp "=" :: cp "=" :: rest) ->
         m_start m <> length pre).
Proof.
  intros Hw H1.
  assert (Hnone : forall prev,
             match_here IGNORECASE password_pattern prev
               (w ++ ws1 ++ cp "=" :: cp "=" :: rest) = None).
  { intros prev. destruct (match_here _ _ _ _) as [n|] eqn:Hm; [exfalso | reflexivity].
    apply (assignment_parse _ _ _ _ _ Hw H1) in Hm
      as (ws2 & lt & rest' & H2 & (q & body & -> & Hq & _) & E).
    destruct ws2 as [|c ws2]; cbn in E; injection E as E _.
    - subst q. destruct Hq as [Hq|Hq]; discriminate Hq.
    - subst c. apply Forall_cons in H2 as [H2 _]. discriminate H2. }
  split; [exact Hnone | now apply no_match_no_finding].
Qed.

Lemma comparison_not_flagged_witness :
  one_of_ignoring_case credential_words (chars "token")
  /\ all_space (chars " ")
  /\ (forall prev,
         match_here IGNORECASE password_pattern prev
           (chars "token" ++ chars " " ++ cp "=" :: cp "="
            :: chars (" " +:+ dq +:+ "abc" +:+ dq)) = None)
  /\ (forall m,
         m ∈ finditer IGNORECASE password_pattern
               (chars "if " ++ chars "token" ++ chars " " ++ cp "=" :: cp "="
                :: chars (" " +:+ dq +:+ "abc" +:+ dq)) ->
         m_start m <> 3).
Proof.
  assert (Hw : one_of_ignoring_case credential_words (chars "token")).
  { exists "token". split; [|reflexivity]. unfold credential_words.
    do 5 apply list_elem_of_further. apply list_elem_of_here. }
  assert (Hs : all_space (chars " ")) by (repeat constructor).
  split; [exact Hw|]. split; [exact Hs|].
  exact (comparison_not_flagged (chars "if ") (chars "token") (chars " ")
           (chars (" " +:+ dq +:+ "abc" +:+ dq)) Hw Hs).
Defined.

(** X7: a literal that is opened and never closed by the same kind of quote
    starts no match: at a credential word assigned such a literal no finding
    is reported. *)
Theorem unclosed_literal_not_flagged
    (pre w ws1 ws2 : text) (q : char) (rest : text) :
  one_of_ignoring_case credential_words w ->
  all_space ws1 -> all_space ws2 -> is_quote q ->
  q ∉ rest ->
  (forall prev,
      match_here IGNORECASE password_pattern prev
        (w ++ ws1 ++ cp "=" :: ws2 ++ q :: rest) = None)
  /\ (forall m,
         m ∈ finditer IGNORECASE password_pattern
               (pre ++ w ++ ws1 ++ cp "=" :: ws2 ++ q :: rest) ->
         m_start m <> length pre).
Proof.
  intros Hw H1 H2 Hq Hrest.
  assert (Hnone : forall prev,
             match_here IGNORECASE password_pattern prev
               (w ++ ws1 ++ cp "=" :: ws2 ++ q :: rest) = None).
  { intros prev. destruct (match_here _ _ _ _) as [n|] eqn:Hm; [exfalso | reflexivity].
    apply (assignment_parse _ _ _ _ _ Hw H1) in Hm
      as (ws2' & lt & rest' & H2' & (q' & body & -> & Hq' & _) & E).
    cbn [app] in E. rewrite <- app_assoc in E. cbn [app] in E.
    apply (span_unique is_space) in E as (_ & <- & ->);
      [|assumption..| now apply quote_not_space | now apply quote_not_space].
    apply Hrest. rewrite elem_of_app. right. apply list_elem_of_here. }
  split; [exact Hnone | now apply no_match_no_finding].
Qed.

Lemma unclosed_literal_not_flagged_witness :
  one_of_ignoring_case credential_words (chars "token")
  /\ all_space (chars " ") /\ is_quote chr_dquote
  /\ (chr_dquote ∉ chars "abc'")
  /\ (forall prev,
         match_here IGNORECASE password_pattern prev
           (chars "token" ++ chars " " ++ cp "=" :: chars " "
            ++ chr_dquote :: chars "abc'") = None)
  /\ (forall m,
         m ∈ finditer IGNORECASE password_pattern
               ([] ++ chars "token" ++ chars " " ++ cp "=" :: chars " "
                ++ chr_dquote :: chars "abc'") ->
         m_start m <> 0).
Proof.
  assert (Hw : one_of_ignoring_case credential_words (chars "token")).
  { exists "token". split; [|reflexivity]. unfold credential_words.
    do 5 apply list_elem_of_further. apply list_elem_of_here. }
  assert (Hs : all_space (chars " ")) by (repeat constructor).
  assert (Hq : is_quote chr_dquote) by (now right).
  assert (Hr : chr_dquote ∉ chars "abc'") by (vm_compute; not_in_list).
  split; [exact Hw|]. split; [exact Hs|]. split; [exact Hq|]. split; [exact Hr|].
  exact (unclosed_literal_not_flagged [] (chars "token") (chars " ") (chars " ")
           chr_dquote (chars "abc'") Hw Hs Hs Hq Hr).
Defined.

(** ** The naming-convention detector *)

Lemma plain_lower c :
  atom_matches no_flags (ASet false [SRange (cp "a") (cp "z")]) c = is_lower c.
Proof. char_lia. Qed.

Lemma plain_upper c :
  atom_matches no_flags (ASet false [SRange (cp "A") (cp "Z")]) c = is_upper c.
Proof. char_lia. Qed.

Lemma plain_snake c :
  atom_matches no_flags (ASet false [SRange (cp "a") (cp "z"); SRange (cp "0") (cp "9"); SChar (cp "_")]) c
  = is_snake_char c.
Proof. char_lia. Qed.

Lemma plain_pascal c :
  atom_matches no_flags (ASet false [SRange (cp "a") (cp "z"); SRange (cp "A") (cp "Z"); SRange (cp "0") (cp "9")]) c
  = is_pascal_char c.
Proof. char_lia. Qed.

Lemma at_eol_plain (rest : text) :
  at_eol no_flags rest = true <-> rest = [] \/ rest = [chr_newline].
Proof.
  destruct rest as [|c [|d rest]]; cbn.
  - intuition.
  - rewrite andb_true_r, N.eqb_eq. split.
    + intros ->. now right.
    + intros [H|H]; [discriminate H | now injection H].
  - rewrite andb_false_r. split; [discriminate|]. intros [H|H]; discriminate H.
Qed.

(** A pattern of the form [^[first][others]*$], tried at the start of a
    name, accepts the names made of one [first] character and [others]
    characters, with or without one final newline. *)
Lemma anchored_name_check (first others : atom) (pf po : char -> bool) (s : text) :
  (forall c, atom_matches no_flags first c = pf c) ->
  (forall c, atom_matches no_flags others c = po c) ->
  re_match no_flags (seqs [RBol; RChar first; RStar true others; REol]) s = true
  <-> exists u, without_final_newline s u /\ head_then pf po u = true.
Proof.
  intros Hf Ho. unfold re_match. split.
  - destruct (match_here no_flags _ None s) as [n|] eqn:Hm; [intros _ | discriminate].
    apply match_here_sound in Hm as (u & rest & -> & _ & L).
    cbn [seqs lang] in L.
    destruct L as (u0 & t0 & -> & [-> _] & h & t1 & -> & (c & -> & Hc)
                   & body & e & -> & Hbody & -> & Heol).
    rewrite Hf in Hc. apply at_eol_plain in Heol.
    exists (c :: body). split.
    + unfold without_final_newline. cbn [app]. rewrite app_nil_r.
      destruct Heol as [-> | ->]; [left; now rewrite app_nil_r | now right].
    + cbn [head_then]. rewrite Hc. cbn. apply forallb_forall.
      intros x Hx. apply list_elem_of_In in Hx.
      rewrite Forall_forall in Hbody. specialize (Hbody x Hx). cbn beta in Hbody.
      now rewrite Ho in Hbody.
  - intros (u & Hs & Hu).
    destruct u as [|c body]; [discriminate Hu|]. cbn [head_then] in Hu.
    apply andb_true_iff in Hu as [Hc Hbody].
    assert (L : forall rest, (rest = [] \/ rest = [chr_newline]) ->
                lang no_flags (seqs [RBol; RChar first; RStar true others; REol])
                     None (c :: body) rest).
    { intros rest Hrest. cbn [seqs lang].
      exists [], (c :: body). split; [reflexivity|]. split; [now split|].
      exists [c], body. split; [reflexivity|]. split.
      { exists c. split; [reflexivity|]. now rewrite Hf. }
      exists body, []. split; [now rewrite app_nil_r|]. split.
      - apply Forall_forall. intros x Hx. cbn beta. rewrite Ho.
        rewrite forallb_forall in Hbody. apply Hbody. now apply list_elem_of_In.
      - split; [reflexivity|]. now apply at_eol_plain. }
    destruct Hs as [-> | ->].
    + destruct (match_here_complete _ _ _ _ _ (L [] (or_introl eq_refl))) as [n Hn].
      rewrite app_nil_r in Hn. now rewrite Hn.
    + destruct (match_here_complete _ _ _ _ _ (L [chr_newline] (or_intror eq_refl)))
        as [n Hn].
      now rewrite Hn.
Qed.

Lemma without_final_newline_same (s u : text) :
  chr_newline ∉ s -> without_final_newline s u -> u = s.
Proof.
  intros Hs [-> | ->]; [reflexivity|]. destruct Hs.
  apply elem_of_app. right. apply list_elem_of_here.
Qed.

Lemma name_check_bool (r : regex) (pf po : char -> bool) (s : text) :
  (re_match no_flags r s = true
   <-> exists u, without_final_newline s u /\ head_then pf po u = true) ->
  chr_newline ∉ s ->
  re_match no_flags r s = head_then pf po s.
Proof.
  intros H Hs. destruct (head_then pf po s) eqn:E.
  - apply H. exists s. split; [now left | exact E].
  - destruct (re_match no_flags r s) eqn:Er; [|reflexivity].
    destruct (proj1 H eq_refl) as (u & Hu & Hh).
    apply (without_final_newline_same _ _ Hs) in Hu as ->. congruence.
Qed.

(** X8: the snake-case test accepts exactly the names made of a lower-case
    letter followed by lower-case letters, digits and underscores, possibly
    with one final newline; on a name without newline it is that check, so
    the empty name and every name that starts with an underscore, a digit or
    an upper-case letter fail it. *)
Theorem snake_case_check (name : string) :
  (re_match no_flags snake_case_pattern (chars name) = true
   <-> exists u, without_final_newline (chars name) u
                 /\ head_then is_lower is_snake_char u = true)
  /\ (chr_newline ∉ chars name ->
      re_match no_flags snake_case_pattern (chars name)
      = head_then is_lower is_snake_char (chars name))
  /\ (forall c rest,
         chars name = c :: rest -> is_lower c = false ->
         re_match no_flags snake_case_pattern (chars name) = false).
Proof.
  assert (H : re_match no_flags snake_case_pattern (chars name) = true
              <-> exists u, without_final_newline (chars name) u
                            /\ head_then is_lower is_snake_char u = true)
    by (apply anchored_name_check; [apply plain_lower | apply plain_snake]).
  split; [exact H|]. split; [now apply name_check_bool|].
  intros c rest E Hc.
  destruct (re_match no_flags snake_case_pattern (chars name)) eqn:Er; [|reflexivity].
  destruct (proj1 H eq_refl) as (u & Hu & Hh). rewrite E in Hu.
  destruct u as [|d u]; [discriminate Hh|]. cbn [head_then] in Hh.
  apply andb_true_iff in Hh as [Hd _].
  destruct Hu as [Hu|Hu]; cbn in Hu; injection Hu as -> _; congruence.
Qed.

Lemma snake_case_check_witness :
  (chr_newline ∉ chars "_analyze_general_issues")
  /\ chars "__init__" = cp "_" :: chars "_init__"
  /\ is_lower (cp "_") = false
  /\ re_match no_flags snake_case_pattern (chars "_analyze_general_issues")
     = head_then is_lower is_snake_char (chars "_analyze_general_issues")
  /\ re_match no_flags snake_case_pattern (chars "__init__") = false.
Proof.
  assert (Hn : chr_newline ∉ chars "_analyze_general_issues")
    by (vm_compute; not_in_list).
  split; [exact Hn|]. split; [reflexivity|]. split; [reflexivity|].
  split.
  - exact (proj1 (proj2 (snake_case_check "_analyze_general_issues")) Hn).
  - exact (proj2 (proj2 (snake_case_check "__init__")) (cp "_") (chars "_init__")
             eq_refl eq_refl).
Defined.

(** X9: the Pascal-case test accepts exactly the names made of an upper-case
    letter followed by letters and digits, possibly with one final newline;
    a name that contains an underscore or any other character fails it. *)
Theorem pascal_case_check (name : string) :
  (re_match no_flags pascal_case_pattern (chars name) = true
   <-> exists u, without_final_newline (chars name) u
                 /\ head_then is_upper is_pascal_char u = true)
  /\ (chr_newline ∉ chars name ->
      re_match no_flags pascal_case_pattern (chars name)
      = head_then is_upper is_pascal_char (chars name))
  /\ (forall c,
         c ∈ chars name -> c <> chr_newline -> is_pascal_char c = false ->
         re_match no_flags pascal_case_pattern (chars name) = false).
Proof.
  assert (H : re_match no_flags pascal_case_pattern (chars name) = true
              <-> exists u, without_final_newline (chars name) u
                            /\ head_then is_upper is_pascal_char u = true)
    by (apply anchored_name_check; [apply plain_upper | apply plain_pascal]).
  split; [exact H|]. split; [now apply name_check_bool|].
  intros c Hin Hnl Hc.
  destruct (re_match no_flags pascal_case_pattern (chars name)) eqn:Er; [|reflexivity].
  destruct (proj1 H eq_refl) as (u & Hu & Hh).
  assert (Hcu : c ∈ u).
  { destruct Hu as [Hu|Hu]; rewrite Hu in Hin; [exact Hin|].
    apply elem_of_app in Hin as [Hin|Hin]; [exact Hin|].
    apply list_elem_of_singleton in Hin. contradiction. }
  destruct u as [|d u]; [discriminate Hh|]. cbn [head_then] in Hh.
  apply andb_true_iff in Hh as [Hd Hbody].
  apply elem_of_cons in Hcu as [->|Hcu].
  - unfold is_pascal_char in Hc. rewrite Hd in Hc.
    now rewrite orb_true_r in Hc.
  - rewrite forallb_forall in Hbody.
    rewrite (Hbody c) in Hc by (now apply list_elem_of_In). discriminate Hc.
Qed.

Lemma pascal_case_check_witness :
  (chr_newline ∉ chars "CodeReviewAssistant")
  /\ (cp "_" ∈ chars "My_Class") /\ cp "_" <> chr_newline
  /\ is_pascal_char (cp "_") = false
  /\ re_match no_flags pascal_case_pattern (chars "CodeReviewAssistant")
     = head_then is_upper is_pascal_char (chars "CodeReviewAssistant")
  /\ re_match no_flags pascal_case_pattern (chars "My_Class") = false.
Proof.
  assert (Hn : chr_newline ∉ chars "CodeReviewAssistant") by (vm_compute; not_in_list).
  assert (Hin : cp "_" ∈ chars "My_Class").
  { vm_compute. do 2 apply list_elem_of_further. apply list_elem_of_here. }
  assert (Hne : cp "_" <> chr_newline) by discriminate.
  split; [exact Hn|]. split; [exact Hin|]. split; [exact Hne|].
  split; [reflexivity|]. split.
  - exact (proj1 (proj2 (pascal_case_check "CodeReviewAssistant")) Hn).
  - exact (proj2 (proj2 (pascal_case_check "My_Class")) (cp "_") Hin Hne eq_refl).
Defined.

Lemma naming_issue_cases (n : node) :
  naming_issue n
  = if isinstance n FunctionDef
       && negb (re_match no_flags snake_case_pattern (chars (node_name n)))
    then Some {| type := "naming_convention";
                 message := "Function name '" +:+ node_name n
                            +:+ "' doesn't follow snake_case convention";
                 line := Some (node_lineno n);
                 severity := "minor" |}
    else if isinstance n ClassDef
            && negb (re_match no_flags pascal_case_pattern (chars (node_name n)))
    then Some {| type := "naming_convention";
                 message := "Class name '" +:+ node_name n
                            +:+ "' doesn't follow PascalCase convention";
                 line := Some (node_lineno n);
                 severity := "minor" |}
    else None.
Proof.
  unfold naming_issue. destruct n as [[] x l cs]; cbn [isinstance node_class ast_class_eqb andb];
    try reflexivity; now destruct (negb _).
Qed.

(** X10: on a text that parses, the general analyzer appends the
    commented-code findings and then, in the order of [ast.walk], one minor
    naming finding for every [FunctionDef] whose name fails the snake-case
    test and every [ClassDef] whose name fails the Pascal-case test, with the
    node's line and its name in the message; it raises nothing; nodes of any
    other class, [AsyncFunctionDef] included, are never reported.  [ast.walk]
    yields every node of the tree once, so every such node of the tree, at
    whatever depth, has its finding, and every naming finding is that of a
    node of the tree. *)
Theorem naming_detector_spec
    (ast_parse : string -> parse_result) (code file_path : string)
    (tree : node) (st : state) (d : results) (l : list issue) :
  ast_parse code = Parsed tree ->
  points_to st d ->
  d !! "general" = Some l ->
  _analyze_general_issues ast_parse code file_path st
  = (Ret tt,
     with_dict
       (<["general" :=
            l ++ commented_code_findings code
              ++ omap (fun e =>
                   if isinstance (snd e) FunctionDef
                      && negb (re_match no_flags snake_case_pattern
                                 (chars (node_name (snd e))))
                   then Some {| type := "naming_convention";
                                message := "Function name '" +:+ node_name (snd e)
                                           +:+ "' doesn't follow snake_case convention";
                                line := Some (node_lineno (snd e));
                                severity := "minor" |}
                   else if isinstance (snd e) ClassDef
                           && negb (re_match no_flags pascal_case_pattern
                                      (chars (node_name (snd e))))
                   then Some {| type := "naming_convention";
                                message := "Class name '" +:+ node_name (snd e)
                                           +:+ "' doesn't follow PascalCase convention";
                                line := Some (node_lineno (snd e));
                                severity := "minor" |}
                   else None)
                 (walk tree)]> d) st)
  /\ ((forall e, e ∈ walk tree ->
         isinstance (snd e) FunctionDef = false /\ isinstance (snd e) ClassDef = false) ->
      _analyze_general_issues ast_parse code file_path st
      = (Ret tt, with_dict (<["general" := l ++ commented_code_findings code]> d) st))
  /\ _analyze_general_issues ast_parse code file_path st
     = (Ret tt,
        with_dict (<["general" := l ++ commented_code_findings code
                                    ++ naming_findings tree]> d) st)
  /\ walk tree ≡ₚ subtree [] tree
  /\ (forall n,
        n ∈ tree :: descendants tree ->
        isinstance n FunctionDef = true ->
        re_match no_flags snake_case_pattern (chars (node_name n)) = false ->
        function_name_issue n ∈ naming_findings tree)
  /\ (forall n,
        n ∈ tree :: descendants tree ->
        isinstance n ClassDef = true ->
        re_match no_flags pascal_case_pattern (chars (node_name n)) = false ->
        class_name_issue n ∈ naming_findings tree)
  /\ (forall i,
        i ∈ naming_findings tree ->
        exists n, n ∈ tree :: descendants tree
                  /\ (isinstance n FunctionDef = true \/ isinstance n ClassDef = true)
                  /\ naming_issue n = Some i).
Proof.
  intros Hparse Hp Hl.
  assert (E : _analyze_general_issues ast_parse code file_path st
              = (Ret tt,
                 with_dict (<["general" := l ++ commented_code_findings code
                                             ++ naming_findings tree]> d) st)).
  { rewrite (analyze_general_spec _ _ _ _ _ _ Hp Hl).
    unfold general_findings. now rewrite Hparse. }
  assert (Hnodes : forall n, n ∈ tree :: descendants tree <-> exists p, (p, n) ∈ walk tree).
  { intros n. rewrite <- (subtree_nodes tree []). split.
    - intros Hn. apply (list_elem_of_fmap snd) in Hn as ([p n'] & -> & Hn).
      exists p. now rewrite walk_subtree.
    - intros [p Hn]. rewrite walk_subtree in Hn.
      now apply (list_elem_of_fmap_2 snd) in Hn. }
  split; [|split; [|split; [exact E|split; [apply walk_subtree|]]]].
  - rewrite E. unfold naming_findings.
    erewrite (list_omap_ext (fun e => naming_issue (snd e))); [reflexivity|].
    apply Forall2_same_length_lookup. split; [reflexivity|].
    intros i x y Hx Hy. rewrite Hx in Hy. injection Hy as <-.
    apply naming_issue_cases.
  - intros Hnone. rewrite E. unfold naming_findings.
    assert (G : forall q : list (path * node),
               (forall e, e ∈ q -> isinstance (snd e) FunctionDef = false
                                   /\ isinstance (snd e) ClassDef = false) ->
               omap (fun e => naming_issue (snd e)) q = []).
    { induction q as [|e q IH]; intros Hq; [reflexivity|]. cbn [omap list_omap].
      destruct (Hq e (list_elem_of_here _ _)) as [Hf Hc].
      unfold naming_issue at 1. rewrite Hf, Hc.
      apply IH. intros e' He'. apply Hq. now apply list_elem_of_further. }
    now rewrite (G _ Hnone), app_nil_r.
  - split; [|split].
    + intros n Hn Hf Hm. apply Hnodes in Hn as [p Hn].
      unfold naming_findings. apply list_elem_of_omap. exists (p, n).
      split; [exact Hn|]. cbn [snd]. unfold naming_issue. now rewrite Hf, Hm.
    + intros n Hn Hc Hm. apply Hnodes in Hn as [p Hn].
      unfold naming_findings. apply list_elem_of_omap. exists (p, n).
      split; [exact Hn|]. cbn [snd]. unfold naming_issue. rewrite Hc, Hm.
      destruct (isinstance n FunctionDef) eqn:Hf; [|reflexivity].
      destruct n as [[] x ln cs]; discriminate.
    + intros i Hi. unfold naming_findings in Hi.
      apply list_elem_of_omap in Hi as ([p n] & Hn & Hi). cbn [snd] in Hi.
      exists n. split; [apply Hnodes; eauto|]. split; [|exact Hi].
      unfold naming_issue in Hi.
      destruct (isinstance n FunctionDef); [now left|].
      destruct (isinstance n ClassDef); [now right | discriminate].
Qed.

(** The tree of [naming_py]: the class, which is not in Pascal case, and its
    method, which is not in snake case, are reported in the order of the
    walk, after the commented-out line; the [async def] is not. *)
Lemma naming_detector_spec_witness :
  parse_as naming_tree naming_py = Parsed naming_tree
  /\ points_to (init "review_templates") empty_results
  /\ empty_results !! "general" = Some []
  /\ _analyze_general_issues (parse_as naming_tree) naming_py "a.py"
       (init "review_templates")
     = (Ret tt,
        with_dict
          (<["general" :=
               [{| type := "commented_code";
                   message := "Commented out code should be removed";
                   line := Some 1;
                   severity := "minor" |};
                {| type := "naming_convention";
                   message := "Class name 'my_class' doesn't follow PascalCase convention";
                   line := Some 2;
                   severity := "minor" |};
                {| type := "naming_convention";
                   message := "Function name 'BadName' doesn't follow snake_case convention";
                   line := Some 3;
                   severity := "minor" |}]]> empty_results)
          (init "review_templates")).
Proof.
  split; [reflexivity|]. split; [reflexivity|]. split; [reflexivity|].
  assert (Hfind : [] ++ commented_code_findings naming_py ++ naming_findings naming_tree
                  = [{| type := "commented_code";
                        message := "Commented out code should be removed";
                        line := Some 1;
                        severity := "minor" |};
                     {| type := "naming_convention";
                        message := "Class name 'my_class' doesn't follow PascalCase convention";
                        line := Some 2;
                        severity := "minor" |};
                     {| type := "naming_convention";
                        message := "Function name 'BadName' doesn't follow snake_case convention";
                        line := Some 3;
                        severity := "minor" |}])
    by (vm_compute; reflexivity).
  rewrite <- Hfind.
  exact (proj1 (proj2 (proj2 (naming_detector_spec (parse_as naming_tree) naming_py "a.py"
                                naming_tree (init "review_templates") empty_results []
                                eq_refl eq_refl eq_refl)))).
Defined.

(** ** The order of [ast.walk] *)

Lemma walk_queue_front : forall (q q' : list (path * node)) fuel,
  total_size (q ++ q') <= fuel ->
  exists rest, walk_queue fuel (q ++ q') = q ++ rest.
Proof.
  induction q as [|[p n] q IH]; intros q' fuel Hsize; [cbn; eauto|].
  cbn [app] in Hsize |- *.
  change (total_size ((p, n) :: q ++ q'))
    with (node_size n + total_size (q ++ q')) in Hsize.
  pose proof (node_size_pos n) as Hpos.
  destruct fuel as [|fuel]; [lia|]. cbn [walk_queue].
  rewrite <- app_assoc.
  destruct (IH (q' ++ child_entries p n) fuel) as [rest Hrest].
  - rewrite app_assoc, total_size_app.
    pose proof (total_size_children p n). lia.
  - rewrite Hrest. eauto.
Qed.

(** X11: [ast.walk] is breadth-first: it yields the node, then all of its
    children in order, and only then deeper nodes, none of which is the node
    or one of those children again.  So the naming findings of the module
    and its top-level definitions precede those of all nested definitions,
    whatever their lines. *)
Theorem walk_children_first (n : node) :
  exists deeper,
    walk n = ([], n) :: child_entries [] n ++ deeper
    /\ (forall e, e ∈ deeper ->
          fst e ∉ map fst (([], n) :: child_entries [] n))
    /\ naming_findings n
       = omap (fun e => naming_issue (snd e)) (([], n) :: child_entries [] n)
         ++ omap (fun e => naming_issue (snd e)) deeper.
Proof.
  destruct (walk_queue_front (child_entries [] n) [] (node_size n - 1)) as [deeper Hd].
  { rewrite app_nil_r. pose proof (total_size_children [] n). lia. }
  rewrite app_nil_r in Hd.
  assert (E : walk n = ([], n) :: child_entries [] n ++ deeper).
  { unfold walk. pose proof (node_size_pos n) as Hpos.
    destruct (node_size n) as [|k] eqn:Ek; [lia|].
    cbn [walk_queue app]. f_equal. replace (S k - 1) with k in Hd by lia. exact Hd. }
  exists deeper. split; [exact E|]. split.
  - intros e He Hin.
    pose proof (walk_NoDup n) as Hnd. rewrite E in Hnd.
    change (([], n) :: child_entries [] n ++ deeper)
      with ((([], n) :: child_entries [] n) ++ deeper) in Hnd.
    rewrite map_app in Hnd. apply NoDup_app in Hnd as (_ & Hdis & _).
    apply (Hdis _ Hin). now apply (list_elem_of_fmap_2 fst).
  - unfold naming_findings. rewrite E.
    change (([], n) :: child_entries [] n ++ deeper)
      with ((([], n) :: child_entries [] n) ++ deeper).
    apply omap_app.
Qed.

(** ** The buckets of an analysis *)

Section Buckets.

Variable fs : string -> file.
Variable ast_parse : string -> parse_result.

Lemma analysis_keys code category bucket :
  analysis ast_parse code !! category = Some bucket ->
  (category = "general" /\ bucket = general_findings ast_parse code)
  \/ (category = "security" /\ bucket = security_findings code)
  \/ (category = "performance" /\ bucket = performance_findings ast_parse code).
Proof.
  intros Hb. unfold analysis in Hb. rewrite !lookup_insert in Hb.
  repeat case_decide; subst; try (injection Hb as <-; auto; fail).
  now rewrite lookup_empty in Hb.
Qed.

Lemma kind_in_map {A} (f : A -> issue) (l : list A) category i :
  (forall x, (category, (type (f x), severity (f x))) ∈ finding_kinds) ->
  i ∈ map f l -> (category, (type i, severity i)) ∈ finding_kinds.
Proof.
  intros H Hi. apply (list_elem_of_fmap f) in Hi as (x & -> & _). apply H.
Qed.

Lemma kind_in_omap {A} (f : A -> option issue) (l : list A) category i :
  (forall x j, f x = Some j -> (category, (type j, severity j)) ∈ finding_kinds) ->
  i ∈ omap f l -> (category, (type i, severity i)) ∈ finding_kinds.
Proof.
  intros H Hi. apply list_elem_of_omap in Hi as (x & _ & E). eapply H, E.
Qed.

Tactic Notation "kind" integer(k) :=
  unfold finding_kinds; do k apply list_elem_of_further; apply list_elem_of_here.

(** X12: the dictionary returned for a readable file has exactly the keys
    general, security and performance, and every finding sits in the bucket
    of its detector with the severity of its type: commented_code, naming
    and syntax findings in general, credentials and SQL findings in
    security, nested loops in performance. *)
Theorem findings_sit_in_their_bucket (file_path code : string) (st : state) :
  fs file_path = File code ->
  exists l d,
    fst (analyze_file fs ast_parse file_path st) = Ret l
    /\ heap (snd (analyze_file fs ast_parse file_path st)) !! l = Some d
    /\ (forall category,
           is_Some (d !! category)
           <-> category ∈ ["general"; "security"; "performance"])
    /\ (forall category bucket i,
           d !! category = Some bucket -> i ∈ bucket ->
           (category, (type i, severity i)) ∈ finding_kinds).
Proof.
  intros Hf.
  destruct (analyze_file_result fs ast_parse file_path code st Hf) as (l & R & H).
  exists l, (analysis ast_parse code). split; [exact R|]. split; [exact H|]. split.
  - intros category. split.
    + intros [bucket Hb].
      apply analysis_keys in Hb as [[-> _]|[[-> _]|[-> _]]].
      * apply list_elem_of_here.
      * apply list_elem_of_further, list_elem_of_here.
      * do 2 apply list_elem_of_further. apply list_elem_of_here.
    + intros Hc.
      repeat (apply elem_of_cons in Hc as [->|Hc]; [eexists; reflexivity|]).
      now apply elem_of_nil in Hc.
  - intros category bucket i Hb Hi.
    apply analysis_keys in Hb as [[-> ->]|[[-> ->]|[-> ->]]].
    + unfold general_findings in Hi. apply elem_of_app in Hi as [Hi|Hi].
      * unfold commented_code_findings in Hi.
        eapply kind_in_map; [|exact Hi]. intros x. kind 0.
      * destruct (ast_parse code) as [tree|e].
        -- unfold naming_findings in Hi.
           eapply kind_in_omap; [|exact Hi].
           intros x j. cbn beta. rewrite naming_issue_cases.
           destruct (_ && _); [intros [= <-]; kind 1|].
           destruct (_ && _); [intros [= <-]; kind 1 | discriminate].
        -- apply list_elem_of_singleton in Hi as ->. kind 2.
    + unfold security_findings in Hi. apply elem_of_app in Hi as [Hi|Hi].
      * unfold credentials_findings in Hi.
        eapply kind_in_map; [|exact Hi]. intros x. kind 3.
      * unfold sql_findings in Hi.
        eapply kind_in_map; [|exact Hi]. intros x. kind 4.
    + unfold performance_findings in Hi.
      destruct (ast_parse code) as [tree|e]; [|now apply elem_of_nil in Hi].
      unfold nested_loop_findings in Hi.
      eapply kind_in_omap; [|exact Hi].
      intros x j. cbn beta. unfold nested_issue.
      destruct (_ && _); [intros [= <-]; kind 5 | discriminate].
Qed.

(** X13: a call of [analyze_file] never changes a dictionary that existed
    before it, whether the file is readable, missing or unreadable: results
    returned by earlier calls stay as they were, and the output only
    grows. *)
Theorem analyze_file_keeps_earlier_results (file_path : string) (st : state) :
  (forall l d,
      heap st !! l = Some d ->
      heap (snd (analyze_file fs ast_parse file_path st)) !! l = Some d)
  /\ template_dir (snd (analyze_file fs ast_parse file_path st)) = template_dir st
  /\ exists printed,
       stdout (snd (analyze_file fs ast_parse file_path st)) = stdout st ++ printed.
Proof.
  destruct (fs file_path) as [code| |] eqn:Hf.
  - rewrite (analyze_file_readable _ _ _ _ _ Hf). cbn [snd heap template_dir stdout].
    split; [|split; [reflexivity | exists []; now rewrite app_nil_r]].
    intros l d Hl. now apply lookup_app_l_Some.
  - rewrite (analyze_file_missing _ _ _ _ Hf). cbn [snd heap template_dir stdout].
    split; [auto | split; [reflexivity | eauto]].
  - unfold analyze_file. rewrite Hf. cbn.
    split; [auto | split; [reflexivity | exists []; now rewrite app_nil_r]].
Qed.

End Buckets.

Lemma findings_sit_in_their_bucket_witness :
  fs_single "app.py" admin_py "app.py" = File admin_py
  /\ exists l d,
       let fs := fs_single "app.py" admin_py in
       let parse := parse_fails broken_error in
       let st := init "review_templates" in
       fst (analyze_file fs parse "app.py" st) = Ret l
       /\ heap (snd (analyze_file fs parse "app.py" st)) !! l = Some d
       /\ (forall category,
              is_Some (d !! category)
              <-> category ∈ ["general"; "security"; "performance"])
       /\ (forall category bucket i,
              d !! category = Some bucket -> i ∈ bucket ->
              (category, (type i, severity i)) ∈ finding_kinds).
Proof.
  split; [reflexivity|].
  apply (findings_sit_in_their_bucket (fs_single "app.py" admin_py)
           (parse_fails broken_error) "app.py" admin_py (init "review_templates")).
  reflexivity.
Defined.

(** ** The renderer, once more *)

Lemma add_stdout_nil st : add_stdout [] st = st.
Proof. destruct st. unfold add_stdout. cbn. now rewrite app_nil_r. Qed.

Lemma add_stdout_twice a b st : add_stdout b (add_stdout a st) = add_stdout (a ++ b) st.
Proof. unfold add_stdout. cbn. now rewrite app_assoc. Qed.

Section Rendering.

Variable fs : string -> file.

(** What a call of [generate_review] does, case by case. *)
Lemma generate_review_run issues template_type st :
  generate_review fs issues template_type st
  = match fs (template_path (template_dir st) template_type) with
    | File template =>
        if String.eqb template "" then (Ret "No template found", st)
        else match heap st !! issues with
             | Some d =>
                 (Ret (template +:+ issues_header +:+ review_body (d !! template_type)),
                  st)
             | None => (Raise SystemError, st)
             end
    | Missing =>
        (Ret "No template found",
         add_stdout ["Error: Template "
                     +:+ template_path (template_dir st) template_type
                     +:+ " not found"] st)
    | Unreadable => (Raise ReadError, st)
    end.
Proof.
  unfold generate_review, bind, load_template, template_path.
  destruct (fs (os_path_join (template_dir st) (template_type +:+ ".md")))
    as [template| |]; [|reflexivity..].
  unfold ret at 1. destruct (String.eqb template ""); [reflexivity|].
  unfold deref. destruct (heap st !! issues) as [d|]; [|reflexivity].
  destruct (d !! template_type) as [[|i rest]|]; unfold ret; cbn [review_body].
  - now rewrite string_app_assoc.
  - rewrite fold_left_issue_lines. cbn [issue_lines fold_right].
    now rewrite !string_app_assoc.
  - now rewrite string_app_assoc.
Qed.

Lemma generate_review_ok issues template_type st d :
  heap st !! issues = Some d ->
  fs (template_path (template_dir st) template_type) <> Unreadable ->
  generate_review fs issues template_type st
  = (Ret (review_text fs (template_dir st) template_type d),
     add_stdout (template_complaint fs (template_dir st) template_type) st).
Proof.
  intros Hd Hu. rewrite generate_review_run. unfold review_text, template_complaint.
  destruct (fs (template_path (template_dir st) template_type)) as [t| |].
  - rewrite Hd, add_stdout_nil. now destruct (String.eqb t "").
  - reflexivity.
  - congruence.
Qed.

(** X14: the review of a category depends on the template and on the bucket
    of that category alone: two result dictionaries that agree on the bucket
    give the same text, whatever findings their other buckets hold. *)
Theorem review_shows_only_its_bucket
    (issues1 issues2 : loc) (template_type : string) (st1 st2 : state)
    (d1 d2 : results) :
  template_dir st1 = template_dir st2 ->
  heap st1 !! issues1 = Some d1 ->
  heap st2 !! issues2 = Some d2 ->
  d1 !! template_type = d2 !! template_type ->
  fst (generate_review fs issues1 template_type st1)
  = fst (generate_review fs issues2 template_type st2).
Proof.
  intros Hdir H1 H2 Hb. rewrite !generate_review_run, <- Hdir, H1, H2, Hb.
  destruct (fs (template_path (template_dir st1) template_type)) as [t| |];
    [|reflexivity..].
  now destruct (String.eqb t "").
Qed.

(** X15: with a valid reference and a template that is readable or missing,
    [generate_review] returns a text without raising, and prints exactly one
    line, the complaint, when the template is missing and nothing
    otherwise. *)
Theorem generate_review_prints_only_complaints
    (issues : loc) (template_type : string) (st : state) (d : results) :
  heap st !! issues = Some d ->
  fs (template_path (template_dir st) template_type) <> Unreadable ->
  (exists text, fst (generate_review fs issues template_type st) = Ret text)
  /\ stdout (snd (generate_review fs issues template_type st))
     = stdout st
       ++ match fs (template_path (template_dir st) template_type) with
          | Missing =>
              ["Error: Template " +:+ template_path (template_dir st) template_type
               +:+ " not found"]
          | _ => []
          end.
Proof.
  intros Hd Hu. rewrite (generate_review_ok _ _ _ _ Hd Hu). split; [cbn; eauto|].
  reflexivity.
Qed.

End Rendering.

Lemma review_shows_only_its_bucket_witness :
  template_dir one_finding_state = template_dir (init "review_templates")
  /\ heap one_finding_state !! 0
     = Some (<["security" := [credentials_issue 1]]> empty_results)
  /\ heap (init "review_templates") !! 0 = Some empty_results
  /\ (<["security" := [credentials_issue 1]]> empty_results) !! "general"
     = empty_results !! "general"
  /\ fst (generate_review project_fs 0 "general" one_finding_state)
     = fst (generate_review project_fs 0 "general" (init "review_templates")).
Proof.
  split; [reflexivity|]. split; [reflexivity|]. split; [reflexivity|].
  split; [reflexivity|].
  exact (review_shows_only_its_bucket project_fs 0 0 "general" one_finding_state
           (init "review_templates")
           (<["security" := [credentials_issue 1]]> empty_results) empty_results
           eq_refl eq_refl eq_refl eq_refl).
Defined.

Lemma generate_review_prints_only_complaints_witness :
  heap one_finding_state !! 0
  = Some (<["security" := [credentials_issue 1]]> empty_results)
  /\ project_fs (template_path (template_dir one_finding_state) "style") <> Unreadable
  /\ (exists text, fst (generate_review project_fs 0 "style" one_finding_state) = Ret text)
  /\ stdout (snd (generate_review project_fs 0 "style" one_finding_state))
     = stdout one_finding_state
       ++ match project_fs (template_path (template_dir one_finding_state) "style") with
          | Missing =>
              ["Error: Template " +:+ template_path (template_dir one_finding_state) "style"
               +:+ " not found"]
          | _ => []
          end.
Proof.
  assert (Hu : project_fs (template_path (template_dir one_finding_state) "style")
               <> Unreadable) by discriminate.
  split; [reflexivity|]. split; [exact Hu|].
  exact (generate_review_prints_only_complaints project_fs 0 "style" one_finding_state
           (<["security" := [credentials_issue 1]]> empty_results) eq_refl Hu).
Defined.

(** ** The command line *)

Section CommandLine.

Variable fs : string -> file.
Variable ast_parse : string -> parse_result.

Lemma review_turn issues d template_type st :
  heap st !! issues = Some d ->
  fs (template_path (template_dir st) template_type) <> Unreadable ->
  (review <- generate_review fs issues template_type ;;
   print (banner template_type) ;;; print review) st
  = (Ret tt, add_stdout (review_output fs (template_dir st) template_type d) st).
Proof.
  intros Hd Hu. unfold bind at 1. rewrite (generate_review_ok _ _ _ _ _ Hd Hu).
  unfold bind, print, review_output, add_stdout. cbn.
  now rewrite <- !app_assoc.
Qed.

Lemma for_each_cons {A} (x : A) (xs : list A) (body : A -> M unit) (st : state) :
  for_each (x :: xs) body st
  = match body x st with
    | (Ret _, st') => for_each xs body st'
    | (Raise e, st') => (Raise e, st')
    end.
Proof. reflexivity. Qed.

Lemma review_loop issues d (types : list string) : forall st,
  heap st !! issues = Some d ->
  (forall ty, ty ∈ types -> fs (template_path (template_dir st) ty) <> Unreadable) ->
  for_each types (fun template_type =>
    review <- generate_review fs issues template_type ;;
    print (banner template_type) ;;; print review) st
  = (Ret tt,
     add_stdout (concat (map (fun ty => review_output fs (template_dir st) ty d) types))
                st).
Proof.
  induction types as [|ty types IH]; intros st Hd Hu.
  - cbn [for_each map concat]. now rewrite add_stdout_nil.
  - rewrite for_each_cons.
    rewrite (review_turn _ _ _ _ Hd) by (apply Hu, list_elem_of_here).
    rewrite IH.
    + cbn [map concat]. now rewrite add_stdout_twice.
    + exact Hd.
    + intros ty' Hty'. apply Hu. now apply list_elem_of_further.
Qed.

Lemma review_file_run file_path st :
  review_file fs ast_parse file_path st
  = match analyze_file fs ast_parse file_path
            (mkState (heap st ++ [empty_results]) "review_templates"
                     (length (heap st)) (stdout st)) with
    | (Ret issues, st') =>
        for_each review_types (fun template_type =>
          review <- generate_review fs issues template_type ;;
          print (banner template_type) ;;; print review) st'
    | (Raise e, st') => (Raise e, st')
    end.
Proof. reflexivity. Qed.

(** The body of [main] when the file to review is readable. *)
Lemma review_file_readable file_path code st :
  fs file_path = File code ->
  (forall ty, ty ∈ review_types ->
     fs (template_path "review_templates" ty) <> Unreadable) ->
  review_file fs ast_parse file_path st
  = (Ret tt,
     mkState (heap st ++ [empty_results; analysis ast_parse code]) "review_templates"
       (S (length (heap st)))
       (stdout st
        ++ concat (map (fun ty => review_output fs "review_templates" ty
                                    (analysis ast_parse code)) review_types))).
Proof.
  intros Hf Hu. rewrite review_file_run.
  rewrite (analyze_file_readable _ _ _ _ _ Hf). cbn [heap template_dir stdout].
  rewrite (review_loop _ (analysis ast_parse code)).
  - unfold add_stdout. cbn [heap template_dir issues_found stdout].
    rewrite length_app, <- app_assoc. cbn [length app].
    now rewrite Nat.add_1_r.
  - cbn [heap]. now apply list_lookup_middle.
  - exact Hu.
Qed.

(** The body of [main] when the file to review does not exist. *)
Lemma review_file_missing file_path st :
  fs file_path = Missing ->
  (forall ty, ty ∈ review_types ->
     fs (template_path "review_templates" ty) <> Unreadable) ->
  review_file fs ast_parse file_path st
  = (Ret tt,
     mkState (heap st ++ [empty_results]) "review_templates" (length (heap st))
       (stdout st
        ++ ["Error: File " +:+ file_path +:+ " not found"]
        ++ concat (map (fun ty => review_output fs "review_templates" ty empty_results)
                       review_types))).
Proof.
  intros Hf Hu. rewrite review_file_run.
  rewrite (analyze_file_missing _ _ _ _ Hf).
  cbn [heap template_dir stdout issues_found].
  rewrite (review_loop _ empty_results).
  - unfold add_stdout. cbn [heap template_dir issues_found stdout].
    now rewrite <- app_assoc.
  - cbn [heap]. now apply list_lookup_middle.
  - exact Hu.
Qed.

Lemma main_long_argv argv st :
  2 <= length argv ->
  main fs ast_parse argv st
  = match review_file fs ast_parse (default "" (argv !! 1)) st with
    | (Ret _, st') => (Finished, st')
    | (Raise e, st') => (Uncaught e, st')
    end.
Proof.
  intros H. unfold main.
  destruct (Nat.ltb_spec (length argv) 2) as [Hlt|_]; [lia | reflexivity].
Qed.

(** X16: called with the path of a readable file that parses, and with
    templates that are readable or missing, [main] returns normally after
    printing, for general, security and performance in this order, the
    complaint about a missing template if any, the banner, and the review of
    the bucket that the analysis of the file filled: the general bucket with
    the commented-code and naming findings, the performance bucket with the
    nested loops of the tree. *)
Theorem main_reviews_a_readable_file
    (prog file_path : string) (more : list string) (code : string) (tree : node)
    (st : state) :
  fs file_path = File code ->
  ast_parse code = Parsed tree ->
  (forall ty, ty ∈ review_types ->
     fs (template_path "review_templates" ty) <> Unreadable) ->
  main fs ast_parse (prog :: file_path :: more) st
  = (Finished,
     mkState (heap st ++ [empty_results; analysis ast_parse code]) "review_templates"
       (S (length (heap st)))
       (stdout st
        ++ review_output fs "review_templates" "general" (analysis ast_parse code)
        ++ review_output fs "review_templates" "security" (analysis ast_parse code)
        ++ review_output fs "review_templates" "performance" (analysis ast_parse code)))
  /\ analysis ast_parse code !! "general"
     = Some (commented_code_findings code ++ naming_findings tree)
  /\ analysis ast_parse code !! "security"
     = Some (credentials_findings code ++ sql_findings code)
  /\ analysis ast_parse code !! "performance" = Some (nested_loop_findings tree).
Proof.
  intros Hf Hparse Hu. split.
  - rewrite main_long_argv by (cbn; lia). cbn [lookup list_lookup default].
    rewrite (review_file_readable _ _ _ Hf Hu). cbn [review_types map concat].
    now rewrite app_nil_r.
  - rewrite analysis_general, analysis_security, analysis_performance.
    unfold general_findings, performance_findings, security_findings.
    now rewrite Hparse.
Qed.

(** X17: called with a path that does not exist, [main] does not stop: it
    prints the error, then the three banners and reviews as for a file
    without findings, and returns normally; each review is the fallback or
    the template with the line that says no issue was found. *)
Theorem main_goes_on_after_a_missing_file
    (prog file_path : string) (more : list string) (st : state) :
  fs file_path = Missing ->
  (forall ty, ty ∈ review_types ->
     fs (template_path "review_templates" ty) <> Unreadable) ->
  main fs ast_parse (prog :: file_path :: more) st
  = (Finished,
     mkState (heap st ++ [empty_results]) "review_templates" (length (heap st))
       (stdout st
        ++ ["Error: File " +:+ file_path +:+ " not found"]
        ++ review_output fs "review_templates" "general" empty_results
        ++ review_output fs "review_templates" "security" empty_results
        ++ review_output fs "review_templates" "performance" empty_results))
  /\ (forall ty,
         review_body (empty_results !! ty)
         = "No issues found for this category." +:+ nl).
Proof.
  intros Hf Hu. split.
  - rewrite main_long_argv by (cbn; lia). cbn [lookup list_lookup default].
    rewrite (review_file_missing _ _ Hf Hu). cbn [review_types map concat].
    now rewrite app_nil_r.
  - intros ty. unfold empty_results. rewrite !lookup_insert.
    repeat case_decide; reflexivity.
Qed.

(** X18: with fewer than two arguments [main] prints the usage line and
    exits with status 1; it builds no assistant and reads nothing, so
    the file system and the parser do not matter.  With a path it never
    takes that exit, and it reads [sys.argv[1]] only: the name of the
    program and any further arguments change nothing. *)
Theorem main_usage_and_arguments (argv : list string) (st : state) :
  (length argv < 2 ->
   forall (fs' : string -> file) (ast_parse' : string -> parse_result),
     main fs' ast_parse' argv st = (Exited 1, add_stdout [usage] st))
  /\ (2 <= length argv ->
      forall status, fst (main fs ast_parse argv st) <> Exited status)
  /\ (forall prog prog' file_path more more',
        argv = prog :: file_path :: more ->
        main fs ast_parse argv st
        = main fs ast_parse (prog' :: file_path :: more') st).
Proof.
  split; [|split].
  - intros H fs' ast_parse'. unfold main.
    destruct (Nat.ltb_spec (length argv) 2) as [_|Hge]; [reflexivity | lia].
  - intros H status. rewrite main_long_argv by exact H.
    now destruct (review_file fs ast_parse (default "" (argv !! 1)) st) as [[[]|e] st'].
  - intros prog prog' file_path more more' ->.
    now rewrite !main_long_argv by (cbn; lia).
Qed.

End CommandLine.

Lemma project_fs_readable p : project_fs p <> Unreadable.
Proof.
  unfold project_fs.
  repeat match goal with |- context [String.eqb ?a ?b] => destruct (String.eqb a b) end;
    discriminate.
Qed.

Lemma main_reviews_a_readable_file_witness :
  project_fs "app.py" = File third_line_py
  /\ parse_as third_line_tree third_line_py = Parsed third_line_tree
  /\ (forall ty, ty ∈ review_types ->
        project_fs (template_path "review_templates" ty) <> Unreadable)
  /\ main project_fs (parse_as third_line_tree) ["review_logic.py"; "app.py"] start
     = (Finished,
        mkState (heap start
                 ++ [empty_results; analysis (parse_as third_line_tree) third_line_py])
          "review_templates" (S (length (heap start)))
          (stdout start
           ++ review_output project_fs "review_templates" "general"
                (analysis (parse_as third_line_tree) third_line_py)
           ++ review_output project_fs "review_templates" "security"
                (analysis (parse_as third_line_tree) third_line_py)
           ++ review_output project_fs "review_templates" "performance"
                (analysis (parse_as third_line_tree) third_line_py)))
  /\ analysis (parse_as third_line_tree) third_line_py !! "security"
     = Some (credentials_findings third_line_py ++ sql_findings third_line_py).
Proof.
  split; [reflexivity|]. split; [reflexivity|].
  split; [intros ty _; apply project_fs_readable|].
  destruct (main_reviews_a_readable_file project_fs (parse_as third_line_tree)
              "review_logic.py" "app.py" [] third_line_py third_line_tree start
              eq_refl eq_refl (fun ty _ => project_fs_readable _))
    as (H1 & _ & H3 & _).
  split; [exact H1 | exact H3].
Defined.

Lemma main_goes_on_after_a_missing_file_witness :
  project_fs "gone.py" = Missing
  /\ (forall ty, ty ∈ review_types ->
        project_fs (template_path "review_templates" ty) <> Unreadable)
  /\ main project_fs (parse_as third_line_tree)
       ["review_logic.py"; "gone.py"] start
     = (Finished,
        mkState (heap start ++ [empty_results]) "review_templates" (length (heap start))
          (stdout start
           ++ ["Error: File " +:+ "gone.py" +:+ " not found"]
           ++ review_output project_fs "review_templates" "general" empty_results
           ++ review_output project_fs "review_templates" "security" empty_results
           ++ review_output project_fs "review_templates" "performance" empty_results)).
Proof.
  split; [reflexivity|]. split; [intros ty _; apply project_fs_readable|].
  exact (proj1 (main_goes_on_after_a_missing_file project_fs
                  (parse_as third_line_tree)
                  "review_logic.py" "gone.py" [] start eq_refl
                  (fun ty _ => project_fs_readable _))).
Defined.
